(** * LibriSync: the native bridge adapter, the library screen, the
    authentication hook and the download core

    A shallow embedding of
    - [ExpoRustBridgeModule.kt]   (module [Bridge]),
    - [LibraryScreen.tsx]         (module [LibraryScreen]),
    - [useAuthentication.ts]      (module [UseAuthentication]),
    and of the download core described by the design ([Core]), followed by
    the properties established about them. *)

From stdpp Require Import gmap strings list fin_maps sorting pretty.
From Stdlib Require Import ZArith NArith Lia.
From Stdlib Require Strings.Byte.

Set Warnings "-register-all".
Set Default Proof Using "Type".

Open Scope Z_scope.

(** * Part I: definitions *)

(** ** Kotlin control flow: values and throwables *)

Module Kotlin.

(** [java.lang.Throwable], split the way [catch (e: Exception)] sees it:
    an [Exception] is caught, a [java.lang.Error] (for instance the
    [UnsatisfiedLinkError] of a missing [rust_core] library) is not.  The
    payload is [e.message], which Kotlin types [String?]. *)
Inductive Throwable :=
| JavaException (message : option string)
| JavaError (message : option string).

Inductive Outcome (A : Type) :=
| Returns (a : A)
| Throws (t : Throwable).
Arguments Returns {A} a.
Arguments Throws {A} t.

#[global] Instance outcome_ret : MRet Outcome := λ A a, Returns a.
#[global] Instance outcome_bind : MBind Outcome := λ A B f m,
  match m with
  | Returns a => f a
  | Throws t => Throws t
  end.

(** [try { body } catch (e: Exception) { handler(e.message) }] *)
Definition tryCatch {A} (body : Outcome A) (handler : option string → Outcome A)
  : Outcome A :=
  match body with
  | Throws (JavaException message) => handler message
  | other => other
  end.

(** A [String?] inside a string template: ["${e.message}"] prints [null]
    for a missing message. *)
Definition template (message : option string) : string :=
  default "null" message.

End Kotlin.

(** ** ExpoRustBridgeModule.kt *)

Module Bridge.
Import Kotlin.

(** Values held by [org.json] objects. *)
Inductive JSON :=
| JNull                               (* JSONObject.NULL *)
| JBool (b : bool)
| JNumber (n : Z)
| JString (s : string)
| JArray (items : list JSON)
| JObject (fields : gmap string JSON).

(** What [parseJsonValue] hands to JavaScript: [Map], [List] or primitive. *)
Inductive KValue :=
| KNull
| KBool (b : bool)
| KNumber (n : Z)
| KString (s : string)
| KList (items : list KValue)
| KMap (entries : gmap string KValue).

(** An [org.json.JSONException] with its message. *)
Definition JSONException := option string.

(** The part of [org.json] the module calls.  The library is not part of
    the repository: the adapter is modelled over any behaviour of it that
    respects its signatures (the accessors throw [JSONException] only). *)
Record OrgJson := {
  JSONObject_parse : string → JSONException + gmap string JSON;   (* JSONObject(String) *)
  JSONObject_toString : gmap string JSON → string;                (* toString() *)
  getBoolean : gmap string JSON → string → JSONException + bool;
  get : gmap string JSON → string → JSONException + JSON;
  getString : gmap string JSON → string → JSONException + string
}.

#[global] Instance json_bind : MBind (sum JSONException) := λ A B f m,
  match m with
  | inr a => f a
  | inl e => inl e
  end.

(** The sixteen [private external fun native...(paramsJson: String): String]. *)
Inductive NativeMethod :=
| nativeGenerateOAuthUrl
| nativeParseOAuthCallback
| nativeExchangeAuthCode
| nativeRefreshAccessToken
| nativeGetActivationBytes
| nativeInitDatabase
| nativeSyncLibrary
| nativeSyncLibraryPage
| nativeGetBooks
| nativeSearchBooks
| nativeDownloadBook
| nativeDecryptAAX
| nativeValidateActivationBytes
| nativeGetSupportedLocales
| nativeGetCustomerInformation
| nativeLogFromRust.

(** The JNI layer: a call returns the response string or throws. *)
Definition Natives := NativeMethod → string → Outcome string.

(** [Map<String, Any?>] *)
Abbreviation ResultMap := (gmap string KValue).

Fixpoint parseJsonValue (value : JSON) : KValue :=
  match value with
  | JObject fields => KMap (parseJsonValue <$> fields)
  | JArray items => KList (parseJsonValue <$> items)
  | JNull => KNull
  | JBool b => KBool b
  | JNumber n => KNumber n
  | JString s => KString s
  end.

(** [mapOf("success" to ..., key to value)] *)
Definition mapOf2 (success : bool) (key : string) (value : KValue) : ResultMap :=
  <[key := value]> {["success" := KBool success]}.

Section Module.
Context (lib : OrgJson) (native : Natives).

Definition parseJsonResponse (jsonString : string) : ResultMap :=
  let body : JSONException + ResultMap :=
    json ← JSONObject_parse lib jsonString;
    success ← getBoolean lib json "success";
    if success : bool then
      data ← get lib json "data";
      inr (mapOf2 true "data" (parseJsonValue data))
    else
      error ← getString lib json "error";
      inr (mapOf2 false "error" (KString error)) in
  match body with
  | inr m => m
  | inl message =>
      mapOf2 false "error"
        (KString ("Failed to parse JSON response: " +:+ template message))
  end.

(** [JSONObject().apply { put(k1, v1); ... }] *)
Definition JSONObject_apply (puts : list (string * JSON)) : gmap string JSON :=
  foldl (λ o kv, <[kv.1 := kv.2]> o) ∅ puts.

(** The body shared by every function that reaches the native layer:
    serialise the parameters, call, parse the response. *)
Definition callNative (m : NativeMethod) (params : gmap string JSON)
  : Outcome ResultMap :=
  result ← native m (JSONObject_toString lib params);
  Returns (parseJsonResponse result).

Definition errorMap (tag : string) (message : option string) : Outcome ResultMap :=
  Returns (mapOf2 false "error" (KString (tag +:+ template message))).

Definition generateOAuthUrl (localeCode deviceSerial : string) :=
  callNative nativeGenerateOAuthUrl
    (JSONObject_apply [("locale_code", JString localeCode);
                       ("device_serial", JString deviceSerial)]).

Definition parseOAuthCallback (callbackUrl : string) :=
  callNative nativeParseOAuthCallback
    (JSONObject_apply [("callback_url", JString callbackUrl)]).

Definition exchangeAuthCode (localeCode authCode deviceSerial pkceVerifier : string) :=
  tryCatch
    (callNative nativeExchangeAuthCode
       (JSONObject_apply [("locale_code", JString localeCode);
                          ("authorization_code", JString authCode);
                          ("device_serial", JString deviceSerial);
                          ("pkce_verifier", JString pkceVerifier)]))
    (errorMap "Exchange auth code error: ").

Definition refreshAccessToken (localeCode refreshToken deviceSerial : string) :=
  tryCatch
    (callNative nativeRefreshAccessToken
       (JSONObject_apply [("locale_code", JString localeCode);
                          ("refresh_token", JString refreshToken);
                          ("device_serial", JString deviceSerial)]))
    (errorMap "Refresh token error: ").

Definition getActivationBytes (localeCode accessToken : string) :=
  tryCatch
    (callNative nativeGetActivationBytes
       (JSONObject_apply [("locale_code", JString localeCode);
                          ("access_token", JString accessToken)]))
    (errorMap "Get activation bytes error: ").

Definition initDatabase (dbPath : string) :=
  callNative nativeInitDatabase (JSONObject_apply [("db_path", JString dbPath)]).

Definition syncLibrary (dbPath accountJson : string) :=
  tryCatch
    (callNative nativeSyncLibrary
       (JSONObject_apply [("db_path", JString dbPath);
                          ("account_json", JString accountJson)]))
    (errorMap "Sync library error: ").

Definition syncLibraryPage (dbPath accountJson : string) (page : Z) :=
  tryCatch
    (callNative nativeSyncLibraryPage
       (JSONObject_apply [("db_path", JString dbPath);
                          ("account_json", JString accountJson);
                          ("page", JNumber page)]))
    (errorMap "Sync library page error: ").

Definition getBooks (dbPath : string) (offset limit : Z) :=
  callNative nativeGetBooks
    (JSONObject_apply [("db_path", JString dbPath);
                       ("offset", JNumber offset);
                       ("limit", JNumber limit)]).

Definition searchBooks (dbPath query : string) :=
  callNative nativeSearchBooks
    (JSONObject_apply [("db_path", JString dbPath); ("query", JString query)]).

Definition downloadBook (asin licenseJson outputPath : string) :=
  tryCatch
    (callNative nativeDownloadBook
       (JSONObject_apply [("asin", JString asin);
                          ("license_json", JString licenseJson);
                          ("output_path", JString outputPath)]))
    (errorMap "Download book error: ").

(** The request [decryptAAX] builds for the native layer. *)
Definition decryptAAX_params (inputPath outputPath activationBytes : string)
  : gmap string JSON :=
  JSONObject_apply [("input_path", JString inputPath);
                    ("output_path", JString outputPath);
                    ("activation_bytes", JString activationBytes)].

Definition decryptAAX (inputPath outputPath activationBytes : string) :=
  tryCatch
    (callNative nativeDecryptAAX
       (decryptAAX_params inputPath outputPath activationBytes))
    (errorMap "Decrypt AAX error: ").

Definition validateActivationBytes (activationBytes : string) :=
  callNative nativeValidateActivationBytes
    (JSONObject_apply [("activation_bytes", JString activationBytes)]).

Definition getSupportedLocales :=
  callNative nativeGetSupportedLocales (JSONObject_apply []).

(** [promise.resolve(response)]: the response is the value delivered. *)
Definition getCustomerInformation (localeCode accessToken : string) :=
  callNative nativeGetCustomerInformation
    (JSONObject_apply [("locale_code", JString localeCode);
                       ("access_token", JString accessToken)]).

Definition testBridge : Outcome ResultMap :=
  Returns (<["version" := KString "0.1.0"]>
            (<["rustLoaded" := KBool true]> {["bridgeActive" := KBool true]})).

Definition logFromRust (message : string) :=
  callNative nativeLogFromRust (JSONObject_apply [("message", JString message)]).

(** A call of one of the functions the [ModuleDefinition] exports. *)
Inductive BridgeCall :=
| GenerateOAuthUrl (localeCode deviceSerial : string)
| ParseOAuthCallback (callbackUrl : string)
| ExchangeAuthCode (localeCode authCode deviceSerial pkceVerifier : string)
| RefreshAccessToken (localeCode refreshToken deviceSerial : string)
| GetActivationBytes (localeCode accessToken : string)
| InitDatabase (dbPath : string)
| SyncLibrary (dbPath accountJson : string)
| SyncLibraryPage (dbPath accountJson : string) (page : Z)
| GetBooks (dbPath : string) (offset limit : Z)
| SearchBooks (dbPath query : string)
| DownloadBook (asin licenseJson outputPath : string)
| DecryptAAX (inputPath outputPath activationBytes : string)
| ValidateActivationBytes (activationBytes : string)
| GetSupportedLocales
| GetCustomerInformation (localeCode accessToken : string)
| TestBridge
| LogFromRust (message : string).

Definition invoke (call : BridgeCall) : Outcome ResultMap :=
  match call with
  | GenerateOAuthUrl l d => generateOAuthUrl l d
  | ParseOAuthCallback u => parseOAuthCallback u
  | ExchangeAuthCode l a d p => exchangeAuthCode l a d p
  | RefreshAccessToken l r d => refreshAccessToken l r d
  | GetActivationBytes l a => getActivationBytes l a
  | InitDatabase p => initDatabase p
  | SyncLibrary p a => syncLibrary p a
  | SyncLibraryPage p a n => syncLibraryPage p a n
  | GetBooks p o l => getBooks p o l
  | SearchBooks p q => searchBooks p q
  | DownloadBook a l o => downloadBook a l o
  | DecryptAAX i o a => decryptAAX i o a
  | ValidateActivationBytes a => validateActivationBytes a
  | GetSupportedLocales => getSupportedLocales
  | GetCustomerInformation l a => getCustomerInformation l a
  | TestBridge => testBridge
  | LogFromRust m => logFromRust m
  end.

End Module.

(** The functions whose body is wrapped in [try { } catch (e: Exception)]. *)
Definition hasCatchBlock (call : BridgeCall) : bool :=
  match call with
  | ExchangeAuthCode _ _ _ _ | RefreshAccessToken _ _ _ | GetActivationBytes _ _
  | SyncLibrary _ _ | SyncLibraryPage _ _ _ | DownloadBook _ _ _
  | DecryptAAX _ _ _ => true
  | _ => false
  end.

(** The shape the documentation promises: a boolean [success] with [data]
    when it is true and a string [error] when it is false. *)
Definition result_shape (m : ResultMap) : Prop :=
  (m !! "success" = Some (KBool true) ∧ is_Some (m !! "data")) ∨
  (m !! "success" = Some (KBool false) ∧ ∃ msg, m !! "error" = Some (KString msg)).

(** What a native call may do for the adapter to answer in that shape: return,
    or throw an [Exception] into a catch block. *)
Definition tolerated (call : BridgeCall) (o : Outcome string) : Prop :=
  match o with
  | Returns _ => True
  | Throws (JavaException _) => hasCatchBlock call = true
  | Throws (JavaError _) => False
  end.













(** A stand-in for [org.json] in examples: [responses] lists the strings
    the parser accepts, anything else is malformed. *)
Definition tableJson (responses : list (string * gmap string JSON)) : OrgJson := {|
  JSONObject_parse s :=
    match list_find (λ r, r.1 = s) responses with
    | Some (_, r) => inr r.2
    | None => inl (Some "Unterminated object")
    end;
  JSONObject_toString _ := "{}";
  getBoolean o name :=
    match o !! name with
    | Some (JBool b) => inr b
    | _ => inl (Some ("No value for " +:+ name))
    end;
  get o name :=
    match o !! name with
    | Some v => inr v
    | None => inl (Some ("No value for " +:+ name))
    end;
  getString o name :=
    match o !! name with
    | Some (JString s) => inr s
    | _ => inl (Some ("No value for " +:+ name))
    end
|}.

(** The native method behind each exported function; [testBridge] has
    none. *)
Definition nativeMethodOf (call : BridgeCall) : option NativeMethod :=
  match call with
  | GenerateOAuthUrl _ _ => Some nativeGenerateOAuthUrl
  | ParseOAuthCallback _ => Some nativeParseOAuthCallback
  | ExchangeAuthCode _ _ _ _ => Some nativeExchangeAuthCode
  | RefreshAccessToken _ _ _ => Some nativeRefreshAccessToken
  | GetActivationBytes _ _ => Some nativeGetActivationBytes
  | InitDatabase _ => Some nativeInitDatabase
  | SyncLibrary _ _ => Some nativeSyncLibrary
  | SyncLibraryPage _ _ _ => Some nativeSyncLibraryPage
  | GetBooks _ _ _ => Some nativeGetBooks
  | SearchBooks _ _ => Some nativeSearchBooks
  | DownloadBook _ _ _ => Some nativeDownloadBook
  | DecryptAAX _ _ _ => Some nativeDecryptAAX
  | ValidateActivationBytes _ => Some nativeValidateActivationBytes
  | GetSupportedLocales => Some nativeGetSupportedLocales
  | GetCustomerInformation _ _ => Some nativeGetCustomerInformation
  | TestBridge => None
  | LogFromRust _ => Some nativeLogFromRust
  end.

(** The prefix under which the catch block of a function reports an
    [Exception]; [None] for a function without catch block. *)
Definition catchPrefix (call : BridgeCall) : option string :=
  match call with
  | ExchangeAuthCode _ _ _ _ => Some "Exchange auth code error: "
  | RefreshAccessToken _ _ _ => Some "Refresh token error: "
  | GetActivationBytes _ _ => Some "Get activation bytes error: "
  | SyncLibrary _ _ => Some "Sync library error: "
  | SyncLibraryPage _ _ _ => Some "Sync library page error: "
  | DownloadBook _ _ _ => Some "Download book error: "
  | DecryptAAX _ _ _ => Some "Decrypt AAX error: "
  | _ => None
  end.

(** The parameters a function puts into the [JSONObject] of its request. *)
Definition paramsOf (call : BridgeCall) : gmap string JSON :=
  JSONObject_apply
    match call with
    | GenerateOAuthUrl localeCode deviceSerial =>
        [("locale_code", JString localeCode); ("device_serial", JString deviceSerial)]
    | ParseOAuthCallback callbackUrl => [("callback_url", JString callbackUrl)]
    | ExchangeAuthCode localeCode authCode deviceSerial pkceVerifier =>
        [("locale_code", JString localeCode); ("authorization_code", JString authCode);
         ("device_serial", JString deviceSerial); ("pkce_verifier", JString pkceVerifier)]
    | RefreshAccessToken localeCode refreshToken deviceSerial =>
        [("locale_code", JString localeCode); ("refresh_token", JString refreshToken);
         ("device_serial", JString deviceSerial)]
    | GetActivationBytes localeCode accessToken =>
        [("locale_code", JString localeCode); ("access_token", JString accessToken)]
    | InitDatabase dbPath => [("db_path", JString dbPath)]
    | SyncLibrary dbPath accountJson =>
        [("db_path", JString dbPath); ("account_json", JString accountJson)]
    | SyncLibraryPage dbPath accountJson page =>
        [("db_path", JString dbPath); ("account_json", JString accountJson);
         ("page", JNumber page)]
    | GetBooks dbPath offset limit =>
        [("db_path", JString dbPath); ("offset", JNumber offset);
         ("limit", JNumber limit)]
    | SearchBooks dbPath query => [("db_path", JString dbPath); ("query", JString query)]
    | DownloadBook asin licenseJson outputPath =>
        [("asin", JString asin); ("license_json", JString licenseJson);
         ("output_path", JString outputPath)]
    | DecryptAAX inputPath outputPath activationBytes =>
        [("input_path", JString inputPath); ("output_path", JString outputPath);
         ("activation_bytes", JString activationBytes)]
    | ValidateActivationBytes activationBytes =>
        [("activation_bytes", JString activationBytes)]
    | GetSupportedLocales => []
    | GetCustomerInformation localeCode accessToken =>
        [("locale_code", JString localeCode); ("access_token", JString accessToken)]
    | TestBridge => []
    | LogFromRust message => [("message", JString message)]
    end.

(** The native call of a function: its own native method on the request
    it builds.  [testBridge] makes none. *)
Definition ownNativeCall (lib : OrgJson) (native : Natives) (call : BridgeCall)
  : option (Outcome string) :=
  (λ m, native m (JSONObject_toString lib (paramsOf call))) <$> nativeMethodOf call.

(** [parseJsonValue] read backwards. *)
Fixpoint toJson (value : KValue) : JSON :=
  match value with
  | KMap entries => JObject (toJson <$> entries)
  | KList items => JArray (toJson <$> items)
  | KNull => JNull
  | KBool b => JBool b
  | KNumber n => JNumber n
  | KString s => JString s
  end.

(** How deep the objects and arrays of a value are nested. *)
Fixpoint depth (value : JSON) : nat :=
  match value with
  | JObject fields =>
      S (map_fold (λ _ d acc, d `max` acc)%nat 0%nat (depth <$> fields))
  | JArray items => S (foldr Nat.max 0%nat (depth <$> items))
  | _ => 0%nat
  end.

(** Data for examples: a library that reads two responses of the core,
    and a native layer in which only [nativeGetBooks] answers. *)
Definition exampleJson : OrgJson :=
  tableJson [("ok", {["success" := JBool true; "data" := JNull]});
             ("failed", {["success" := JBool false;
                          "error" := JString "Database not found"]})].

(** A native layer in which only [nativeDecryptAAX] is there. *)
Definition onlyDecryptAAX (outcome : Outcome string) : Natives :=
  λ m _, match m with
         | nativeDecryptAAX => outcome
         | _ => Throws (JavaError (Some "No implementation found"))
         end.

Definition onlyGetBooks (answer : string) : Natives :=
  λ m _, match m with
         | nativeGetBooks => Returns answer
         | _ => Throws (JavaError (Some "No implementation found"))
         end.

End Bridge.

(** ** JavaScript: async functions as resumable programs *)

Module Js.

(** A thrown value as far as the catch blocks inspect it: an object with
    an optional [message], or [null]/[undefined]. *)
Inductive Thrown :=
| ErrorObject (message : option string)
| Nullish.

(** Truthiness of a [string | null]. *)
Definition truthy (v : option string) : bool :=
  match v with
  | Some s => negb (String.eqb s "")
  | None => false
  end.

(** [v || fallback] on a [string | undefined]. *)
Definition orElse (v : option string) (fallback : string) : string :=
  match v with
  | Some s => if String.eqb s "" then fallback else s
  | None => fallback
  end.

Section Async.
Context {Op Ans Eff R : Type}.

(** The body of an async function returning [R]: a tree whose inner nodes
    are its [await]s (the continuation takes the settled promise), its
    clock readings and its synchronous effects ([setState], [Alert]), and
    whose leaves are normal completion, [return] and [throw]. *)
Inductive Async (A : Type) : Type :=
| Ret (a : A)
| ReturnV (r : R)
| Throw (e : Thrown)
| Await (op : Op) (k : Ans → Async A)
| Clock (k : Z → Async A)
| Perform (e : Eff) (k : Async A).
Arguments Ret {A} a.
Arguments ReturnV {A} r.
Arguments Throw {A} e.
Arguments Await {A} op k.
Arguments Clock {A} k.
Arguments Perform {A} e k.

Fixpoint bind {A B} (p : Async A) (f : A → Async B) : Async B :=
  match p with
  | Ret a => f a
  | ReturnV r => ReturnV r
  | Throw e => Throw e
  | Await op k => Await op (λ x, bind (k x) f)
  | Clock k => Clock (λ t, bind (k t) f)
  | Perform e k => Perform e (bind k f)
  end.

(** [try { body } catch (error) { handler }] *)
Fixpoint tryCatch {A} (body : Async A) (handler : Thrown → Async A) : Async A :=
  match body with
  | Throw e => handler e
  | Await op k => Await op (λ x, tryCatch (k x) handler)
  | Clock k => Clock (λ t, tryCatch (k t) handler)
  | Perform e k => Perform e (tryCatch k handler)
  | Ret a => Ret a
  | ReturnV r => ReturnV r
  end.

(** [try { body } finally { finalizer }]: the finalizer runs on every way
    out of the body, then the body's completion takes effect. *)
Fixpoint tryFinally {A} (body : Async A) (finalizer : Async unit) : Async A :=
  match body with
  | Ret a => bind finalizer (λ _, Ret a)
  | ReturnV r => bind finalizer (λ _, ReturnV r)
  | Throw e => bind finalizer (λ _, Throw e)
  | Await op k => Await op (λ x, tryFinally (k x) finalizer)
  | Clock k => Clock (λ t, tryFinally (k t) finalizer)
  | Perform e k => Perform e (tryFinally k finalizer)
  end.

(** Run the synchronous part of a program: up to its next [await] or to
    its end.  [now] is the clock during this turn of the event loop. *)
Fixpoint advance {W} (perform : Eff → W → W) (now : Z) (p : Async R) (w : W)
  : W * Async R :=
  match p with
  | Clock k => advance perform now (k now) w
  | Perform e k => advance perform now k (perform e w)
  | _ => (w, p)
  end.

(** Run a program to its end when every promise it awaits is settled at
    once by [answer].  [clock] holds the readings of the clock in the
    order the program takes them: [clock 0] answers the next reading,
    [clock 1] the one after it.  Nothing is assumed of the readings; two
    of them may be equal, and the second may be the earlier. *)
Fixpoint exec {W} (answer : Op → W → Ans * W) (perform : Eff → W → W)
    (clock : nat → Z) (p : Async R) (w : W) : W * Async R :=
  match p with
  | Await op k => let '(a, w') := answer op w in exec answer perform clock (k a) w'
  | Clock k => exec answer perform (λ i, clock (S i)) (k (clock 0%nat)) w
  | Perform e k => exec answer perform clock k (perform e w)
  | _ => (w, p)
  end.

(** The operation a suspended program waits for; a program that waits for
    none after its turn has ended: fulfilled at [Ret] and [ReturnV],
    rejected at [Throw]. *)
Definition awaited (p : Async R) : option Op :=
  match p with
  | Await op _ => Some op
  | _ => None
  end.

End Async.

(** [await f()]: the body of the async function [f], its [return] and its
    normal end both giving the awaited value. *)
Fixpoint call {Op Ans Eff R' R : Type} (p : @Async Op Ans Eff R' R')
  : @Async Op Ans Eff R R' :=
  match p with
  | Ret _ a => Ret _ a
  | ReturnV _ r => Ret _ r
  | Throw _ e => Throw _ e
  | Await _ op k => Await _ op (λ x, call (k x))
  | Clock _ k => Clock _ (λ t, call (k t))
  | Perform _ e k => Perform _ e (call k)
  end.

Arguments Async : clear implicits.
Arguments Ret {Op Ans Eff R A} a.
Arguments ReturnV {Op Ans Eff R A} r.
Arguments Throw {Op Ans Eff R A} e.
Arguments Await {Op Ans Eff R A} op k.
Arguments Clock {Op Ans Eff R A} k.
Arguments Perform {Op Ans Eff R A} e k.
#[global] Instance async_bind {Op Ans Eff R} : MBind (Async Op Ans Eff R) :=
  λ A B f p, bind p f.

(** [Q] holds at every point of a program: of the program itself and of
    what is left of it however its promises settle and whatever the clock
    shows. *)
Fixpoint everywhere {Op Ans Eff R A : Type} (Q : Async Op Ans Eff R A → Prop)
    (p : Async Op Ans Eff R A) : Prop :=
  Q p ∧ match p with
        | Await _ k => ∀ a, everywhere Q (k a)
        | Clock k => ∀ t, everywhere Q (k t)
        | Perform _ k => everywhere Q k
        | _ => True
        end.

End Js.

(** ** LibraryScreen.tsx *)

Module LibraryScreen.
Import Js.

Record Book := {
  audible_product_id : string;
  title : string;
  file_path : option string
}.

(** The stored account as far as the screen reads and updates it. *)
Record AccessToken := { token : string; expires_at : string }.
Record Identity := {
  access_token : option AccessToken;
  refresh_token : string
}.
Record Account := { identity : option Identity }.

(** What [refreshToken] resolves to. *)
Record NewTokens := {
  new_access_token : string;
  new_refresh_token : string;
  expires_in : string
}.

(** What [downloadAndDecryptBook] resolves to; [duration] in seconds. *)
Record DownloadResult := { outputPath : string; duration : Z }.

(** The JavaScript built-ins the screen calls.  [JSON_parse] stands for
    reading the stored text as an [Account]: a text that is no account
    object ends in the same catch block as a syntax error.  A date is its
    time value in milliseconds, [None] being an invalid date ([NaN]);
    [toISOString] throws a [RangeError] on an invalid date, with a message
    of the engine's. *)
Record Builtins := {
  JSON_parse : string → Thrown + Account;
  JSON_stringify : Account → string;
  Date_getTime : string → option Z;
  parseInt : string → option Z;
  toISOString : Z → option string;
  rangeError : Thrown
}.

Definition DOWNLOAD_PATH_KEY := "download_path".

(** Promises the screen awaits. *)
Inductive Op :=
| GetItemAsync (key : string)
| SetItemAsync (key value : string)
| RefreshToken (account : Account)
| DownloadAndDecryptBook (account : Account) (asin downloadDir quality : string).

(** How an awaited promise settles. *)
Inductive Ans :=
| AItem (v : option string)
| AVoid
| ATokens (t : NewTokens)
| AResult (r : DownloadResult)
| ARejected (e : Thrown).

(** Synchronous effects: the two state setters and [Alert.alert]. *)
Inductive Eff :=
| SetDownloadingAsins (f : gset string → gset string)
| SetAudiobooks (f : list Book → list Book)
| AlertAlert (title message : string).

Abbreviation Prog := (Async Op Ans Eff unit).

(** What an [await] does with a settlement of another kind than its
    promise has; the event loop delivers none (see [delivers]). *)
Definition typeError : Thrown := ErrorObject (Some "TypeError").

Definition getItemAsync (key : string) : Prog (option string) :=
  Await (GetItemAsync key) (λ a,
    match a with
    | AItem v => Ret v
    | ARejected e => Throw e
    | _ => Throw typeError
    end).

Definition setItemAsync (key value : string) : Prog unit :=
  Await (SetItemAsync key value) (λ a,
    match a with
    | AVoid => Ret tt
    | ARejected e => Throw e
    | _ => Throw typeError
    end).

Definition refreshToken (account : Account) : Prog NewTokens :=
  Await (RefreshToken account) (λ a,
    match a with
    | ATokens t => Ret t
    | ARejected e => Throw e
    | _ => Throw typeError
    end).

Definition downloadAndDecryptBook (account : Account)
    (asin downloadDir quality : string) : Prog DownloadResult :=
  Await (DownloadAndDecryptBook account asin downloadDir quality) (λ a,
    match a with
    | AResult r => Ret r
    | ARejected e => Throw e
    | _ => Throw typeError
    end).

Definition alert (title message : string) : Prog unit :=
  Perform (AlertAlert title message) (Ret tt).

Definition setDownloadingAsins (f : gset string → gset string) : Prog unit :=
  Perform (SetDownloadingAsins f) (Ret tt).

Definition setAudiobooks (f : list Book → list Book) : Prog unit :=
  Perform (SetAudiobooks f) (Ret tt).

Definition newline : string := String (Ascii.ascii_of_nat 10) "".

Section Screen.
Context (js : Builtins).

(** [(expiresAt.getTime() - now.getTime()) / 1000 / 60 < 5], on integral
    milliseconds; a comparison with [NaN] is false. *)
Definition expiringSoon (expires_at : string) (now : Z) : bool :=
  match Date_getTime js expires_at with
  | Some expiresAt => bool_decide (expiresAt - now < 5 * 60 * 1000)
  | None => false
  end.

(** The account with the new tokens written into it. *)
Definition withTokens (id : Identity) (newTokens : NewTokens)
    (newExpiresAt : string) : Account :=
  {| identity := Some
       {| access_token := Some {| token := new_access_token newTokens;
                                  expires_at := newExpiresAt |};
          refresh_token := new_refresh_token newTokens |} |}.

(** Lines 125-150: refresh the token when it expires within 5 minutes. *)
Definition refreshIfExpiring (account : Account) : Prog Account :=
  match identity account with
  | Some id =>
      match access_token id with
      | Some tok =>
          Clock (λ now,
            if expiringSoon (expires_at tok) now then
              tryCatch
                (newTokens ← refreshToken account;
                 Clock (λ now',
                   match parseInt js (expires_in newTokens) with
                   | Some seconds =>
                       match toISOString js (now' + seconds * 1000) with
                       | Some newExpiresAt =>
                           let account' := withTokens id newTokens newExpiresAt in
                           setItemAsync "audible_account" (JSON_stringify js account');;
                           Ret account'
                       | None => Throw (rangeError js)
                       end
                   | None => Throw (rangeError js)
                   end))
                (λ refreshError,
                   alert "Error" "Please log in again - token refresh failed";;
                   ReturnV tt)
            else Ret account)
      | None => Ret account
      end
  | None => Ret account
  end.

Definition downloadCompleteMessage (book : Book) (result : DownloadResult) : string :=
  title book +:+ newline +:+ newline +:+ "Saved to: " +:+ outputPath result
  +:+ newline +:+ "Duration: " +:+ pretty (duration result `div` 3600) +:+ "h "
  +:+ pretty ((duration result `rem` 3600) `div` 60) +:+ "m".

Definition handleDownload (book : Book) : Prog unit :=
  tryFinally
    (tryCatch
       (accountData ← getItemAsync "audible_account";
        if negb (truthy accountData) then
          alert "Error" "Please log in first";;
          ReturnV tt
        else
          account ← match JSON_parse js (default "" accountData) with
                    | inr account => Ret account
                    | inl e => Throw e
                    end;
          account ← refreshIfExpiring account;
          downloadDir ← getItemAsync DOWNLOAD_PATH_KEY;
          if negb (truthy downloadDir) then
            alert "Download Directory Not Set"
              "Please go to Settings and choose a download directory first.";;
            ReturnV tt
          else
            (* Mark as downloading *)
            setDownloadingAsins (λ prev, prev ∪ {[audible_product_id book]});;
            (* Download and decrypt *)
            result ← downloadAndDecryptBook account (audible_product_id book)
                       (default "" downloadDir) "High";
            (* Update book with file path *)
            setAudiobooks (fmap (λ b,
              if decide (audible_product_id b = audible_product_id book)
              then {| audible_product_id := audible_product_id b;
                      title := title b;
                      file_path := Some (outputPath result) |}
              else b));;
            alert "Download Complete" (downloadCompleteMessage book result))
       (λ error,
          match error with
          | ErrorObject message =>
              alert "Download Failed" (orElse message "Unknown error")
          | Nullish => Throw typeError
          end))
    (* Remove from downloading *)
    (setDownloadingAsins (λ prev, prev ∖ {[audible_product_id book]})).

(** *** The screen at run time *)

(** The component state, the secure store, what the user has been shown,
    and the invocations of [handleDownload] that are suspended at an
    [await], each with what is left of it. *)
Record Screen := {
  downloadingAsins : gset string;
  audiobooks : list Book;
  secureStore : gmap string string;
  alerts : list (string * string);
  invocations : gmap nat (Book * Prog unit);
  issued : list (nat * Op);
  next_invocation : nat
}.

Inductive Status := StatusDownloading | StatusDownloaded | StatusAvailable.

Definition getStatus (s : Screen) (book : Book) : Status :=
  if decide (audible_product_id book ∈ downloadingAsins s) then StatusDownloading
  else if truthy (file_path book) then StatusDownloaded
  else StatusAvailable.

(** [renderItem]: [!isDownloaded && !isDownloading] guards the button
    whose [onPress] is [handleDownload(item)]. *)
Definition downloadButtonShown (s : Screen) (item : Book) : bool :=
  let isDownloading := bool_decide (audible_product_id item ∈ downloadingAsins s) in
  let isDownloaded := truthy (file_path item) in
  negb isDownloaded && negb isDownloading.

(** React applies the updaters in the order of the calls: the state kept
    here is the state after the updaters so far, which is what the next
    render shows. *)
Definition perform (e : Eff) (s : Screen) : Screen :=
  match e with
  | SetDownloadingAsins f =>
      {| downloadingAsins := f (downloadingAsins s); audiobooks := audiobooks s;
         secureStore := secureStore s; alerts := alerts s;
         invocations := invocations s; issued := issued s;
         next_invocation := next_invocation s |}
  | SetAudiobooks f =>
      {| downloadingAsins := downloadingAsins s; audiobooks := f (audiobooks s);
         secureStore := secureStore s; alerts := alerts s;
         invocations := invocations s; issued := issued s;
         next_invocation := next_invocation s |}
  | AlertAlert t m =>
      {| downloadingAsins := downloadingAsins s; audiobooks := audiobooks s;
         secureStore := secureStore s; alerts := alerts s ++ [(t, m)];
         invocations := invocations s; issued := issued s;
         next_invocation := next_invocation s |}
  end.

(** Which settlements the event loop can deliver for an operation: one of
    the operation's kind, or a rejection; a read resolves to what the
    store holds. *)
Definition delivers (s : Screen) (op : Op) (a : Ans) : bool :=
  match op, a with
  | _, ARejected _ => true
  | GetItemAsync key, AItem v => bool_decide (v = secureStore s !! key)
  | SetItemAsync _ _, AVoid => true
  | RefreshToken _, ATokens _ => true
  | DownloadAndDecryptBook _ _ _ _, AResult _ => true
  | _, _ => false
  end.

(** What a settled operation leaves behind: a resolved write is in the
    store. *)
Definition complete (op : Op) (a : Ans) (s : Screen) : Screen :=
  match op, a with
  | SetItemAsync key value, AVoid =>
      {| downloadingAsins := downloadingAsins s; audiobooks := audiobooks s;
         secureStore := <[key := value]> (secureStore s); alerts := alerts s;
         invocations := invocations s; issued := issued s;
         next_invocation := next_invocation s |}
  | _, _ => s
  end.

(** Put invocation [inv] of [handleDownload(book)] back after its turn:
    suspended at its next [await], or gone when it has settled. *)
Definition park (inv : nat) (book : Book) (p : Prog unit) (s : Screen) : Screen :=
  match awaited p with
  | Some op =>
      {| downloadingAsins := downloadingAsins s; audiobooks := audiobooks s;
         secureStore := secureStore s; alerts := alerts s;
         invocations := <[inv := (book, p)]> (invocations s);
         issued := issued s ++ [(inv, op)];
         next_invocation := next_invocation s |}
  | None =>
      {| downloadingAsins := downloadingAsins s; audiobooks := audiobooks s;
         secureStore := secureStore s; alerts := alerts s;
         invocations := delete inv (invocations s); issued := issued s;
         next_invocation := next_invocation s |}
  end.

Definition fresh (s : Screen) : Screen :=
  {| downloadingAsins := downloadingAsins s; audiobooks := audiobooks s;
     secureStore := secureStore s; alerts := alerts s;
     invocations := invocations s; issued := issued s;
     next_invocation := S (next_invocation s) |}.

(** One turn of the event loop. *)
Inductive Event :=
| PressDownload (now : Z) (index : nat)
| Settle (now : Z) (inv : nat) (a : Ans).

Definition step (ev : Event) (s : Screen) : option Screen :=
  match ev with
  | PressDownload now index =>
      item ← audiobooks s !! index;
      if downloadButtonShown s item then
        let inv := next_invocation s in
        let '(s', p) := advance perform now (handleDownload item) s in
        Some (park inv item p (fresh s'))
      else None
  | Settle now inv a =>
      '(book, p) ← invocations s !! inv;
      match p with
      | Await op k =>
          if delivers s op a then
            let '(s', p') := advance perform now (k a) (complete op a s) in
            Some (park inv book p' s')
          else None
      | _ => None
      end
  end.

Fixpoint run (evs : list Event) (s : Screen) : option Screen :=
  match evs with
  | [] => Some s
  | ev :: evs' => s' ← step ev s; run evs' s'
  end.

(** The transfers of [asin] in progress: the invocations suspended in
    [downloadAndDecryptBook] for it. *)
Definition isDownloadOf (asin : string) (op : Op) : bool :=
  match op with
  | DownloadAndDecryptBook _ asin' _ _ => bool_decide (asin' = asin)
  | _ => false
  end.

Definition transferring (asin : string) (entry : Book * Prog unit) : bool :=
  match awaited entry.2 with
  | Some op => isDownloadOf asin op
  | None => false
  end.

Definition activeTransfers (s : Screen) (asin : string) : nat :=
  length (filter (λ e, transferring asin e.2 = true) (map_to_list (invocations s))).

(** The [finally] block of [handleDownload(book)]. *)
Definition finalizer (book : Book) : Prog unit :=
  setDownloadingAsins (λ prev, prev ∖ {[audible_product_id book]}).

(** Every pending invocation is what is left of a [try ... finally] whose
    finalizer removes the marker of its book. *)
Definition guarded (s : Screen) : Prop :=
  ∀ inv book p, invocations s !! inv = Some (book, p) →
    ∃ body, p = tryFinally body (finalizer book).

End Screen.

(** Data for examples: a signed-in account whose token is valid until
    2033, one title of the library, and a download directory. *)
Definition exampleAccount : Account :=
  {| identity := Some
       {| access_token := Some {| token := "Atna|token";
                                  expires_at := "2033-05-18T03:33:20.000Z" |};
          refresh_token := "Atnr|token" |} |}.

Definition exampleBuiltins : Builtins := {|
  JSON_parse _ := inr exampleAccount;
  JSON_stringify _ := "{}";
  Date_getTime _ := Some 2000000000000;
  parseInt _ := Some 3600;
  toISOString _ := Some "2033-05-18T03:33:20.000Z";
  rangeError := ErrorObject (Some "Invalid time value")
|}.

Definition exampleBook : Book :=
  {| audible_product_id := "B07T2F8VJM";
     title := "A Grown-Up Guide to Dinosaurs";
     file_path := None |}.

Definition exampleScreen : Screen :=
  {| downloadingAsins := ∅;
     audiobooks := [exampleBook];
     secureStore := {["audible_account" := "{}"; "download_path" := "/storage/books"]};
     alerts := [];
     invocations := ∅;
     issued := [];
     next_invocation := 0 |}.

(** The same installation before anyone has signed in. *)
Definition signedOutScreen : Screen :=
  {| downloadingAsins := ∅;
     audiobooks := [exampleBook];
     secureStore := {["download_path" := "/storage/books"]};
     alerts := [];
     invocations := {[0%nat := (exampleBook, handleDownload exampleBuiltins exampleBook)]};
     issued := [(0%nat, GetItemAsync "audible_account")];
     next_invocation := 1 |}.

(** Two presses on the download button of one title, the second before the
    first invocation has marked the title. *)
Definition doublePress : list Event :=
  [ PressDownload 1760000000000 0;
    PressDownload 1760000000100 0;
    Settle 1760000000200 0 (AItem (Some "{}"));
    Settle 1760000000300 1 (AItem (Some "{}"));
    Settle 1760000000400 0 (AItem (Some "/storage/books"));
    Settle 1760000000500 1 (AItem (Some "/storage/books")) ].

(** One press and a download that completes. *)
Definition completedDownload : list Event :=
  [ PressDownload 1760000000000 0;
    Settle 1760000000200 0 (AItem (Some "{}"));
    Settle 1760000000400 0 (AItem (Some "/storage/books"));
    Settle 1760000030000 0
      (AResult {| outputPath := "/storage/books/B07T2F8VJM.m4b"; duration := 9783 |}) ].

(** One press shortly before the token expires: the token is refreshed and
    saved, then the download is rejected with [undefined]. *)
Definition refreshedDownload : list Event :=
  [ PressDownload 1999999990000 0;
    Settle 1999999999000 0 (AItem (Some "{}"));
    Settle 1999999999500 0
      (ATokens {| new_access_token := "Atna|new"; new_refresh_token := "Atnr|new";
                  expires_in := "3600" |});
    Settle 1999999999600 0 AVoid;
    Settle 1999999999700 0 (AItem (Some "/storage/books"));
    Settle 1999999999900 0 (ARejected Nullish) ].

(** One press, up to the read of the download directory. *)
Definition startedDownload : list Event :=
  [ PressDownload 1760000000000 0;
    Settle 1760000000200 0 (AItem (Some "{}")) ].

Definition readingDirectory : Screen :=
  default exampleScreen (run exampleBuiltins startedDownload exampleScreen).

(** The read of the download directory fails. *)
Definition storeFailure : Event :=
  Settle 1760000000400 0 (ARejected (ErrorObject (Some "Could not decrypt the value"))).

(** *** What a turn of [handleDownload] may do

    Each of the following reads a property off one [await] of the
    function: what the turn after it does, for the settlements named. *)

Definition alertTitles : list string :=
  ["Error"; "Download Directory Not Set"; "Download Complete"; "Download Failed"].

(** A turn that goes on to another [await] shows nothing; the turn that
    ends the invocation shows one alert, with one of the four titles. *)
Definition announces (p : Prog unit) : Prop :=
  match p with
  | Await op k =>
      ∀ a now (s s' : Screen) p', a ≠ ARejected Nullish →
        advance perform now (k a) s = (s', p') →
        if awaited p' is Some _ then alerts s' = alerts s
        else ∃ t m, t ∈ alertTitles ∧ alerts s' = alerts s ++ [(t, m)]
  | _ => True
  end.

(** An invocation for [asin] downloads no other title, touches no other
    marker, ends when its download settles, and does not set its marker
    without going on to the download. *)
Definition disciplined (asin : string) (p : Prog unit) : Prop :=
  match p with
  | Await op k =>
      (∀ x, isDownloadOf x op = true → x = asin)
      ∧ ∀ a now (s s' : Screen) p',
          advance perform now (k a) s = (s', p') →
          (∀ x, x ≠ asin → x ∈ downloadingAsins s' ↔ x ∈ downloadingAsins s)
          ∧ (isDownloadOf asin op = true → awaited p' = None)
          ∧ (∀ op', awaited p' = Some op' → isDownloadOf asin op' = false →
               asin ∈ downloadingAsins s' → asin ∈ downloadingAsins s)
  | _ => True
  end.

Definition directoryAlert : string * string :=
  ("Download Directory Not Set",
   "Please go to Settings and choose a download directory first.").

(** Lines 154-163: without a download directory the invocation ends with
    the alert. *)
Definition directoryChecked (p : Prog unit) : Prop :=
  match p with
  | Await (GetItemAsync key) k =>
      key = DOWNLOAD_PATH_KEY →
      ∀ v now (s s' : Screen) p', truthy v = false →
        advance perform now (k (AItem v)) s = (s', p') →
        awaited p' = None ∧ alerts s' = alerts s ++ [directoryAlert]
  | _ => True
  end.

Definition refreshAlert : string * string :=
  ("Error", "Please log in again - token refresh failed").

(** Lines 133-148: a rejected refresh or a rejected save of the refreshed
    account ends the invocation with the alert. *)
Definition refreshGuarded (p : Prog unit) : Prop :=
  match p with
  | Await (RefreshToken _) k | Await (SetItemAsync _ _) k =>
      ∀ e now (s s' : Screen) p',
        advance perform now (k (ARejected e)) s = (s', p') →
        awaited p' = None ∧ alerts s' = alerts s ++ [refreshAlert]
  | _ => True
  end.

(** [{...b, file_path: path}] for the book [asin], [b] for the others. *)
Definition withFile (asin path : string) (b : Book) : Book :=
  if decide (audible_product_id b = asin)
  then {| audible_product_id := audible_product_id b; title := title b;
          file_path := Some path |}
  else b.

(** Lines 180-194: a resolved download ends the invocation, with the file
    recorded and the alert shown. *)
Definition completes (asin : string) (p : Prog unit) : Prop :=
  match p with
  | Await (DownloadAndDecryptBook _ _ _ _) k =>
      ∀ r now (s s' : Screen) p',
        advance perform now (k (AResult r)) s = (s', p') →
        awaited p' = None
        ∧ audiobooks s' = withFile asin (outputPath r) <$> audiobooks s
        ∧ ∃ m, alerts s' = alerts s ++ [("Download Complete", m)]
  | _ => True
  end.

(** Lines 196-198: a read or a download rejected with an error object
    ends the invocation in the catch block. *)
Definition reportsFailure (p : Prog unit) : Prop :=
  match p with
  | Await (GetItemAsync _) k | Await (DownloadAndDecryptBook _ _ _ _) k =>
      ∀ m now (s s' : Screen) p',
        advance perform now (k (ARejected (ErrorObject m))) s = (s', p') →
        awaited p' = None
        ∧ audiobooks s' = audiobooks s
        ∧ alerts s' = alerts s ++ [("Download Failed", orElse m "Unknown error")]
  | _ => True
  end.

(** Lines 142-178: the only write saves the account; when it has
    resolved the download directory is read, and with a directory the
    title is marked and the download issued with the account whose text
    was saved. *)
Definition savesThenDownloads (js : Builtins) (asin : string) (p : Prog unit) : Prop :=
  match p with
  | Await (SetItemAsync key value) k =>
      key = "audible_account"
      ∧ ∀ now (s s1 : Screen) p1,
          advance perform now (k AVoid) s = (s1, p1) →
          s1 = s
          ∧ ∃ k1, p1 = Await (GetItemAsync DOWNLOAD_PATH_KEY) k1
              ∧ ∀ dir now' (s2 s3 : Screen) p3,
                  truthy (Some dir) = true →
                  advance perform now' (k1 (AItem (Some dir))) s2 = (s3, p3) →
                  downloadingAsins s3 = downloadingAsins s2 ∪ {[asin]}
                  ∧ alerts s3 = alerts s2
                  ∧ ∃ account,
                      awaited p3 = Some (DownloadAndDecryptBook account asin dir "High")
                      ∧ JSON_stringify js account = value
  | _ => True
  end.

(** [Q book] holds at every point of every pending invocation. *)
Definition pending (Q : Book → Prog unit → Prop) (s : Screen) : Prop :=
  ∀ inv book p, invocations s !! inv = Some (book, p) → everywhere (Q book) p.

(** Invocation numbers are handed out in order. *)
Definition keys_fresh (s : Screen) : Prop :=
  ∀ inv, is_Some (invocations s !! inv) → (inv < next_invocation s)%nat.

(** Every marked title is being transferred by a pending invocation. *)
Definition marked_transferring (s : Screen) : Prop :=
  ∀ x, x ∈ downloadingAsins s →
    ∃ inv e, invocations s !! inv = Some e ∧ transferring x e = true.

(** What is left of invocation [inv]; of one that is not pending, nothing. *)
Definition suspended (s : Screen) (inv : nat) : Prog unit :=
  (default (exampleBook, Ret tt) (invocations s !! inv)).2.

(** Further data for examples.  The button has been pressed: *)
Definition pressed : Screen :=
  default exampleScreen
    (run exampleBuiltins [PressDownload 1760000000000 0] exampleScreen).

(** the download is in progress: *)
Definition startedTransfer : list Event :=
  startedDownload ++ [Settle 1760000000400 0 (AItem (Some "/storage/books"))].

Definition transferringBook : Screen :=
  default exampleScreen (run exampleBuiltins startedTransfer exampleScreen).

(** the button is pressed shortly before the token expires, and the
    refresh is under way: *)
Definition startedRefresh : list Event :=
  [ PressDownload 1999999990000 0;
    Settle 1999999999000 0 (AItem (Some "{}")) ].

Definition refreshing : Screen :=
  default exampleScreen (run exampleBuiltins startedRefresh exampleScreen).

(** the new tokens have arrived and the account is being saved: *)
Definition grantedRefresh : list Event :=
  startedRefresh
  ++ [ Settle 1999999999500 0
         (ATokens {| new_access_token := "Atna|new"; new_refresh_token := "Atnr|new";
                     expires_in := "3600" |}) ].

Definition savingAccount : Screen :=
  default exampleScreen (run exampleBuiltins grantedRefresh exampleScreen).

(** an installation in which no download directory has been chosen: *)
Definition noDirectoryScreen : Screen :=
  {| downloadingAsins := ∅;
     audiobooks := [exampleBook];
     secureStore := {["audible_account" := "{}"]};
     alerts := [];
     invocations := ∅;
     issued := [];
     next_invocation := 0 |}.

Definition missingDirectory : Screen :=
  default noDirectoryScreen (run exampleBuiltins startedDownload noDirectoryScreen).

(** The read of the download directory has failed. *)
Definition failedRead : Screen :=
  default exampleScreen (step exampleBuiltins storeFailure readingDirectory).

(** *** The list of the library *)

Module Listing.

(** What [getBooks] returns. *)
Record BooksResponse := { books : list Book; total_count : Z }.

(** The state the list is rendered from. *)
Record ListState := {
  audiobooks : list Book;
  isLoading : bool;
  isRefreshing : bool;
  isLoadingMore : bool;
  totalCount : Z;
  hasMore : bool
}.

Definition setAudiobooks (v : list Book) (s : ListState) : ListState :=
  {| audiobooks := v; isLoading := isLoading s; isRefreshing := isRefreshing s;
     isLoadingMore := isLoadingMore s; totalCount := totalCount s;
     hasMore := hasMore s |}.

Definition setIsLoading (v : bool) (s : ListState) : ListState :=
  {| audiobooks := audiobooks s; isLoading := v; isRefreshing := isRefreshing s;
     isLoadingMore := isLoadingMore s; totalCount := totalCount s;
     hasMore := hasMore s |}.

Definition setIsRefreshing (v : bool) (s : ListState) : ListState :=
  {| audiobooks := audiobooks s; isLoading := isLoading s; isRefreshing := v;
     isLoadingMore := isLoadingMore s; totalCount := totalCount s;
     hasMore := hasMore s |}.

Definition setIsLoadingMore (v : bool) (s : ListState) : ListState :=
  {| audiobooks := audiobooks s; isLoading := isLoading s;
     isRefreshing := isRefreshing s; isLoadingMore := v;
     totalCount := totalCount s; hasMore := hasMore s |}.

Definition setTotalCount (v : Z) (s : ListState) : ListState :=
  {| audiobooks := audiobooks s; isLoading := isLoading s;
     isRefreshing := isRefreshing s; isLoadingMore := isLoadingMore s;
     totalCount := v; hasMore := hasMore s |}.

Definition setHasMore (v : bool) (s : ListState) : ListState :=
  {| audiobooks := audiobooks s; isLoading := isLoading s;
     isRefreshing := isRefreshing s; isLoadingMore := isLoadingMore s;
     totalCount := totalCount s; hasMore := v |}.

(** The initial values of the [useState] calls. *)
Definition initial : ListState :=
  {| audiobooks := []; isLoading := true; isRefreshing := false;
     isLoadingMore := false; totalCount := 0; hasMore := true |}.

(** [s.replace(pattern, replacement)] with a string for pattern: the
    first occurrence is replaced. *)
Fixpoint replaceFirst (pattern replacement s : string) : string :=
  if String.prefix pattern s
  then replacement +:+ String.substring (String.length pattern)
                         (String.length s - String.length pattern) s
  else match s with
       | EmptyString => EmptyString
       | String c s' => String c (replaceFirst pattern replacement s')
       end.

(** [s.replace(/\/$/, '')] *)
Fixpoint stripTrailingSlash (s : string) : string :=
  match s with
  | EmptyString => EmptyString
  | String c s' =>
      if String.eqb s "/" then EmptyString
      else String c (stripTrailingSlash s')
  end.

(** Lines 32-34, as a function of [Paths.cache.uri]. *)
Definition dbPathOf (cacheUri : string) : string :=
  let cachePath := replaceFirst "file://" "" cacheUri in
  stripTrailingSlash cachePath +:+ "/audible.db".

Section Loading.
(** [Paths.cache.uri] and the two synchronous functions of the bridge,
    each of which returns or throws. *)
Context (cacheUri : string)
        (initializeDatabase : string → Thrown + unit)
        (getBooks : string → nat → nat → Thrown + BooksResponse).

(** The callbacks of one render.  [rendered] is the state that render
    was made from: the values of [audiobooks], [isLoading],
    [isLoadingMore] and [hasMore] that the closures of [loadBooks] and
    [handleLoadMore] hold.  [loadBooks] awaits nothing, it runs to its end
    in the turn that calls it; the setters it calls queue updates, and the
    function is given as the change these updates make to the state at
    hand [s], which earlier updates of the same batch may have moved on
    from [rendered].  Of the updates only
    [setAudiobooks(prev => [...prev, ...response.books])] reads the state
    at hand; the offset of the request and the new [hasMore] are computed
    from the closure. *)
Definition loadBooks (rendered : ListState) (reset : bool) (s : ListState)
  : ListState :=
  let dbPath := dbPathOf cacheUri in
  let tried :=
    (* Initialize database first *)
    match initializeDatabase dbPath with
    | inl dbError => setHasMore false (setTotalCount 0 (setAudiobooks [] s))
    | inr _ =>
        let offset := if reset then 0%nat else length (audiobooks rendered) in
        let limit := 100%nat in
        match getBooks dbPath offset limit with
        | inr response =>
            let s' := if reset then setAudiobooks (books response) s
                      else setAudiobooks (audiobooks s ++ books response) s in
            setHasMore
              (bool_decide (Z.of_nat offset + Z.of_nat (length (books response))
                            < total_count response))
              (setTotalCount (total_count response) s')
        | inl error =>
            setHasMore false
              (if reset then setTotalCount 0 (setAudiobooks [] s) else s)
        end
    end in
  (* finally *)
  setIsLoadingMore false (setIsRefreshing false (setIsLoading false tried)).

Definition handleRefresh (rendered : ListState) (s : ListState) : ListState :=
  loadBooks rendered true (setHasMore true (setIsRefreshing true s)).

(** The guard reads the flags of the render. *)
Definition handleLoadMore (rendered : ListState) (s : ListState) : ListState :=
  if negb (isLoadingMore rendered) && negb (isLoading rendered) && hasMore rendered
  then loadBooks rendered false (setIsLoadingMore true s)
  else s.

(** A request for more made from the render of the state at hand: the
    list was rendered anew since the last update. *)
Definition loadMoreRendered (s : ListState) : ListState := handleLoadMore s s.

End Loading.

(** [Math.floor(seconds / 3600)] and [Math.floor((seconds % 3600) / 60)]
    on whole seconds; [%] takes the sign of the dividend.  The code
    divides doubles: the model is of whole seconds up to
    [Number.MAX_SAFE_INTEGER], where [seconds] is held exactly, [%] is
    exact, and the rounded quotient has the floor of the exact one (the
    quotient is below [2^42], so that rounding moves it by at most
    [2^-12], less than the [1/3600] by which a quotient that is no whole
    number stays away from the next one). *)
Definition MAX_SAFE_INTEGER : Z := 9007199254740991.

Definition formatDuration (seconds : Z) : string :=
  let hours := seconds `div` 3600 in
  let minutes := (seconds `rem` 3600) `div` 60 in
  pretty hours +:+ "h " +:+ pretty minutes +:+ "m".

Import Stdlib.Strings.Ascii.

(** [\d] *)
Definition isDigit (c : ascii) : bool :=
  match c with
  | "0" | "1" | "2" | "3" | "4" | "5" | "6" | "7" | "8" | "9" => true
  | _ => false
  end%char.

(** How far a match of [/_SL\d+_/] has come. *)
Inductive Stage := AfterUnderscore | AfterS | AfterL | AfterDigit.

(** The text after the match, for a match that has come to [stage] and
    goes on at the start of [s]. *)
Fixpoint matchFrom (stage : Stage) (s : string) : option string :=
  match s with
  | EmptyString => None
  | String c s' =>
      match stage with
      | AfterUnderscore => if Ascii.eqb c "S" then matchFrom AfterS s' else None
      | AfterS => if Ascii.eqb c "L" then matchFrom AfterL s' else None
      | AfterL => if isDigit c then matchFrom AfterDigit s' else None
      | AfterDigit =>
          if isDigit c then matchFrom AfterDigit s'
          else if Ascii.eqb c "_" then Some s' else None
      end
  end.

(** The text after a match that begins at the start of [s]. *)
Definition matchHere (s : string) : option string :=
  match s with
  | EmptyString => None
  | String c s' => if Ascii.eqb c "_" then matchFrom AfterUnderscore s' else None
  end.

(** [url.replace(/_SL\d+_/, '_SL150_')]: the leftmost match is
    replaced. *)
Fixpoint replaceSize (s : string) : string :=
  match matchHere s with
  | Some rest => "_SL150_" +:+ rest
  | None =>
      match s with
      | EmptyString => EmptyString
      | String c s' => String c (replaceSize s')
      end
  end.

(** [getCoverUrl(book)], as a function of [book.cover_url]. *)
Definition getCoverUrl (cover_url : option string) : option string :=
  if negb (truthy cover_url) then None
  else Some (replaceSize (default "" cover_url)).

(** Data for examples: a database holding [library] that answers every
    request for a page, and one that cannot be read. *)
Definition pagesOf (library : list Book) (path : string) (offset limit : nat)
  : Thrown + BooksResponse :=
  inr {| books := take limit (drop offset library);
         total_count := Z.of_nat (length library) |}.

Definition lockedDatabase (path : string) (offset limit : nat)
  : Thrown + BooksResponse :=
  inl (ErrorObject (Some "database is locked")).

Definition exampleCacheUri : string := "file:///data/user/0/librisync/cache/".

(** A library of 250 books, each with a number of its own, and the list
    after its first page was loaded on mount. *)
Definition numbered (n : nat) : Book :=
  {| audible_product_id := "B" +:+ pretty n;
     title := "Book " +:+ pretty n;
     file_path := None |}.

Definition exampleLibrary : list Book := numbered <$> seq 0 250.

Definition firstPage : ListState :=
  loadBooks exampleCacheUri (λ _, inr tt) (pagesOf exampleLibrary) initial true
    initial.

End Listing.

End LibraryScreen.

(** ** useAuthentication.ts *)

Module UseAuthentication.
Import Js.

Record TokenResponse := {
  access_token : string;
  refresh_token : string;
  expires_in : option Z;          (* a number; [None] is [NaN] *)
  token_type : string
}.

Record AuthState := {
  isAuthenticated : bool;
  isLoading : bool;
  error : option Thrown;
  tokens : option TokenResponse;
  localeCode : option string
}.

Module STORAGE_KEYS.
Definition ACCESS_TOKEN := "audible_access_token".
Definition REFRESH_TOKEN := "audible_refresh_token".
Definition TOKEN_EXPIRES_AT := "audible_token_expires_at".
Definition DEVICE_SERIAL := "audible_device_serial".
Definition LOCALE_CODE := "audible_locale_code".
End STORAGE_KEYS.
Import STORAGE_KEYS.

(** What [ExpoRustBridge.refreshAccessToken] resolves to, as far as the
    hook reads it. *)
Record TokenData := {
  data_access_token : string;
  data_refresh_token : option string;
  data_expires_in : option Z;
  data_token_type : option string
}.
Record BridgeResult := {
  success : bool;
  data : option TokenData;
  bridge_error : option string
}.

Inductive Op :=
| GetItemAsync (key : string)
| SetItemAsync (key value : string)
| DeleteItemAsync (key : string)
| BridgeRefreshAccessToken (localeCode refreshToken deviceSerial : string).

Inductive Ans :=
| AItem (v : option string)
| AVoid
| ABridge (r : BridgeResult)
| ARejected (e : Thrown).

(** The one synchronous effect: [setState] with an updater. *)
Inductive Eff := SetState (f : AuthState → AuthState).

Abbreviation Prog R := (Async Op Ans Eff R).

Definition typeError : Thrown := ErrorObject (Some "TypeError").

Definition getItemAsync {R} (key : string) : Prog R (option string) :=
  Await (GetItemAsync key) (λ a,
    match a with
    | AItem v => Ret v
    | ARejected e => Throw e
    | _ => Throw typeError
    end).

Definition setItemAsync {R} (key value : string) : Prog R unit :=
  Await (SetItemAsync key value) (λ a,
    match a with
    | AVoid => Ret tt
    | ARejected e => Throw e
    | _ => Throw typeError
    end).

Definition bridgeRefreshAccessToken {R} (localeCode refreshToken deviceSerial : string)
  : Prog R BridgeResult :=
  Await (BridgeRefreshAccessToken localeCode refreshToken deviceSerial) (λ a,
    match a with
    | ABridge r => Ret r
    | ARejected e => Throw e
    | _ => Throw typeError
    end).

Definition setState {R} (f : AuthState → AuthState) : Prog R unit :=
  Perform (SetState f) (Ret tt).

(** The promises of an array literal: each operation is issued when the
    array is built, in its order, whatever becomes of the others. *)
Fixpoint issueAll {R} (ops : list Op) : Prog R (list Ans) :=
  match ops with
  | [] => Ret []
  | op :: ops => Await op (λ a, settled ← issueAll ops; Ret (a :: settled))
  end.

Fixpoint firstRejection (settled : list Ans) : option Thrown :=
  match settled with
  | [] => None
  | ARejected e :: _ => Some e
  | _ :: settled => firstRejection settled
  end.

(** [await Promise.all([...])]: the values when every promise is
    fulfilled; otherwise the reason of a rejected one is thrown, with
    every operation of the array issued all the same.  The reason is that
    of the promise rejected first, which is the first of the array where
    promises settle in the order they were issued. *)
Definition promiseAll {R} (ops : list Op) : Prog R (list Ans) :=
  settled ← issueAll ops;
  match firstRejection settled with
  | Some e => Throw e
  | None => Ret settled
  end.

(** [{ ...prev, isLoading }] and [{ ...prev, isLoading, error }] *)
Definition withLoading (l : bool) (prev : AuthState) : AuthState :=
  {| isAuthenticated := isAuthenticated prev; isLoading := l;
     error := error prev; tokens := tokens prev; localeCode := localeCode prev |}.

Definition withError (l : bool) (e : Thrown) (prev : AuthState) : AuthState :=
  {| isAuthenticated := isAuthenticated prev; isLoading := l;
     error := Some e; tokens := tokens prev; localeCode := localeCode prev |}.

Definition signedOut (e : option Thrown) : AuthState :=
  {| isAuthenticated := false; isLoading := false; error := e;
     tokens := None; localeCode := None |}.

Section Hook.
(** [new Date(text).getTime()] ([None] for an invalid date),
    [new Date(ms).toISOString()] ([None] where it throws a [RangeError]),
    and the [RangeError] it then throws, whose message is the engine's. *)
Context (Date_getTime : string → option Z) (toISOString : Z → option string)
        (rangeError : Thrown).

Definition handleOAuthSuccess (tokenResponse : TokenResponse) (locale : string)
    (deviceSerial : option string) : Prog unit unit :=
  tryCatch
    ((* Store tokens securely *)
     setItemAsync ACCESS_TOKEN (access_token tokenResponse);;
     setItemAsync REFRESH_TOKEN (refresh_token tokenResponse);;
     Clock (λ now,
       match expires_in tokenResponse ≫= (λ s, toISOString (now + s * 1000)) with
       | Some expiresAt => setItemAsync TOKEN_EXPIRES_AT expiresAt
       | None => Throw rangeError
       end);;
     setItemAsync LOCALE_CODE locale;;
     (if truthy deviceSerial
      then setItemAsync DEVICE_SERIAL (default "" deviceSerial)
      else Ret tt);;
     setState (λ _, {| isAuthenticated := true; isLoading := false; error := None;
                       tokens := Some tokenResponse; localeCode := Some locale |}))
    (λ e, setState (withError false e)).

Definition logout : Prog unit unit :=
  tryCatch
    ((* Clear all stored authentication data *)
     promiseAll [DeleteItemAsync ACCESS_TOKEN;
                 DeleteItemAsync REFRESH_TOKEN;
                 DeleteItemAsync TOKEN_EXPIRES_AT;
                 DeleteItemAsync DEVICE_SERIAL;
                 DeleteItemAsync LOCALE_CODE];;
     setState (λ _, signedOut None))
    (λ e, setState (λ prev,
       {| isAuthenticated := isAuthenticated prev; isLoading := isLoading prev;
          error := Some e; tokens := tokens prev; localeCode := localeCode prev |})).

Definition refreshAccessToken : Prog bool bool :=
  tryCatch
    (setState (withLoading true);;
     refreshTokenValue ← getItemAsync REFRESH_TOKEN;
     locale ← getItemAsync LOCALE_CODE;
     deviceSerial ← getItemAsync DEVICE_SERIAL;
     if negb (truthy refreshTokenValue) || negb (truthy locale)
        || negb (truthy deviceSerial)
     then Throw (ErrorObject
                   (Some "Missing refresh token, locale code, or device serial"))
     else
       let refreshTokenValue := default "" refreshTokenValue in
       let locale := default "" locale in
       (* Call Rust bridge to refresh token *)
       result ← bridgeRefreshAccessToken locale refreshTokenValue
                  (default "" deviceSerial);
       match success result, data result with
       | true, Some d =>
           (* Update token storage with new tokens *)
           let tokenResponse :=
             {| access_token := data_access_token d;
                refresh_token := orElse (data_refresh_token d) refreshTokenValue;
                expires_in := data_expires_in d;
                token_type := orElse (data_token_type d) "Bearer" |} in
           call (handleOAuthSuccess tokenResponse locale None);;
           ReturnV true
       | _, _ =>
           Throw (ErrorObject
                    (Some (orElse (bridge_error result) "Failed to refresh token")))
       end)
    (λ e, setState (withError false e);; ReturnV false).

(** [expiresDate < limit] on dates; false without a date and for an
    invalid one. *)
Definition before (expiresDate : option (option Z)) (limit : Z) : bool :=
  match expiresDate with
  | Some (Some t) => bool_decide (t < limit)
  | _ => false
  end.

(** The values [getItemAsync] resolves to. *)
Definition items (settled : list Ans) : option (list (option string)) :=
  mapM (λ a, match a with AItem v => Some v | _ => None end) settled.

Definition checkAuthentication : Prog bool bool :=
  tryCatch
    (setState (withLoading true);;
     settled ← promiseAll [GetItemAsync ACCESS_TOKEN;
                           GetItemAsync REFRESH_TOKEN;
                           GetItemAsync TOKEN_EXPIRES_AT;
                           GetItemAsync LOCALE_CODE];
     match items settled with
     | Some [accessToken; refreshToken; expiresAt; locale] =>
     if negb (truthy accessToken) || negb (truthy refreshToken) then
       setState (λ _, signedOut None);;
       ReturnV false
     else
       (* Check if token is expired or expiring soon (within 5 minutes) *)
       let expiresDate :=
         if truthy expiresAt then Some (Date_getTime (default "" expiresAt))
         else None in
       Clock (λ now,
         let fiveMinutesFromNow := now + 5 * 60 * 1000 in
         let isExpired := before expiresDate now in
         let isExpiringSoon := before expiresDate fiveMinutesFromNow in
         if isExpired || isExpiringSoon then
           refreshSuccess ← call refreshAccessToken;
           if negb refreshSuccess then
             call logout;;
             ReturnV false
           else ReturnV true
         else
           (* Token is valid *)
           Clock (λ now',
             setState (λ _,
               {| isAuthenticated := true;
                  isLoading := false;
                  error := None;
                  tokens := Some
                    {| access_token := default "" accessToken;
                       refresh_token := default "" refreshToken;
                       expires_in :=
                         if truthy expiresAt
                         then (λ t, (t - now') `div` 1000)
                                <$> Date_getTime (default "" expiresAt)
                         else Some 3600;
                       token_type := "Bearer" |};
                  localeCode := locale |});;
             ReturnV true))
     | _ => Throw typeError
     end)
    (λ e, setState (λ _, signedOut (Some e));; ReturnV false).

End Hook.

(** *** The hook at run time, one call at a time *)

(** The component state, the secure store, the promises issued so far, and
    how the bridge answers a refresh. *)
Record World := {
  state : AuthState;
  secureStore : gmap string string;
  issued : list Op;
  bridge : string → string → string → Ans
}.

Definition perform (e : Eff) (w : World) : World :=
  match e with
  | SetState f =>
      {| state := f (state w); secureStore := secureStore w;
         issued := issued w; bridge := bridge w |}
  end.

Definition answer (op : Op) (w : World) : Ans * World :=
  let log store :=
    {| state := state w; secureStore := store;
       issued := (issued w ++ [op])%list; bridge := bridge w |} in
  match op with
  | GetItemAsync key => (AItem (secureStore w !! key), log (secureStore w))
  | SetItemAsync key value => (AVoid, log (<[key := value]> (secureStore w)))
  | DeleteItemAsync key => (AVoid, log (delete key (secureStore w)))
  | BridgeRefreshAccessToken l r d => (bridge w l r d, log (secureStore w))
  end.

Definition mounted : AuthState :=
  {| isAuthenticated := false; isLoading := true; error := None;
     tokens := None; localeCode := None |}.

(** Data for examples: tokens in the store, no expiry entry. *)
Definition exampleWorld : World :=
  {| state := mounted;
     secureStore := {[ACCESS_TOKEN := "Atna|token"; REFRESH_TOKEN := "Atnr|token";
                      LOCALE_CODE := "us"]};
     issued := [];
     bridge _ _ _ := ARejected (ErrorObject (Some "offline")) |}.

(** The same with an expiry in the past, a device serial, and a bridge
    that grants the refresh. *)
Definition expiredWorld : World :=
  {| state := mounted;
     secureStore := <[TOKEN_EXPIRES_AT := "2025-10-09T00:00:00.000Z"]>
                      (<[DEVICE_SERIAL := "0123"]> (secureStore exampleWorld));
     issued := [];
     bridge _ _ _ :=
       ABridge {| success := true;
                  data := Some {| data_access_token := "Atna|new";
                                  data_refresh_token := None;
                                  data_expires_in := Some 3600;
                                  data_token_type := None |};
                  bridge_error := None |} |}.

Section Expiry.
Context (Date_getTime : string → option Z).

(** A [Date | null]; [Some None] is an invalid date. *)
Definition getTokenExpiryDate : Prog (option (option Z)) (option (option Z)) :=
  tryCatch
    (expiresAt ← getItemAsync TOKEN_EXPIRES_AT;
     ReturnV (if truthy expiresAt then Some (Date_getTime (default "" expiresAt))
              else None))
    (λ _, ReturnV None).

(** A [number | null]; [Some None] is [NaN], which [Math.floor] and
    [Math.max] pass on. *)
Definition getTimeUntilExpiry : Prog (option (option Z)) (option (option Z)) :=
  tryCatch
    (expiryDate ← call getTokenExpiryDate;
     match expiryDate : option (option Z) with
     | None => ReturnV None
     | Some date =>
         Clock (λ now,
           let secondsRemaining := (λ t, (t - now) `div` 1000) <$> date in
           ReturnV (Some (Z.max 0 <$> secondsRemaining)))
     end)
    (λ _, ReturnV None).

End Expiry.

(** The four reads [checkAuthentication] begins with. *)
Definition checkReads : list Op :=
  [GetItemAsync ACCESS_TOKEN; GetItemAsync REFRESH_TOKEN;
   GetItemAsync TOKEN_EXPIRES_AT; GetItemAsync LOCALE_CODE].

(** The five entries [logout] deletes. *)
Definition sessionKeys : list string :=
  [ACCESS_TOKEN; REFRESH_TOKEN; TOKEN_EXPIRES_AT; DEVICE_SERIAL; LOCALE_CODE].

Definition isBridgeCall (op : Op) : bool :=
  match op with
  | BridgeRefreshAccessToken _ _ _ => true
  | _ => false
  end.

(** An answer of the bridge that [refreshAccessToken] takes for a failed
    refresh: a rejection, or a result without [success] or [data]. *)
Definition refused (a : Ans) : Prop :=
  match a with
  | ABridge r => success r = false ∨ data r = None
  | _ => True
  end.

(** The store once [handleOAuthSuccess] has written a session to it. *)
Definition signedIn (tk : TokenResponse) (expiresAt locale : string)
    (deviceSerial : option string) (store : gmap string string)
  : gmap string string :=
  let store' := <[LOCALE_CODE := locale]> (<[TOKEN_EXPIRES_AT := expiresAt]>
                  (<[REFRESH_TOKEN := refresh_token tk]>
                     (<[ACCESS_TOKEN := access_token tk]> store))) in
  if truthy deviceSerial then <[DEVICE_SERIAL := default "" deviceSerial]> store'
  else store'.

(** Further data for examples: nobody has signed in, *)
Definition signedOutWorld : World :=
  {| state := mounted;
     secureStore := ∅;
     issued := [];
     bridge _ _ _ := ARejected (ErrorObject (Some "offline")) |}.

(** the token has expired and the bridge cannot refresh it, *)
Definition offlineWorld : World :=
  {| state := mounted;
     secureStore := secureStore expiredWorld;
     issued := [];
     bridge _ _ _ := ARejected (ErrorObject (Some "offline")) |}.

(** and the tokens a sign-in delivers. *)
Definition exampleTokens : TokenResponse :=
  {| access_token := "Atna|new"; refresh_token := "Atnr|new";
     expires_in := Some 3600; token_type := "bearer" |}.

(** The [RangeError] of [toISOString] as V8 words it. *)
Definition exampleRangeError : Thrown := ErrorObject (Some "Invalid time value").

(** The dates of the examples: [new Date(text).getTime()] and
    [new Date(ms).toISOString()] where the examples use them. *)
Definition exampleDates (text : string) : option Z :=
  if String.eqb text "2025-10-09T00:00:00.000Z" then Some 1759968000000
  else if String.eqb text "2025-10-09T09:53:20.000Z" then Some 1760003600000
  else None.

Definition exampleISO (ms : Z) : option string :=
  if bool_decide (ms = 1759968000000) then Some "2025-10-09T00:00:00.000Z"
  else if bool_decide (ms = 1760003600000) then Some "2025-10-09T09:53:20.000Z"
  else None.

(** A clock that shows [start] at its first reading and a millisecond
    more at each reading after it. *)
Definition exampleClock (start : Z) (reading : nat) : Z := start + Z.of_nat reading.

(** The expired session with a bridge whose result carries no
    [expires_in]. *)
Definition undatedWorld : World :=
  {| state := mounted;
     secureStore := secureStore expiredWorld;
     issued := [];
     bridge _ _ _ :=
       ABridge {| success := true;
                  data := Some {| data_access_token := "Atna|new";
                                  data_refresh_token := None;
                                  data_expires_in := None;
                                  data_token_type := None |};
                  bridge_error := None |} |}.

(** A session that ends at 09:53:20 on that day. *)
Definition validWorld : World :=
  {| state := mounted;
     secureStore := <[TOKEN_EXPIRES_AT := "2025-10-09T09:53:20.000Z"]>
                      (<[DEVICE_SERIAL := "0123"]> (secureStore exampleWorld));
     issued := [];
     bridge _ _ _ := ARejected (ErrorObject (Some "offline")) |}.

End UseAuthentication.

(** ** The download core

    The Rust sources of the core ([api/license.rs], [download/stream.rs],
    [download/progress.rs]) are not among the files of this development;
    the three components below follow the design document. *)

Module Core.
Local Open Scope N_scope.

Module LicenseDecryptor.

Inductive DrmKind := TypeA | TypeB.

Record LicenseVoucher := {
  drm_kind : DrmKind;
  key_material : list Byte.byte;
  content_url : string
}.

Inductive LicenseError := DecryptionError | MalformedVoucherError.

(** The decrypted voucher as structured data: a hex-encoded key, a
    hex-encoded IV when there is one, and the content URL. *)
Record Payload := {
  key : string;
  iv : option string;
  offline_url : string
}.

Definition hex_digit (c : Ascii.ascii) : option N :=
  let n := Ascii.N_of_ascii c in
  if (48 <=? n) && (n <=? 57) then Some (n - 48)
  else if (97 <=? n) && (n <=? 102) then Some (n - 87)
  else if (65 <=? n) && (n <=? 70) then Some (n - 55)
  else None.

Fixpoint hex_decode (s : string) : option (list Byte.byte) :=
  match s with
  | EmptyString => Some []
  | String h (String l rest) =>
      hi ← hex_digit h;
      lo ← hex_digit l;
      b ← Byte.of_N (16 * hi + lo);
      bs ← hex_decode rest;
      Some (b :: bs)
  | String _ EmptyString => None
  end.

(** Modelled from the spec: [parse_key_material] of the LicenseDecryptor
    (section 4.2; the function itself lives in the absent [api/license.rs]).
    It extracts the hex-encoded key and, if present, IV, and classifies by
    field lengths: a 4-byte key alone is TypeA, a 16-byte key with a
    16-byte IV is TypeB, anything else is a [MalformedVoucherError]. *)
Definition parse_key_material (p : Payload) : LicenseError + LicenseVoucher :=
  match hex_decode (key p), hex_decode <$> iv p with
  | Some k, None =>
      if decide (length k = 4%nat)
      then inr {| drm_kind := TypeA; key_material := k;
                  content_url := offline_url p |}
      else inl MalformedVoucherError
  | Some k, Some (Some v) =>
      if decide (length k = 16%nat ∧ length v = 16%nat)
      then inr {| drm_kind := TypeB; key_material := k ++ v;
                  content_url := offline_url p |}
      else inl MalformedVoucherError
  | _, _ => inl MalformedVoucherError
  end.

(** The file-format detection as the quick-start guide of the core gives
    it: [(4, None) => AAX], [(16, Some(16)) => AAXC], [_ => Unknown]. *)
Inductive FileType := AAX | AAXC | Unknown.

Definition file_type (key_len : nat) (iv_len : option nat) : FileType :=
  match key_len, iv_len with
  | 4%nat, None => AAX
  | 16%nat, Some 16%nat => AAXC
  | _, _ => Unknown
  end.

(** The byte lengths of the two fields; [None] for a field that is no hex
    string. *)
Definition key_bytes (p : Payload) : option nat := length <$> hex_decode (key p).
Definition iv_bytes (p : Payload) : option (option nat) :=
  (λ v, length <$> hex_decode v) <$> iv p.

End LicenseDecryptor.

Module ResumableStream.

Record DownloadState := {
  source_url : string;
  bytes_written : N;
  total_bytes : option N;
  request_headers : list (string * string);
  last_updated : Z
}.

Definition set_bytes_written (n : N) (st : DownloadState) : DownloadState :=
  {| source_url := source_url st; bytes_written := n;
     total_bytes := total_bytes st; request_headers := request_headers st;
     last_updated := last_updated st |}.



(** Modelled from the spec: the request [start] issues when a persisted
    state exists (section 4.3): the saved headers and
    [Range: bytes={bytes_written}-]. *)
Definition resume_request (st : DownloadState) : list (string * string) :=
  request_headers st ++ [("Range", "bytes=" +:+ pretty (bytes_written st) +:+ "-")].



(** A transfer in progress: the destination file with its durable length,
    the persisted state file, and in memory the last flushed offset and
    the write position. *)
Record Transfer := {
  file_length : N;
  persisted : DownloadState;
  flushed : N;
  position : N
}.

(** Modelled from the spec: loading the persisted state (section 3).  The
    file must be at least [bytes_written] long; if not the state is corrupt
    and the transfer restarts from zero. *)
Definition load (len : N) (st : DownloadState) : Transfer :=
  if len <? bytes_written st then
    {| file_length := len; persisted := set_bytes_written 0 st;
       flushed := 0; position := 0 |}
  else
    {| file_length := len; persisted := st;
       flushed := bytes_written st; position := bytes_written st |}.

(** What happens to a transfer: a chunk is appended, the file handle is
    flushed (or the flush fails), the state is persisted, the process is
    interrupted with [survived] of the unflushed bytes on disk and started
    again, or the server ignores the range. *)
Inductive Action :=
| Append (chunk : N)
| Flush (ok : bool)
| Persist
| Interrupt (survived : N)
| RangeIgnored.

(** Modelled from the spec: the chunked transfer of section 4.3.  Chunks
    are appended at the write position; a successful flush makes them
    durable; [bytes_written] is only ever set to the last flushed offset. *)
Definition act (a : Action) (t : Transfer) : Transfer :=
  match a with
  | Append chunk =>
      {| file_length := file_length t; persisted := persisted t;
         flushed := flushed t; position := position t + chunk |}
  | Flush true =>
      {| file_length := N.max (file_length t) (position t);
         persisted := persisted t;
         flushed := position t; position := position t |}
  | Flush false => t
  | Persist =>
      {| file_length := file_length t;
         persisted := set_bytes_written (flushed t) (persisted t);
         flushed := flushed t; position := position t |}
  | Interrupt survived =>
      load (N.max (file_length t) (N.min (position t) (flushed t + survived)))
           (persisted t)
  | RangeIgnored =>
      {| file_length := file_length t;
         persisted := set_bytes_written 0 (persisted t);
         flushed := 0; position := 0 |}
  end.

Definition transfer (acts : list Action) (t : Transfer) : Transfer :=
  foldl (λ t a, act a t) t acts.

(** The resume point is durable: persisted, flushed, on disk, in order. *)
Definition durable (t : Transfer) : Prop :=
  bytes_written (persisted t) ≤ flushed t
  ∧ flushed t ≤ file_length t
  ∧ flushed t ≤ position t.

(** Data for examples: the state of the resume test, 30% into the file. *)
Definition savedState : DownloadState :=
  {| source_url := "https://dze5l2jxnquy5.cloudfront.net/book.aax";
     bytes_written := 47293814;
     total_bytes := Some 157642003;
     request_headers := [("User-Agent", "Audible/671 CFNetwork/1240.0.4 Darwin/20.6.0")];
     last_updated := 1760000000000%Z |}.

End ResumableStream.

Module ProgressTracker.

Record ProgressSnapshot := {
  bytes_done : N;
  bytes_total : N;
  instantaneous_rate : N;
  smoothed_rate : N;
  eta : option N
}.

(** Rates are in bytes per second, times in milliseconds. *)
Record Tracker := {
  done : N;
  total : N;
  samples : list N;        (* the last rate samples, newest first *)
  window_start : N;
  window_bytes : N;
  last_emit : option N
}.

Definition SAMPLES : nat := 10.
Definition WINDOW : N := 1000.
Definition INTERVAL : N := 200.

Definition moving_average (l : list N) : N :=
  match l with
  | [] => 0
  | _ => foldr N.add 0 l / N.of_nat (length l)
  end.

(** Modelled from the spec: [record] of the ProgressTracker (section 4.1;
    [download/progress.rs] is absent).  It accumulates the bytes and, once
    a time window has passed, keeps its rate among the last samples. *)
Definition record (bytes_delta now : N) (t : Tracker) : Tracker :=
  let window_bytes' := window_bytes t + bytes_delta in
  if WINDOW <=? now - window_start t then
    {| done := done t + bytes_delta; total := total t;
       samples := take SAMPLES
                    (window_bytes' * 1000 / (now - window_start t) :: samples t);
       window_start := now; window_bytes := 0; last_emit := last_emit t |}
  else
    {| done := done t + bytes_delta; total := total t;
       samples := samples t;
       window_start := window_start t; window_bytes := window_bytes';
       last_emit := last_emit t |}.

(** Modelled from the spec: [should_emit], true at most once per interval,
    bypassed at the start and at the end. *)
Definition should_emit (now : N) (t : Tracker) : bool :=
  (done t =? 0) || (total t <=? done t)
  || match last_emit t with
     | Some last => INTERVAL <=? now - last
     | None => true
     end.

(** Modelled from the spec: [snapshot]. *)
Definition snapshot (t : Tracker) : ProgressSnapshot :=
  let smoothed := moving_average (samples t) in
  {| bytes_done := done t;
     bytes_total := total t;
     instantaneous_rate := hd 0 (samples t);
     smoothed_rate := smoothed;
     eta := if smoothed =? 0 then None else Some ((total t - done t) / smoothed) |}.

Definition percent (s : ProgressSnapshot) : N :=
  if bytes_total s =? 0 then 0
  else N.min 100 (bytes_done s * 100 / bytes_total s).

Definition emitted (now : N) (t : Tracker) : Tracker :=
  {| done := done t; total := total t; samples := samples t;
     window_start := window_start t; window_bytes := window_bytes t;
     last_emit := Some now |}.

(** One report of the task to its tracker: the bytes of a chunk at a time;
    the snapshot goes to the subscribers when [should_emit] says so. *)
Definition report (r : N * N) (acc : Tracker * list ProgressSnapshot)
  : Tracker * list ProgressSnapshot :=
  let '(bytes_delta, now) := r in
  let '(t, out) := acc in
  let t' := record bytes_delta now t in
  if should_emit now t' then (emitted now t', out ++ [snapshot t'])
  else (t', out).

(** The emissions of one task over its reports, oldest first. *)
Definition emissions (t : Tracker) (reports : list (N * N)) : list ProgressSnapshot :=
  (foldl (λ acc r, report r acc) (t, []) reports).2.

Definition new (start_offset bytes_total now : N) : Tracker :=
  {| done := start_offset; total := bytes_total; samples := [];
     window_start := now; window_bytes := 0; last_emit := None |}.

(** What has been emitted is in order and not beyond the counter. *)
Definition ordered (acc : Tracker * list ProgressSnapshot) : Prop :=
  StronglySorted N.le (bytes_done <$> acc.2)
  ∧ Forall (λ s, bytes_done s ≤ done acc.1) acc.2.

End ProgressTracker.

End Core.

(** * Part II: properties *)

Module BridgeFacts.
Import Kotlin Bridge.

Lemma mapOf2_success b k v : k ≠ "success" → mapOf2 b k v !! "success" = Some (KBool b).
Proof. intros. unfold mapOf2. by simplify_map_eq. Qed.

Lemma mapOf2_key b k v : mapOf2 b k v !! k = Some v.
Proof. unfold mapOf2. by simplify_map_eq. Qed.

Lemma shape_data v : result_shape (mapOf2 true "data" v).
Proof. left. split; [by apply mapOf2_success | rewrite mapOf2_key; eauto]. Qed.

Lemma shape_error msg : result_shape (mapOf2 false "error" (KString msg)).
Proof. right. split; [by apply mapOf2_success | rewrite mapOf2_key; eauto]. Qed.

(** [parseJsonResponse] answers in the documented shape for every string,
    malformed ones included. *)
Lemma parseJsonResponse_shape lib s : result_shape (parseJsonResponse lib s).
Proof.
  unfold parseJsonResponse.
  destruct (JSONObject_parse lib s) as [e|json]; simpl; [apply shape_error|].
  destruct (getBoolean lib json "success") as [e|[]]; simpl; [apply shape_error| |].
  - destruct (get lib json "data"); simpl; [apply shape_error | apply shape_data].
  - destruct (getString lib json "error"); simpl; apply shape_error.
Qed.

Lemma callNative_returns lib (native : Natives) m params s :
  native m (JSONObject_toString lib params) = Returns s →
  callNative lib native m params = Returns (parseJsonResponse lib s).
Proof. unfold callNative. by intros ->. Qed.

Lemma callNative_throws lib (native : Natives) m params t :
  native m (JSONObject_toString lib params) = Throws t →
  callNative lib native m params = Throws t.
Proof. unfold callNative. by intros ->. Qed.

(** A function without a catch block answers in the documented shape when
    its native call returns. *)
Lemma unguarded_shape lib (native : Natives) m params :
  (∃ s, native m (JSONObject_toString lib params) = Returns s) →
  ∃ r, callNative lib native m params = Returns r ∧ result_shape r.
Proof.
  intros [s Hs]. rewrite (callNative_returns _ _ _ _ _ Hs).
  eauto using parseJsonResponse_shape.
Qed.

(** A function with a catch block also turns an [Exception] of its native
    call into the error shape, tagged with the function's own prefix. *)
Lemma guarded_shape lib (native : Natives) m params tag :
  (∀ msg, native m (JSONObject_toString lib params) ≠ Throws (JavaError msg)) →
  ∃ r, tryCatch (callNative lib native m params) (errorMap tag) = Returns r
       ∧ result_shape r.
Proof.
  intros Hne.
  destruct (native m (JSONObject_toString lib params)) as [s|[msg|msg]] eqn:Hn.
  - rewrite (callNative_returns _ _ _ _ _ Hn). simpl.
    eauto using parseJsonResponse_shape.
  - rewrite (callNative_throws _ _ _ _ _ Hn). simpl.
    eexists; split; [reflexivity | apply shape_error].
  - by destruct (Hne msg).
Qed.

Lemma guarded_tagged lib (native : Natives) m params tag msg :
  native m (JSONObject_toString lib params) = Throws (JavaException msg) →
  tryCatch (callNative lib native m params) (errorMap tag)
  = Returns (mapOf2 false "error" (KString (tag +:+ template msg))).
Proof. intros Hn. by rewrite (callNative_throws _ _ _ _ _ Hn). Qed.

Lemma tolerated_returns call (native : Natives) m p :
  hasCatchBlock call = false → tolerated call (native m p) →
  ∃ s, native m p = Returns s.
Proof.
  intros Hc. unfold tolerated. destruct (native m p) as [s|[msg|msg]]; eauto.
  - intros H. congruence.
  - intros [].
Qed.

Lemma tolerated_no_error call (native : Natives) m p msg :
  tolerated call (native m p) → native m p ≠ Throws (JavaError msg).
Proof. intros Ht Hn. rewrite Hn in Ht. exact Ht. Qed.

(** C1 (as amended).  Every exported function other than [testBridge]
    returns a map holding a boolean [success] together with [data] (when
    true) or a string [error] (when false), provided its own native call
    (its native method on the request it builds) returns or throws an
    [Exception] into the function's own catch block: what the call returns
    is read by [parseJsonResponse], malformed JSON included, and an
    [Exception] is reported as the error under the function's own prefix.
    [testBridge] returns its status map, which has no [success] entry. *)
Theorem bridge_result_shape lib (native : Natives) call o :
  ownNativeCall lib native call = Some o →
  tolerated call o →
  ∃ r, invoke lib native call = Returns r
    ∧ result_shape r
    ∧ (∀ s, o = Returns s → r = parseJsonResponse lib s)
    ∧ (∀ msg, o = Throws (JavaException msg) →
         ∃ prefix, catchPrefix call = Some prefix
           ∧ r = mapOf2 false "error" (KString (prefix +:+ template msg)))
    ∧ ∃ status, invoke lib native TestBridge = Returns status
        ∧ dom status = {["bridgeActive"; "rustLoaded"; "version"]}.
Proof.
  intros Ho Ht.
  assert (∃ status, invoke lib native TestBridge = Returns status
            ∧ dom status = {["bridgeActive"; "rustLoaded"; "version"]}) as Hstatus.
  { eexists. split; [reflexivity|].
    rewrite !dom_insert_L, dom_singleton_L. set_solver. }
  destruct call; cbn in Ho; try done; injection Ho as <-; cbn [invoke];
    unfold generateOAuthUrl, parseOAuthCallback, exchangeAuthCode,
      refreshAccessToken, getActivationBytes, initDatabase, syncLibrary,
      syncLibraryPage, getBooks, searchBooks, downloadBook, decryptAAX,
      decryptAAX_params, validateActivationBytes, getSupportedLocales,
      getCustomerInformation, logFromRust, callNative, errorMap;
    cbn [paramsOf] in *;
    destruct (native _ _) as [s|[msg|msg]]; cbn in Ht |- *; try done;
    (eexists; split; [reflexivity|]);
    (split_and!;
     [ first [apply parseJsonResponse_shape | apply shape_error]
     | by intros ? [= <-]
     | intros ? [= <-]; by eauto
     | exact Hstatus ]).
Qed.

Lemma bridge_result_shape_witness :
  ∃ r, invoke exampleJson (onlyDecryptAAX (Throws (JavaException (Some "timeout"))))
         (DecryptAAX "/in.aax" "/out.m4b" "1CEB00DA") = Returns r
    ∧ result_shape r
    ∧ (∀ s, Throws (JavaException (Some "timeout")) = @Returns string s →
         r = parseJsonResponse exampleJson s)
    ∧ (∀ msg, @Throws string (JavaException (Some "timeout"))
              = Throws (JavaException msg) →
         ∃ prefix, catchPrefix (DecryptAAX "/in.aax" "/out.m4b" "1CEB00DA")
                   = Some prefix
           ∧ r = mapOf2 false "error" (KString (prefix +:+ template msg)))
    ∧ ∃ status,
        invoke exampleJson (onlyDecryptAAX (Throws (JavaException (Some "timeout"))))
          TestBridge = Returns status
        ∧ dom status = {["bridgeActive"; "rustLoaded"; "version"]}.
Proof.
  apply (bridge_result_shape exampleJson
           (onlyDecryptAAX (Throws (JavaException (Some "timeout"))))
           (DecryptAAX "/in.aax" "/out.m4b" "1CEB00DA")
           (Throws (JavaException (Some "timeout")))).
  - reflexivity.
  - reflexivity.
Defined.

(** The same call when the native method returns a failure response. *)
Example decryptAAX_failure_response :
  invoke exampleJson (onlyDecryptAAX (Returns "failed"))
    (DecryptAAX "/in.aax" "/out.m4b" "1CEB00DA")
  = Returns (mapOf2 false "error" (KString "Database not found")).
Proof. vm_compute. reflexivity. Qed.

(** The error of an [Exception] is reported under the prefix of the
    function that caught it. *)
Example exception_under_own_prefix :
  invoke exampleJson (λ _ _, Throws (JavaException None))
    (DownloadBook "B07T2F8VJM" "{}" "/out.aax")
  = Returns (mapOf2 false "error" (KString "Download book error: null")).
Proof. reflexivity. Qed.

(** A native [Exception] under a function without catch block leaves the
    module as it came. *)
Lemma unguarded_exception_escapes lib msg l d :
  invoke lib (λ _ _, Throws (JavaException msg)) (GenerateOAuthUrl l d)
  = Throws (JavaException msg).
Proof. reflexivity. Qed.

(** With no [rust_core] library loaded every native call ends in an
    [UnsatisfiedLinkError], which no [catch (e: Exception)] holds back. *)
Lemma link_error_escapes lib msg i o ab :
  invoke lib (λ _ _, Throws (JavaError msg)) (DecryptAAX i o ab)
  = Throws (JavaError msg).
Proof. reflexivity. Qed.

(** C1, counterexample: [testBridge] answers with a status map that has no
    [success] entry, and [generateOAuthUrl], which has no catch block,
    passes an exception of its native call on to the caller. *)
Lemma bridge_calls_out_of_shape :
  (∃ r, invoke (tableJson []) (λ _ _, Returns "{}") TestBridge = Returns r
        ∧ ¬ result_shape r)
  ∧ invoke (tableJson []) (λ _ _, Throws (JavaException (Some "JNI call failed")))
      (GenerateOAuthUrl "us" "0123456789abcdef0123456789abcdef")
    = Throws (JavaException (Some "JNI call failed")).
Proof.
  split; [|reflexivity].
  eexists; split; [reflexivity|].
  intros [[H _]|[H _]]; vm_compute in H; discriminate.
Qed.

Example parseJsonResponse_malformed :
  parseJsonResponse (tableJson []) "{oops"
  = mapOf2 false "error"
      (KString "Failed to parse JSON response: Unterminated object").
Proof. reflexivity. Qed.

Example parseJsonResponse_success :
  parseJsonResponse
    (tableJson [("r", {["success" := JBool true;
                        "data" := JObject {["valid" := JBool true]}]})]) "r"
  = mapOf2 true "data" (KMap {["valid" := KBool true]}).
Proof. vm_compute. reflexivity. Qed.
















Section Responses.
Context (lib : OrgJson).

(** X1.  [parseJsonResponse] reports success exactly when the response
    parses, its [success] is true and it has a [data] entry; the data
    handed on is then [parseJsonValue] of that entry.  A response that
    claims success without data is reported as a failure. *)
Theorem parseJsonResponse_success_iff s :
  parseJsonResponse lib s !! "success" = Some (KBool true)
  ↔ ∃ json data,
      JSONObject_parse lib s = inr json
      ∧ getBoolean lib json "success" = inr true
      ∧ get lib json "data" = inr data
      ∧ parseJsonResponse lib s = mapOf2 true "data" (parseJsonValue data).
Proof.
  unfold parseJsonResponse. split.
  - destruct (JSONObject_parse lib s) as [e|json]; simpl;
      [by rewrite mapOf2_success by done; intros [=]|].
    destruct (getBoolean lib json "success") as [e|[]] eqn:Hs; simpl;
      [by rewrite mapOf2_success by done; intros [=]| |].
    + destruct (get lib json "data") as [e|data] eqn:Hd; simpl;
        [by rewrite mapOf2_success by done; intros [=]|].
      intros _. exists json, data. by split_and!.
    + destruct (getString lib json "error"); simpl;
        by rewrite mapOf2_success by done; intros [=].
  - intros (json & data & -> & Hs & Hd & _). simpl. rewrite Hs. simpl.
    rewrite Hd. simpl. by rewrite mapOf2_success.
Qed.

(** X2.  The error text of a failure response is handed on unchanged,
    and no [data] entry with it. *)
Theorem failure_text_passes_through s json text :
  JSONObject_parse lib s = inr json →
  getBoolean lib json "success" = inr false →
  getString lib json "error" = inr text →
  parseJsonResponse lib s = mapOf2 false "error" (KString text)
  ∧ parseJsonResponse lib s !! "data" = None.
Proof.
  intros Hp Hs He. unfold parseJsonResponse. rewrite Hp. simpl. rewrite Hs. simpl.
  rewrite He. simpl. split; [done|]. unfold mapOf2. by simplify_map_eq.
Qed.

Lemma dom_mapOf2 b k v : dom (mapOf2 b k v) = {[k; "success"]}.
Proof. unfold mapOf2. by rewrite dom_insert_L, dom_singleton_L. Qed.

Lemma parseJsonResponse_dom s :
  dom (parseJsonResponse lib s) = {["data"; "success"]}
  ∨ dom (parseJsonResponse lib s) = {["error"; "success"]}.
Proof.
  unfold parseJsonResponse.
  destruct (JSONObject_parse lib s) as [e|json]; simpl;
    [right; apply dom_mapOf2|].
  destruct (getBoolean lib json "success") as [e|[]]; simpl;
    [right; apply dom_mapOf2| |].
  - destruct (get lib json "data"); simpl;
      [right; apply dom_mapOf2|left; apply dom_mapOf2].
  - destruct (getString lib json "error"); simpl; right; apply dom_mapOf2.
Qed.

(** X3.  What an exported function other than [testBridge] returns has
    two entries: [success] with [data], or [success] with [error], never
    both and nothing else. *)
Theorem result_has_two_entries (native : Natives) call r :
  call ≠ TestBridge →
  invoke lib native call = Returns r →
  dom r = {["data"; "success"]} ∨ dom r = {["error"; "success"]}.
Proof.
  intros Hcall.
  destruct call; cbn [invoke]; try done;
    unfold generateOAuthUrl, parseOAuthCallback, exchangeAuthCode,
      refreshAccessToken, getActivationBytes, initDatabase, syncLibrary,
      syncLibraryPage, getBooks, searchBooks, downloadBook, decryptAAX,
      validateActivationBytes, getSupportedLocales, getCustomerInformation,
      logFromRust, callNative, errorMap;
    destruct (native _ _) as [s|[msg|msg]]; simpl; intros [= <-];
    first [apply parseJsonResponse_dom | right; apply dom_mapOf2].
Qed.

(** X4.  An exported function consults the native layer through its own
    native method only: two native layers that agree on that method give
    the same outcome, and [testBridge] consults none. *)
Theorem one_native_method_per_call (native1 native2 : Natives) call :
  (∀ m s, nativeMethodOf call = Some m → native1 m s = native2 m s) →
  invoke lib native1 call = invoke lib native2 call.
Proof.
  intros H. destruct call; cbn [invoke]; try done;
    unfold generateOAuthUrl, parseOAuthCallback, exchangeAuthCode,
      refreshAccessToken, getActivationBytes, initDatabase, syncLibrary,
      syncLibraryPage, getBooks, searchBooks, downloadBook, decryptAAX,
      validateActivationBytes, getSupportedLocales, getCustomerInformation,
      logFromRust, callNative;
    by rewrite H.
Qed.

End Responses.

Lemma map_fold_max_ge (m : gmap string nat) k d :
  m !! k = Some d → (d ≤ map_fold (λ _ d acc, d `max` acc) 0 m)%nat.
Proof.
  revert d. induction m as [|i x m Hi Hfold IH] using map_first_key_ind; intros d.
  - by rewrite lookup_empty.
  - rewrite map_fold_insert_first_key by done.
    destruct (decide (i = k)) as [->|Hne].
    + rewrite lookup_insert_eq. intros [= ->]. lia.
    + rewrite lookup_insert_ne by done. intros H%IH. lia.
Qed.

Lemma foldr_max_ge (l : list nat) d :
  d ∈ l → (d ≤ foldr Nat.max 0 l)%nat.
Proof.
  induction l as [|x l IH]; [by intros ?%elem_of_nil|].
  intros [->|H%IH]%elem_of_cons; simpl; lia.
Qed.

Lemma toJson_parseJsonValue value : toJson (parseJsonValue value) = value.
Proof.
  remember (depth value) as n eqn:Hn.
  revert value Hn. induction (lt_wf n) as [n _ IH]. intros value Hn.
  destruct value as [| | | |items|fields]; simpl; try done.
  - f_equal. rewrite <- list_fmap_compose.
    rewrite <- (list_fmap_id items) at 2.
    apply Forall_fmap_ext_1, Forall_forall. intros x Hx. simpl.
    eapply (IH (depth x)); [|done]. subst n. simpl.
    assert (depth x ≤ foldr Nat.max 0 (depth <$> items))%nat; [|lia].
    apply foldr_max_ge. by apply list_elem_of_fmap_2.
  - f_equal. rewrite <- map_fmap_compose.
    rewrite <- (map_fmap_id fields) at 2.
    apply map_fmap_ext. intros k x Hx. simpl.
    eapply (IH (depth x)); [|done]. subst n. simpl.
    assert (depth x ≤ map_fold (λ _ d acc, d `max` acc) 0 (depth <$> fields))%nat;
      [|lia].
    apply (map_fold_max_ge _ k). by rewrite lookup_fmap, Hx.
Qed.

(** X5.  [parseJsonValue] keeps values apart: JSON values that differ,
    at whatever depth, are handed to JavaScript as values that differ. *)
Theorem parseJsonValue_injective v1 v2 :
  parseJsonValue v1 = parseJsonValue v2 → v1 = v2.
Proof.
  intros H. rewrite <- (toJson_parseJsonValue v1), <- (toJson_parseJsonValue v2).
  by rewrite H.
Qed.

Lemma failure_text_passes_through_witness :
  parseJsonResponse exampleJson "failed"
  = mapOf2 false "error" (KString "Database not found")
  ∧ parseJsonResponse exampleJson "failed" !! "data" = None.
Proof.
  apply (failure_text_passes_through exampleJson "failed"
           {["success" := JBool false; "error" := JString "Database not found"]}
           "Database not found");
    vm_compute; reflexivity.
Defined.

Lemma result_has_two_entries_witness :
  dom (parseJsonResponse exampleJson "ok") = {["data"; "success"]}
  ∨ dom (parseJsonResponse exampleJson "ok") = {["error"; "success"]}.
Proof.
  apply (result_has_two_entries exampleJson (onlyGetBooks "ok")
           (GetBooks "/data/audible.db" 0 100));
    [discriminate | reflexivity].
Defined.

Lemma one_native_method_per_call_witness :
  invoke exampleJson (onlyGetBooks "ok") (GetBooks "/data/audible.db" 0 100)
  = invoke exampleJson (λ _ _, Returns "ok") (GetBooks "/data/audible.db" 0 100).
Proof.
  apply one_native_method_per_call. intros m s [= <-]. reflexivity.
Defined.

Lemma parseJsonValue_injective_witness :
  JObject {["asin" := JString "B07T2F8VJM"]} = JObject {["asin" := JString "B07T2F8VJM"]}.
Proof. apply parseJsonValue_injective. reflexivity. Defined.

End BridgeFacts.

Module LibraryScreenFacts.
Import Js LibraryScreen.

Section Facts.
Context (js : Builtins).

Lemma handleDownload_guarded book :
  ∃ body, handleDownload js book = tryFinally body (finalizer book).
Proof. eexists. reflexivity. Qed.

(** [handleDownload] begins by awaiting the stored account. *)
Lemma handleDownload_awaits_account book :
  awaited (handleDownload js book) = Some (GetItemAsync "audible_account").
Proof. reflexivity. Qed.

Lemma marker_removed book (s : Screen) :
  audible_product_id book
  ∉ downloadingAsins
      (perform (SetDownloadingAsins (λ prev, prev ∖ {[audible_product_id book]})) s).
Proof. simpl. apply not_elem_of_difference. right. by apply elem_of_singleton. Qed.

(** A turn of a guarded program either stops at an [await], still guarded,
    or ends having removed the marker last. *)
Lemma advance_tryFinally book now body (s : Screen) s' p' :
  advance perform now (tryFinally body (finalizer book)) s = (s', p') →
  (is_Some (awaited p') ∧ ∃ body', p' = tryFinally body' (finalizer book))
  ∨ (awaited p' = None ∧ audible_product_id book ∉ downloadingAsins s').
Proof.
  revert s. induction body as [a|r|e|op k IH|k IH|e k IH]; intros s; simpl.
  - intros [= <- <-]. right. split; [done|]. apply marker_removed.
  - intros [= <- <-]. right. split; [done|]. apply marker_removed.
  - intros [= <- <-]. right. split; [done|]. apply marker_removed.
  - intros [= <- <-]. left. split; [by eexists|].
    by exists (Await op k).
  - apply IH.
  - apply IH.
Qed.

Lemma guarded_await book body op (k : Ans → Prog unit) a :
  tryFinally body (finalizer book) = Await op k →
  ∃ body', k a = tryFinally body' (finalizer book).
Proof.
  destruct body as [x|r|e|op' k'|k'|e k']; simpl; try discriminate.
  intros [= _ <-]. by eexists.
Qed.

Lemma downloadingAsins_park inv book p s :
  downloadingAsins (park inv book p s) = downloadingAsins s.
Proof. unfold park. by destruct (awaited p). Qed.

Lemma invocations_park inv book p s :
  invocations (park inv book p s) =
    match awaited p with
    | Some _ => <[inv := (book, p)]> (invocations s)
    | None => delete inv (invocations s)
    end.
Proof. unfold park. by destruct (awaited p). Qed.

Lemma invocations_perform e s : invocations (perform e s) = invocations s.
Proof. by destruct e. Qed.

Lemma invocations_advance now (p : Prog unit) s s' p' :
  advance perform now p s = (s', p') → invocations s' = invocations s.
Proof.
  revert s. induction p as [a|r|e|op k IH|k IH|e k IH]; intros s; simpl;
    try (by intros [= <- <-]).
  - apply IH.
  - intros H. apply IH in H. by rewrite H, invocations_perform.
Qed.

Lemma invocations_complete op a s : invocations (complete op a s) = invocations s.
Proof. by destruct op, a. Qed.

Lemma guarded_park inv book body p s :
  guarded s → p = tryFinally body (finalizer book) →
  guarded (park inv book p s).
Proof.
  intros Hs -> inv' book' p'. rewrite invocations_park.
  destruct (awaited _).
  - destruct (decide (inv = inv')) as [->|Hne].
    + rewrite lookup_insert_eq. intros [= <- <-]. by eexists.
    + rewrite lookup_insert_ne by done. apply Hs.
  - intros [_ H]%lookup_delete_Some. by eapply Hs.
Qed.

Lemma guarded_ext s s' :
  invocations s' = invocations s → guarded s → guarded s'.
Proof. unfold guarded. by intros ->. Qed.

Lemma guarded_park_settled inv book p s :
  guarded s → awaited p = None → guarded (park inv book p s).
Proof.
  intros Hs Hp inv' book' p'. rewrite invocations_park, Hp.
  intros [_ H]%lookup_delete_Some. by eapply Hs.
Qed.

(** What a settlement does to the invocation it resumes. *)
Lemma settle_inv now inv a s s' :
  step js (Settle now inv a) s = Some s' →
  ∃ book op k s1 p1,
    invocations s !! inv = Some (book, Await op k)
    ∧ advance perform now (k a) (complete op a s) = (s1, p1)
    ∧ s' = park inv book p1 s1.
Proof.
  simpl. destruct (invocations s !! inv) as [[book p]|] eqn:Hinv; simpl; [|done].
  destruct p as [x|r|e|op k|k|e k]; try done.
  destruct (delivers s op a); [|done].
  destruct (advance _ _ _ _) as [s1 p1] eqn:Hadv.
  intros [= <-]. by exists book, op, k, s1, p1.
Qed.

Lemma press_inv now index s s' :
  step js (PressDownload now index) s = Some s' →
  ∃ item,
    audiobooks s !! index = Some item
    ∧ downloadButtonShown s item = true
    ∧ s' = park (next_invocation s) item (handleDownload js item) (fresh s).
Proof.
  simpl. destruct (audiobooks s !! index) as [item|]; simpl; [|done].
  destruct (downloadButtonShown s item) eqn:Hb; [|done].
  intros [= <-]. by exists item.
Qed.

Lemma step_guarded ev s s' : guarded s → step js ev s = Some s' → guarded s'.
Proof.
  intros Hs. destruct ev as [now index|now inv a].
  - intros (item & _ & _ & ->)%press_inv.
    destruct (handleDownload_guarded item) as [body Hb].
    eapply guarded_park; [|exact Hb]. by eapply guarded_ext.
  - intros (book & op & k & s1 & p1 & Hinv & Hadv & ->)%settle_inv.
    destruct (Hs _ _ _ Hinv) as [body Hbody].
    symmetry in Hbody. destruct (guarded_await _ _ _ _ a Hbody) as [body' Hk].
    assert (guarded s1) as Hs1.
    { eapply guarded_ext; [|exact Hs].
      rewrite (invocations_advance _ _ _ _ _ Hadv). apply invocations_complete. }
    rewrite Hk in Hadv.
    apply advance_tryFinally in Hadv as [[_ [body1 ->]]|[Hnone _]].
    + by eapply guarded_park.
    + by apply guarded_park_settled.
Qed.

Lemma run_guarded evs s s' : guarded s → run js evs s = Some s' → guarded s'.
Proof.
  revert s. induction evs as [|ev evs IH]; intros s Hs; simpl.
  - by intros [= <-].
  - destruct (step js ev s) as [s1|] eqn:Hstep; simpl; [|done].
    apply IH. by eapply step_guarded.
Qed.

Lemma guarded_empty s : invocations s = ∅ → guarded s.
Proof. intros He inv book p. by rewrite He, lookup_empty. Qed.

(** The button is the only way into [handleDownload]: a press is taken
    only for a title that is neither marked as downloading nor has a file. *)
Lemma press_needs_button now index s s' :
  step js (PressDownload now index) s = Some s' →
  ∃ item, audiobooks s !! index = Some item
    ∧ (audible_product_id item ∉ downloadingAsins s)
    ∧ truthy (file_path item) = false.
Proof.
  intros (item & Hitem & Hshown & _)%press_inv. exists item. split; [done|].
  unfold downloadButtonShown in Hshown.
  apply andb_true_iff in Hshown as [Hd Hm].
  apply negb_true_iff in Hd, Hm. by apply bool_decide_eq_false in Hm.
Qed.

(** C10.  In every run of the screen that starts without pending
    downloads, whenever an invocation of [handleDownload] settles
    (fulfilled or rejected, after an early return, a failure or a completed
    download) its book's id is absent from [downloadingAsins]. *)
Theorem finally_removes_marker s0 evs s now inv a book p s' :
  invocations s0 = ∅ →
  run js evs s0 = Some s →
  invocations s !! inv = Some (book, p) →
  step js (Settle now inv a) s = Some s' →
  invocations s' !! inv = None →
  audible_product_id book ∉ downloadingAsins s'.
Proof.
  intros H0 Hrun Hinv Hstep Hgone.
  assert (guarded s) as Hs by (eapply run_guarded; [by apply guarded_empty|done]).
  apply settle_inv in Hstep as (book' & op & k & s1 & p1 & Hinv' & Hadv & ->).
  rewrite Hinv in Hinv'. injection Hinv' as <- ->.
  destruct (Hs _ _ _ Hinv) as [body Hbody]. symmetry in Hbody.
  destruct (guarded_await _ _ _ _ a Hbody) as [body' Hk].
  rewrite Hk in Hadv.
  rewrite downloadingAsins_park. rewrite invocations_park in Hgone.
  apply advance_tryFinally in Hadv as [[[op' Hop] _]|[_ Hout]]; [|done].
  rewrite Hop, lookup_insert_eq in Hgone. done.
Qed.

(** A settlement ends the invocation or leaves it suspended again. *)
Lemma settle_or_stay now inv a s s' book p :
  invocations s !! inv = Some (book, p) →
  step js (Settle now inv a) s = Some s' →
  invocations s' !! inv = None ∨ ∃ p', invocations s' !! inv = Some (book, p').
Proof.
  intros Hinv (book' & op & k & s1 & p1 & Hinv' & _ & ->)%settle_inv.
  rewrite Hinv in Hinv'. injection Hinv' as <- _.
  rewrite invocations_park. destruct (awaited p1).
  - right. rewrite lookup_insert_eq. eauto.
  - left. apply lookup_delete_eq.
Qed.

(** C4.  When the read of [audible_account] resolves to nothing, a freshly
    started [handleDownload] settles in that very turn: the user is told
    to log in, no promise is issued (neither [refreshToken] nor
    [downloadAndDecryptBook]), and no transfer is in progress for it. *)
Theorem no_account_no_transfer s inv book now :
  invocations s !! inv = Some (book, handleDownload js book) →
  secureStore s !! "audible_account" = None →
  ∃ s', step js (Settle now inv (AItem None)) s = Some s'
    ∧ invocations s' = delete inv (invocations s)
    ∧ issued s' = issued s
    ∧ alerts s' = (alerts s ++ [("Error", "Please log in first")])%list
    ∧ downloadingAsins s' = downloadingAsins s ∖ {[audible_product_id book]}
    ∧ audiobooks s' = audiobooks s
    ∧ secureStore s' = secureStore s.
Proof.
  intros Hinv Hstore. eexists. split.
  - simpl. rewrite Hinv. simpl. rewrite Hstore.
    rewrite bool_decide_eq_true_2 by done. reflexivity.
  - by split_and!.
Qed.

End Facts.

Example download_completes :
  (λ s, (file_path <$> audiobooks s, alerts s, elements (downloadingAsins s),
         size (invocations s)))
    <$> run exampleBuiltins completedDownload exampleScreen
  = Some ([Some "/storage/books/B07T2F8VJM.m4b"],
          [("Download Complete",
            "A Grown-Up Guide to Dinosaurs" +:+ newline +:+ newline
            +:+ "Saved to: /storage/books/B07T2F8VJM.m4b" +:+ newline
            +:+ "Duration: 2h 43m")],
          [], 0%nat).
Proof. vm_compute. reflexivity. Qed.

Example token_refreshed_before_download :
  (λ s, (alerts s, elements (downloadingAsins s), size (invocations s),
         length (issued s)))
    <$> run exampleBuiltins refreshedDownload exampleScreen
  = Some ([], [], 0%nat, 5%nat).
Proof. vm_compute. reflexivity. Qed.

Lemma finally_removes_marker_witness :
  audible_product_id exampleBook
  ∉ downloadingAsins
      (default exampleScreen (step exampleBuiltins storeFailure readingDirectory)).
Proof.
  apply (finally_removes_marker exampleBuiltins exampleScreen startedDownload
           readingDirectory 1760000000400 0%nat
           (ARejected (ErrorObject (Some "Could not decrypt the value")))
           exampleBook
           (default (exampleBook, Ret tt) (invocations readingDirectory !! 0%nat)).2);
    vm_compute; reflexivity.
Defined.

Lemma no_account_no_transfer_witness :
  ∃ s', step exampleBuiltins (Settle 1760000000000 0 (AItem None)) signedOutScreen
        = Some s'
    ∧ invocations s' = delete 0%nat (invocations signedOutScreen)
    ∧ issued s' = issued signedOutScreen
    ∧ alerts s' = (alerts signedOutScreen ++ [("Error", "Please log in first")])%list
    ∧ downloadingAsins s'
      = downloadingAsins signedOutScreen ∖ {[audible_product_id exampleBook]}
    ∧ audiobooks s' = audiobooks signedOutScreen
    ∧ secureStore s' = secureStore signedOutScreen.
Proof.
  apply (no_account_no_transfer exampleBuiltins signedOutScreen 0%nat exampleBook).
  - reflexivity.
  - reflexivity.
Defined.

(** C3, the code at the failing input: both invocations reach
    [downloadAndDecryptBook], so two transfers of the same title are in
    progress at once. *)
Theorem double_press_two_transfers :
  (λ s, (activeTransfers s "B07T2F8VJM",
         length (filter (λ c, isDownloadOf "B07T2F8VJM" c.2 = true) (issued s)),
         elements (downloadingAsins s)))
    <$> run exampleBuiltins doublePress exampleScreen
  = Some (2%nat, 2%nat, ["B07T2F8VJM"]).
Proof. vm_compute. reflexivity. Qed.

(** *** Turn by turn

    The properties of a turn are read off [handleDownload] by running it
    on symbolic settlements, and carried along a run of the screen by
    [pending]. *)

Ltac unfold_screen :=
  unfold handleDownload, refreshIfExpiring, getItemAsync, setItemAsync,
    refreshToken, downloadAndDecryptBook, alert, setDownloadingAsins, setAudiobooks.

Ltac crunch :=
  repeat first
    [ progress (simpl in *)
    | progress intros
    | progress simplify_eq
    | match goal with
      | |- _ ∧ _ => split
      | |- True => exact I
      end
    | case_match ].

Section Turns.
Context (js : Builtins).

Lemma handleDownload_announces book :
  (∀ text, JSON_parse js text ≠ inl Nullish) →
  everywhere announces (handleDownload js book).
Proof.
  intros Hp. unfold_screen. crunch; try done;
    try (by exfalso; eapply Hp);
    eexists _, _; (split; [|reflexivity]); unfold alertTitles;
    repeat first [by apply list_elem_of_here | apply list_elem_of_further].
Qed.

Lemma handleDownload_disciplined book :
  everywhere (disciplined (audible_product_id book)) (handleDownload js book).
Proof.
  unfold_screen. crunch; try done;
    repeat match goal with
           | H : bool_decide _ = true |- _ => apply bool_decide_eq_true_1 in H
           | H : bool_decide _ = false |- _ => apply bool_decide_eq_false_1 in H
           end; try done;
    rewrite ?elem_of_difference, ?elem_of_union, ?elem_of_singleton; tauto.
Qed.

Lemma truthy_nonempty s : s ≠ "" → truthy (Some s) = true.
Proof. intros Hs. simpl. apply negb_true_iff. by apply String.eqb_neq. Qed.

Lemma everywhere_here {A} (Q : Prog A → Prop) p : everywhere Q p → Q p.
Proof. destruct p; simpl; tauto. Qed.

Lemma everywhere_resume (Q : Prog unit → Prop) op k a :
  everywhere Q (Await op k) → everywhere Q (k a).
Proof. simpl. intros [_ H]. apply H. Qed.

Lemma everywhere_advance (Q : Prog unit → Prop) now p (s : Screen) s' p' :
  everywhere Q p → advance perform now p s = (s', p') → everywhere Q p'.
Proof.
  revert s. induction p as [a|r|e|op k IH|k IH|e k IH]; intros s Hp; simpl;
    try (by intros [= <- <-]).
  - apply IH. simpl in Hp. apply Hp.
  - apply IH. simpl in Hp. apply Hp.
Qed.

Lemma pending_park Q inv book p s :
  pending Q s → everywhere (Q book) p → pending Q (park inv book p s).
Proof.
  intros Hs Hp inv' book' p'. rewrite invocations_park.
  destruct (awaited p).
  - destruct (decide (inv = inv')) as [->|Hne].
    + rewrite lookup_insert_eq. by intros [= <- <-].
    + rewrite lookup_insert_ne by done. apply Hs.
  - intros [_ H]%lookup_delete_Some. by eapply Hs.
Qed.

Lemma step_pending Q ev s s' :
  (∀ book, everywhere (Q book) (handleDownload js book)) →
  pending Q s → step js ev s = Some s' → pending Q s'.
Proof.
  intros HQ Hs. destruct ev as [now index|now inv a].
  - intros (item & _ & _ & ->)%press_inv.
    apply pending_park; [|apply HQ]. exact Hs.
  - intros (book & op & k & s1 & p1 & Hinv & Hadv & ->)%settle_inv.
    apply pending_park.
    + intros inv' book' p'. rewrite (invocations_advance _ _ _ _ _ Hadv).
      rewrite invocations_complete. apply Hs.
    + eapply everywhere_advance; [|exact Hadv].
      eapply everywhere_resume. by eapply Hs.
Qed.

Lemma run_pending Q evs s0 s :
  (∀ book, everywhere (Q book) (handleDownload js book)) →
  invocations s0 = ∅ → run js evs s0 = Some s → pending Q s.
Proof.
  intros HQ H0. assert (pending Q s0) as Hs0.
  { intros inv book p. by rewrite H0, lookup_empty. }
  clear H0. revert s0 Hs0. induction evs as [|ev evs IH]; intros s0 Hs0; simpl.
  - by intros [= <-].
  - destruct (step js ev s0) as [s1|] eqn:Hstep; simpl; [|done].
    apply IH. by eapply step_pending.
Qed.

Lemma alerts_complete op a s : alerts (complete op a s) = alerts s.
Proof. by destruct op, a. Qed.

Lemma alerts_park inv book p s : alerts (park inv book p s) = alerts s.
Proof. unfold park. by destruct (awaited p). Qed.

(** X12.  In a run that starts without pending downloads, a turn of
    [handleDownload] that leaves its invocation suspended shows no alert,
    and the turn that ends it shows exactly one, titled [Error],
    [Download Directory Not Set], [Download Complete] or
    [Download Failed]; a promise rejected with [null] or [undefined]
    apart, for which the catch block itself throws. *)
Theorem one_alert_per_invocation s0 evs s now inv a s' :
  (∀ text, JSON_parse js text ≠ inl Nullish) →
  invocations s0 = ∅ →
  run js evs s0 = Some s →
  a ≠ ARejected Nullish →
  step js (Settle now inv a) s = Some s' →
  if invocations s' !! inv is Some _ then alerts s' = alerts s
  else ∃ t m, t ∈ alertTitles ∧ alerts s' = alerts s ++ [(t, m)].
Proof.
  intros Hparse H0 Hrun Ha Hstep.
  pose proof (run_pending (λ _, announces) evs s0 s
                (λ book, handleDownload_announces book Hparse) H0 Hrun) as Hs.
  apply settle_inv in Hstep as (book & op & k & s1 & p1 & Hinv & Hadv & ->).
  apply Hs, everywhere_here in Hinv. simpl in Hinv.
  specialize (Hinv a now _ _ _ Ha Hadv).
  rewrite alerts_park, invocations_park. rewrite alerts_complete in Hinv.
  destruct (awaited p1).
  - by rewrite lookup_insert_eq.
  - by rewrite lookup_delete_eq.
Qed.

Lemma next_invocation_perform e s : next_invocation (perform e s) = next_invocation s.
Proof. by destruct e. Qed.

Lemma next_invocation_advance now (p : Prog unit) s s' p' :
  advance perform now p s = (s', p') → next_invocation s' = next_invocation s.
Proof.
  revert s. induction p as [a|r|e|op k IH|k IH|e k IH]; intros s; simpl;
    try (by intros [= <- <-]).
  - apply IH.
  - intros H. apply IH in H. by rewrite H, next_invocation_perform.
Qed.

Lemma next_invocation_complete op a s :
  next_invocation (complete op a s) = next_invocation s.
Proof. by destruct op, a. Qed.

Lemma next_invocation_park inv book p s :
  next_invocation (park inv book p s) = next_invocation s.
Proof. unfold park. by destruct (awaited p). Qed.

Lemma downloadingAsins_complete op a s :
  downloadingAsins (complete op a s) = downloadingAsins s.
Proof. by destruct op, a. Qed.

Lemma step_keys_fresh ev s s' : keys_fresh s → step js ev s = Some s' → keys_fresh s'.
Proof.
  intros Hs. destruct ev as [now index|now inv a].
  - intros (item & _ & _ & ->)%press_inv inv' [e He].
    rewrite next_invocation_park. rewrite invocations_park in He. simpl in *.
    destruct (decide (next_invocation s = inv')) as [<-|Hne]; [lia|].
    rewrite lookup_insert_ne in He by done.
    assert (inv' < next_invocation s)%nat by (apply Hs; eauto). lia.
  - intros (book & op & k & s1 & p1 & Hinv & Hadv & ->)%settle_inv inv' [e He].
    rewrite next_invocation_park, (next_invocation_advance _ _ _ _ _ Hadv),
      next_invocation_complete.
    rewrite invocations_park, (invocations_advance _ _ _ _ _ Hadv),
      invocations_complete in He.
    destruct (awaited p1).
    + destruct (decide (inv = inv')) as [<-|Hne]; [apply Hs; eauto|].
      rewrite lookup_insert_ne in He by done. apply Hs; eauto.
    + apply lookup_delete_Some in He as [_ He]. apply Hs; eauto.
Qed.

Lemma step_marked ev s s' :
  pending (λ book, disciplined (audible_product_id book)) s →
  guarded s → keys_fresh s → marked_transferring s →
  step js ev s = Some s' → marked_transferring s'.
Proof.
  intros Hd Hg Hk Hm. destruct ev as [now index|now inv a].
  - intros (item & _ & _ & ->)%press_inv x Hx.
    rewrite downloadingAsins_park in Hx. simpl in Hx.
    destruct (Hm x Hx) as (inv & e & He & Ht). exists inv, e. split; [|done].
    rewrite invocations_park. simpl.
    rewrite lookup_insert_ne; [done|].
    assert (inv < next_invocation s)%nat by (apply Hk; eauto). lia.
  - intros (book & op & k & s1 & p1 & Hinv & Hadv & ->)%settle_inv x Hx.
    rewrite downloadingAsins_park in Hx.
    pose proof (everywhere_here _ _ (Hd _ _ _ Hinv)) as [Hop Hturn].
    destruct (Hturn a now _ _ _ Hadv) as (Hother & Hend & Hquiet).
    rewrite downloadingAsins_complete in Hother, Hquiet.
    assert (invocations s1 = invocations s) as Hinvs.
    { by rewrite (invocations_advance _ _ _ _ _ Hadv), invocations_complete. }
    (* an invocation other than [inv] that transfers [x] is still there *)
    assert (∀ inv' e, inv' ≠ inv → invocations s !! inv' = Some e →
              transferring x e = true →
              ∃ i e', invocations (park inv book p1 s1) !! i = Some e'
                       ∧ transferring x e' = true) as Hkeep.
    { intros inv' e Hne He Ht. exists inv', e. split; [|done].
      rewrite invocations_park, Hinvs.
      destruct (awaited p1);
        [by rewrite lookup_insert_ne by done|by rewrite lookup_delete_ne by done]. }
    destruct (decide (x = audible_product_id book)) as [->|Hne].
    + destruct (awaited p1) as [op'|] eqn:Hp1.
      * destruct (isDownloadOf (audible_product_id book) op') eqn:Hdl.
        -- exists inv, (book, p1). split.
           ++ by rewrite invocations_park, Hp1, lookup_insert_eq.
           ++ unfold transferring. simpl. by rewrite Hp1.
        -- destruct (Hm _ (Hquiet _ eq_refl Hdl Hx)) as (inv' & e & He & Ht).
           destruct (decide (inv' = inv)) as [->|Hne']; [|by eapply Hkeep].
           rewrite Hinv in He. injection He as <-.
           unfold transferring in Ht. simpl in Ht.
           discriminate (Hend Ht).
      * exfalso. destruct (Hg _ _ _ Hinv) as [body Hbody]. symmetry in Hbody.
        destruct (guarded_await _ _ _ _ a Hbody) as [body' Hk'].
        rewrite Hk' in Hadv.
        apply advance_tryFinally in Hadv as [[[? Hs] _]|[_ Hout]]; [|done].
        by rewrite Hp1 in Hs.
    + apply Hother in Hx; [|done].
      destruct (Hm _ Hx) as (inv' & e & He & Ht).
      destruct (decide (inv' = inv)) as [->|Hne']; [|by eapply Hkeep].
      rewrite Hinv in He. injection He as <-.
      unfold transferring in Ht. simpl in Ht. by apply Hop in Ht.
Qed.

(** X13.  In a run that starts without pending downloads and without
    markers, a title is in [downloadingAsins] only while an invocation is
    suspended in [downloadAndDecryptBook] for it: the status
    [Downloading] is never shown for a title nothing is downloading. *)
Theorem marker_means_transfer s0 evs s asin :
  invocations s0 = ∅ →
  downloadingAsins s0 = ∅ →
  run js evs s0 = Some s →
  asin ∈ downloadingAsins s →
  (0 < activeTransfers s asin)%nat.
Proof.
  intros H0 Hd0 Hrun Hin.
  assert (marked_transferring s) as Hm.
  { assert (pending (λ book, disciplined (audible_product_id book)) s0
            ∧ guarded s0 ∧ keys_fresh s0 ∧ marked_transferring s0) as Hinv0.
    { split_and!.
      - intros inv book p. by rewrite H0, lookup_empty.
      - by apply guarded_empty.
      - intros inv [e He]. by rewrite H0, lookup_empty in He.
      - intros x. rewrite Hd0. by intros ?%elem_of_empty. }
    clear H0 Hd0 Hin. revert s0 Hinv0 Hrun.
    induction evs as [|ev evs IH]; intros s0 (Hp & Hg & Hk & Hm); simpl.
    - by intros [= <-].
    - destruct (step js ev s0) as [s1|] eqn:Hstep; simpl; [|done].
      apply IH. split_and!.
      + eapply step_pending; [|done|done]. intros book. apply handleDownload_disciplined.
      + by eapply step_guarded.
      + by eapply step_keys_fresh.
      + by eapply step_marked. }
  destruct (Hm _ Hin) as (inv & e & He & Ht).
  unfold activeTransfers.
  assert ((inv, e) ∈ filter (λ e, transferring asin e.2 = true)
                       (map_to_list (invocations s))) as Hel.
  { apply list_elem_of_filter. split; [done|]. by apply elem_of_map_to_list. }
  destruct (filter _ _); [by apply elem_of_nil in Hel|simpl; lia].
Qed.

Lemma handleDownload_directoryChecked book :
  everywhere directoryChecked (handleDownload js book).
Proof.
  unfold_screen. crunch; try done;
    match goal with H : negb _ = false |- _ => apply negb_false_iff in H end; congruence.
Qed.

Lemma handleDownload_refreshGuarded book :
  everywhere refreshGuarded (handleDownload js book).
Proof. unfold_screen. crunch; done. Qed.

Lemma handleDownload_completes book :
  everywhere (completes (audible_product_id book)) (handleDownload js book).
Proof. unfold_screen. crunch; try done; by eexists. Qed.

Lemma handleDownload_reportsFailure book :
  everywhere reportsFailure (handleDownload js book).
Proof. unfold_screen. crunch; done. Qed.

Lemma issued_perform e s : issued (perform e s) = issued s.
Proof. by destruct e. Qed.

Lemma issued_advance now (p : Prog unit) s s' p' :
  advance perform now p s = (s', p') → issued s' = issued s.
Proof.
  revert s. induction p as [a|r|e|op k IH|k IH|e k IH]; intros s; simpl;
    try (by intros [= <- <-]).
  - apply IH.
  - intros H. apply IH in H. by rewrite H, issued_perform.
Qed.

Lemma issued_complete op a s : issued (complete op a s) = issued s.
Proof. by destruct op, a. Qed.

Lemma secureStore_perform e s : secureStore (perform e s) = secureStore s.
Proof. by destruct e. Qed.

Lemma secureStore_advance now (p : Prog unit) s s' p' :
  advance perform now p s = (s', p') → secureStore s' = secureStore s.
Proof.
  revert s. induction p as [a|r|e|op k IH|k IH|e k IH]; intros s; simpl;
    try (by intros [= <- <-]).
  - apply IH.
  - intros H. apply IH in H. by rewrite H, secureStore_perform.
Qed.

Lemma secureStore_park inv book p s : secureStore (park inv book p s) = secureStore s.
Proof. unfold park. by destruct (awaited p). Qed.

Lemma audiobooks_complete op a s : audiobooks (complete op a s) = audiobooks s.
Proof. by destruct op, a. Qed.

(** The turn a deliverable settlement gives to a suspended invocation. *)
Lemma settle_turn now inv a s book p op :
  invocations s !! inv = Some (book, p) →
  awaited p = Some op →
  delivers s op a = true →
  ∃ k s1 p1,
    p = Await op k
    ∧ advance perform now (k a) (complete op a s) = (s1, p1)
    ∧ step js (Settle now inv a) s = Some (park inv book p1 s1).
Proof.
  intros Hinv Hop Hd. destruct p as [x|r|e|op' k|k|e k]; try done.
  injection Hop as ->.
  destruct (advance perform now (k a) (complete op a s)) as [s1 p1] eqn:Hadv.
  exists k, s1, p1. split_and!; [done..|].
  simpl. rewrite Hinv. simpl. by rewrite Hd, Hadv.
Qed.

(** What the turn that ends an invocation leaves behind. *)
Lemma ended_turn now inv a s book op k s1 p1 :
  guarded s →
  invocations s !! inv = Some (book, Await op k) →
  advance perform now (k a) (complete op a s) = (s1, p1) →
  awaited p1 = None →
  let s' := park inv book p1 s1 in
  invocations s' !! inv = None
  ∧ issued s' = issued s
  ∧ alerts s' = alerts s1
  ∧ audiobooks s' = audiobooks s1
  ∧ audible_product_id book ∉ downloadingAsins s'.
Proof.
  intros Hg Hinv Hadv Hend. simpl. split_and!.
  - by rewrite invocations_park, Hend, lookup_delete_eq.
  - unfold park. rewrite Hend. simpl.
    by rewrite (issued_advance _ _ _ _ _ Hadv), issued_complete.
  - apply alerts_park.
  - unfold park. by rewrite Hend.
  - rewrite downloadingAsins_park.
    destruct (Hg _ _ _ Hinv) as [body Hbody]. symmetry in Hbody.
    destruct (guarded_await _ _ _ _ a Hbody) as [body' Hk].
    rewrite Hk in Hadv.
    apply advance_tryFinally in Hadv as [[[? Hs] _]|[_ Hout]]; [|done].
    by rewrite Hend in Hs.
Qed.

Lemma run_guarded_empty evs s0 s :
  invocations s0 = ∅ → run js evs s0 = Some s → guarded s.
Proof. intros H0. apply run_guarded. by apply guarded_empty. Qed.

(** X9.  When the read of the download directory finds none (no entry,
    or an empty one), the invocation ends in that turn: the user is told
    to choose a directory, nothing is issued, so no download starts, and
    the title is not marked. *)
Theorem no_directory_no_transfer s0 evs s inv book p now :
  invocations s0 = ∅ →
  run js evs s0 = Some s →
  invocations s !! inv = Some (book, p) →
  awaited p = Some (GetItemAsync DOWNLOAD_PATH_KEY) →
  truthy (secureStore s !! DOWNLOAD_PATH_KEY) = false →
  ∃ s', step js (Settle now inv (AItem (secureStore s !! DOWNLOAD_PATH_KEY))) s
        = Some s'
    ∧ invocations s' !! inv = None
    ∧ issued s' = issued s
    ∧ alerts s' = alerts s ++ [directoryAlert]
    ∧ audible_product_id book ∉ downloadingAsins s'.
Proof.
  intros H0 Hrun Hinv Hop Hdir.
  pose proof (run_guarded_empty _ _ _ H0 Hrun) as Hg.
  pose proof (run_pending (λ _, directoryChecked) evs s0 s
                handleDownload_directoryChecked H0 Hrun) as Hs.
  destruct (settle_turn now inv (AItem (secureStore s !! DOWNLOAD_PATH_KEY))
              s book p _ Hinv Hop) as (k & s1 & p1 & -> & Hadv & Hstep).
  { simpl. by apply bool_decide_eq_true_2. }
  pose proof (everywhere_here _ _ (Hs _ _ _ Hinv)) as Hq. simpl in Hq.
  destruct (Hq eq_refl _ now _ _ _ Hdir Hadv) as [Hend Hal].
  destruct (ended_turn now inv _ s book _ k s1 p1 Hg Hinv Hadv Hend)
    as (? & ? & Hal' & ? & ?).
  eexists. split; [exact Hstep|]. split_and!; try done.
  by rewrite Hal', Hal, alerts_complete.
Qed.

(** X7.  A rejected [refreshToken], or a rejected save of the refreshed
    account, ends the invocation with the alert of the inner catch block:
    nothing further is issued, the store is as it was, and the title is
    not marked. *)
Theorem refresh_failure_ends s0 evs s inv book p op e now :
  invocations s0 = ∅ →
  run js evs s0 = Some s →
  invocations s !! inv = Some (book, p) →
  awaited p = Some op →
  (∃ account, op = RefreshToken account) ∨ (∃ key value, op = SetItemAsync key value) →
  ∃ s', step js (Settle now inv (ARejected e)) s = Some s'
    ∧ invocations s' !! inv = None
    ∧ issued s' = issued s
    ∧ alerts s' = alerts s ++ [refreshAlert]
    ∧ secureStore s' = secureStore s
    ∧ audible_product_id book ∉ downloadingAsins s'.
Proof.
  intros H0 Hrun Hinv Hop Hkind.
  pose proof (run_guarded_empty _ _ _ H0 Hrun) as Hg.
  pose proof (run_pending (λ _, refreshGuarded) evs s0 s
                handleDownload_refreshGuarded H0 Hrun) as Hs.
  destruct (settle_turn now inv (ARejected e) s book p _ Hinv Hop)
    as (k & s1 & p1 & -> & Hadv & Hstep).
  { by destruct op. }
  pose proof (everywhere_here _ _ (Hs _ _ _ Hinv)) as Hq. simpl in Hq.
  assert (awaited p1 = None ∧ alerts s1 = alerts (complete op (ARejected e) s)
                                          ++ [refreshAlert]) as [Hend Hal].
  { destruct Hkind as [[account ->]|(key & value & ->)]; by eapply Hq. }
  destruct (ended_turn now inv _ s book _ k s1 p1 Hg Hinv Hadv Hend)
    as (? & ? & Hal' & ? & ?).
  eexists. split; [exact Hstep|]. split_and!; try done.
  - by rewrite Hal', Hal, alerts_complete.
  - rewrite secureStore_park, (secureStore_advance _ _ _ _ _ Hadv). by destruct op.
Qed.

(** X10.  When the download resolves, the invocation ends: the books
    with the downloaded id, and only they, get the output path as
    [file_path], [Download Complete] is shown, and (for a path that is not
    empty) the status of the title reads [Downloaded] and its download
    button is gone. *)
Theorem completed_download_is_downloaded s0 evs s inv book p op r now :
  invocations s0 = ∅ →
  run js evs s0 = Some s →
  invocations s !! inv = Some (book, p) →
  awaited p = Some op →
  isDownloadOf (audible_product_id book) op = true →
  ∃ s', step js (Settle now inv (AResult r)) s = Some s'
    ∧ invocations s' !! inv = None
    ∧ audiobooks s' = withFile (audible_product_id book) (outputPath r) <$> audiobooks s
    ∧ (∃ m, alerts s' = alerts s ++ [("Download Complete", m)])
    ∧ ∀ b, b ∈ audiobooks s' →
        audible_product_id b = audible_product_id book →
        outputPath r ≠ "" →
        getStatus s' b = StatusDownloaded ∧ downloadButtonShown s' b = false.
Proof.
  intros H0 Hrun Hinv Hop Hdl.
  pose proof (run_guarded_empty _ _ _ H0 Hrun) as Hg.
  pose proof (run_pending (λ book, completes (audible_product_id book)) evs s0 s
                handleDownload_completes H0 Hrun) as Hs.
  destruct (settle_turn now inv (AResult r) s book p _ Hinv Hop)
    as (k & s1 & p1 & -> & Hadv & Hstep).
  { by destruct op. }
  pose proof (everywhere_here _ _ (Hs _ _ _ Hinv)) as Hq. simpl in Hq.
  destruct op as [| | |account asin dir quality]; try done.
  destruct (Hq r now _ _ _ Hadv) as (Hend & Hbooks & m & Hal).
  destruct (ended_turn now inv _ s book _ k s1 p1 Hg Hinv Hadv Hend)
    as (? & ? & Hal' & Hbooks' & Hout).
  eexists. split; [exact Hstep|]. split_and!; try done.
  - by rewrite Hbooks', Hbooks.
  - exists m. by rewrite Hal', Hal.
  - intros b Hb Hasin Hpath. rewrite Hbooks', Hbooks in Hb.
    apply list_elem_of_fmap in Hb as (b0 & -> & _).
    assert (truthy (file_path (withFile (audible_product_id book) (outputPath r) b0))
            = true) as Hfile.
    { unfold withFile in *. case_decide; simpl in *; [|done].
      apply negb_true_iff. by apply String.eqb_neq. }
    rewrite <- Hasin in Hout.
    unfold getStatus, downloadButtonShown. rewrite Hfile.
    rewrite decide_False by done. by rewrite bool_decide_eq_false_2.
Qed.

(** X11.  A read of the store or a download rejected with an error
    object ends the invocation in the outer catch block: [Download Failed]
    is shown with the error's message, or [Unknown error] without one, the
    list is unchanged, and a title without file is [Available] again, with
    its download button. *)
Theorem failed_download_can_be_retried s0 evs s inv book p op m now :
  invocations s0 = ∅ →
  run js evs s0 = Some s →
  invocations s !! inv = Some (book, p) →
  awaited p = Some op →
  (∃ key, op = GetItemAsync key) ∨ isDownloadOf (audible_product_id book) op = true →
  ∃ s', step js (Settle now inv (ARejected (ErrorObject m))) s = Some s'
    ∧ invocations s' !! inv = None
    ∧ issued s' = issued s
    ∧ audiobooks s' = audiobooks s
    ∧ alerts s' = alerts s ++ [("Download Failed", orElse m "Unknown error")]
    ∧ ∀ b, b ∈ audiobooks s' →
        audible_product_id b = audible_product_id book →
        truthy (file_path b) = false →
        getStatus s' b = StatusAvailable ∧ downloadButtonShown s' b = true.
Proof.
  intros H0 Hrun Hinv Hop Hkind.
  pose proof (run_guarded_empty _ _ _ H0 Hrun) as Hg.
  pose proof (run_pending (λ _, reportsFailure) evs s0 s
                handleDownload_reportsFailure H0 Hrun) as Hs.
  destruct (settle_turn now inv (ARejected (ErrorObject m)) s book p _ Hinv Hop)
    as (k & s1 & p1 & -> & Hadv & Hstep).
  { by destruct op. }
  pose proof (everywhere_here _ _ (Hs _ _ _ Hinv)) as Hq. simpl in Hq.
  assert (awaited p1 = None
          ∧ audiobooks s1 = audiobooks (complete op (ARejected (ErrorObject m)) s)
          ∧ alerts s1 = alerts (complete op (ARejected (ErrorObject m)) s)
                        ++ [("Download Failed", orElse m "Unknown error")])
    as (Hend & Hbooks & Hal).
  { destruct Hkind as [[key ->]|Hdl]; [by eapply Hq|].
    destruct op; try done. by eapply Hq. }
  destruct (ended_turn now inv _ s book _ k s1 p1 Hg Hinv Hadv Hend)
    as (? & ? & Hal' & Hbooks' & Hout).
  eexists. split; [exact Hstep|]. split_and!; try done.
  - by rewrite Hbooks', Hbooks, audiobooks_complete.
  - by rewrite Hal', Hal, alerts_complete.
  - intros b _ Hasin Hfile. rewrite <- Hasin in Hout.
    unfold getStatus, downloadButtonShown. rewrite Hfile.
    rewrite decide_False by done. by rewrite bool_decide_eq_false_2.
Qed.

(** X14.  [renderItem] offers the download button for exactly the titles
    whose status [getStatus] gives as [Available]. *)
Theorem button_iff_available (s : Screen) item :
  downloadButtonShown s item = true ↔ getStatus s item = StatusAvailable.
Proof.
  unfold downloadButtonShown, getStatus.
  destruct (decide (audible_product_id item ∈ downloadingAsins s)) as [Hin|Hout].
  - rewrite bool_decide_eq_true_2 by done. by destruct (truthy _).
  - rewrite bool_decide_eq_false_2 by done. by destruct (truthy _).
Qed.

Lemma handleDownload_savesThenDownloads book :
  everywhere (savesThenDownloads js (audible_product_id book)) (handleDownload js book).
Proof.
  unfold_screen. crunch; try done.
  all: eexists; split; [reflexivity|]; crunch; try done.
  all: try (match goal with
            | H : negb (String.eqb ?x _) = true |- _ => by destruct (String.eqb x _)
            end).
  all: eexists; split; reflexivity.
Qed.

(** X8.  The only write of [handleDownload] saves the refreshed account
    under [audible_account].  Once it has resolved the download directory
    is read, and with a directory the title is marked and the download is
    issued for the book's id, in quality [High], with the very account
    whose text was saved. *)
Theorem saved_account_is_used s0 evs s inv book p key value now :
  invocations s0 = ∅ →
  run js evs s0 = Some s →
  invocations s !! inv = Some (book, p) →
  awaited p = Some (SetItemAsync key value) →
  key = "audible_account"
  ∧ ∃ s1 p1,
      step js (Settle now inv AVoid) s = Some s1
      ∧ invocations s1 !! inv = Some (book, p1)
      ∧ awaited p1 = Some (GetItemAsync DOWNLOAD_PATH_KEY)
      ∧ secureStore s1 = <["audible_account" := value]> (secureStore s)
      ∧ ∀ dir now',
          secureStore s1 !! DOWNLOAD_PATH_KEY = Some dir → dir ≠ "" →
          ∃ s2 p2 account,
            step js (Settle now' inv (AItem (Some dir))) s1 = Some s2
            ∧ invocations s2 !! inv = Some (book, p2)
            ∧ awaited p2 = Some (DownloadAndDecryptBook account
                                   (audible_product_id book) dir "High")
            ∧ JSON_stringify js account = value
            ∧ audible_product_id book ∈ downloadingAsins s2
            ∧ alerts s2 = alerts s.
Proof.
  intros H0 Hrun Hinv Hop.
  pose proof (run_pending (λ book, savesThenDownloads js (audible_product_id book))
                evs s0 s handleDownload_savesThenDownloads H0 Hrun) as Hs.
  destruct (settle_turn now inv AVoid s book p _ Hinv Hop eq_refl)
    as (k & s1 & p1 & -> & Hadv & Hstep).
  pose proof (everywhere_here _ _ (Hs _ _ _ Hinv)) as [-> Hq].
  split; [done|].
  destruct (Hq _ _ _ _ Hadv) as (-> & k1 & -> & Hnext).
  eexists _, _. split; [exact Hstep|].
  assert (invocations (park inv book (Await (GetItemAsync DOWNLOAD_PATH_KEY) k1)
                         (complete (SetItemAsync "audible_account" value) AVoid s))
            !! inv = Some (book, Await (GetItemAsync DOWNLOAD_PATH_KEY) k1)) as Hinv1.
  { rewrite invocations_park. simpl. by rewrite lookup_insert_eq. }
  split_and!; try done.
  intros dir now' Hdir Hne.
  destruct (settle_turn now' inv (AItem (Some dir)) _ book _ _ Hinv1 eq_refl)
    as (k2 & s3 & p3 & Hk & Hadv3 & Hstep3).
  { simpl. apply bool_decide_eq_true_2. by rewrite <- Hdir. }
  injection Hk as <-.
  destruct (Hnext dir now' _ _ _ (truthy_nonempty dir Hne) Hadv3)
    as (Hmark & Hal & account & Hp3 & Hjson).
  exists (park inv book p3 s3), p3, account. split; [exact Hstep3|].
  split_and!; try done.
  - by rewrite invocations_park, Hp3, lookup_insert_eq.
  - rewrite downloadingAsins_park, Hmark.
    apply elem_of_union. right. by apply elem_of_singleton.
  - by rewrite alerts_park, Hal.
Qed.

(** X6.  With an account in the store, a started [handleDownload] shows
    nothing and marks nothing on reading it, and goes on to [refreshToken]
    exactly when the account has an access token that expires within five
    minutes; otherwise (also without a token, or with an expiry date that
    does not parse) it goes straight to the read of the download
    directory. *)
Theorem refresh_only_when_expiring s inv book text account now :
  invocations s !! inv = Some (book, handleDownload js book) →
  secureStore s !! "audible_account" = Some text → text ≠ "" →
  JSON_parse js text = inr account →
  ∃ s' p',
    step js (Settle now inv (AItem (Some text))) s = Some s'
    ∧ invocations s' !! inv = Some (book, p')
    ∧ awaited p'
      = Some (match identity account ≫= access_token with
              | Some tok =>
                  if expiringSoon js (expires_at tok) now then RefreshToken account
                  else GetItemAsync DOWNLOAD_PATH_KEY
              | None => GetItemAsync DOWNLOAD_PATH_KEY
              end)
    ∧ alerts s' = alerts s
    ∧ downloadingAsins s' = downloadingAsins s.
Proof.
  intros Hinv Hstore Hne Hparse.
  destruct (settle_turn now inv (AItem (Some text)) s book _ _ Hinv eq_refl)
    as (k & s1 & p1 & Hk & Hadv & Hstep).
  { simpl. apply bool_decide_eq_true_2. by rewrite Hstore. }
  rewrite Hstep. clear Hstep.
  unfold handleDownload in Hk. simpl in Hk. injection Hk as <-.
  apply String.eqb_neq in Hne.
  simpl in Hadv. rewrite Hne in Hadv. simpl in Hadv.
  rewrite Hparse in Hadv. simpl in Hadv. unfold refreshIfExpiring in Hadv.
  destruct (identity account) as [id|]; simpl in *;
    [destruct (access_token id) as [tok|]; simpl in *;
     [destruct (expiringSoon js (expires_at tok) now); simpl in *|]|];
    injection Hadv as <- <-;
    (eexists _, _; split; [reflexivity|]);
    (split_and!; [by rewrite invocations_park; simpl; rewrite lookup_insert_eq
                 |done..]).
Qed.

End Turns.

Lemma refresh_only_when_expiring_witness :
  ∃ s' p',
    step exampleBuiltins (Settle 1760000000200 0 (AItem (Some "{}"))) pressed = Some s'
    ∧ invocations s' !! 0%nat = Some (exampleBook, p')
    ∧ awaited p'
      = Some (match identity exampleAccount ≫= access_token with
              | Some tok =>
                  if expiringSoon exampleBuiltins (expires_at tok) 1760000000200
                  then RefreshToken exampleAccount
                  else GetItemAsync DOWNLOAD_PATH_KEY
              | None => GetItemAsync DOWNLOAD_PATH_KEY
              end)
    ∧ alerts s' = alerts pressed
    ∧ downloadingAsins s' = downloadingAsins pressed.
Proof.
  apply (refresh_only_when_expiring exampleBuiltins pressed 0%nat exampleBook "{}"
           exampleAccount 1760000000200).
  - reflexivity.
  - reflexivity.
  - discriminate.
  - reflexivity.
Defined.

Lemma refresh_failure_ends_witness :
  ∃ s', step exampleBuiltins
          (Settle 1999999999500 0 (ARejected (ErrorObject (Some "Network request failed"))))
          refreshing = Some s'
    ∧ invocations s' !! 0%nat = None
    ∧ issued s' = issued refreshing
    ∧ alerts s' = alerts refreshing ++ [refreshAlert]
    ∧ secureStore s' = secureStore refreshing
    ∧ audible_product_id exampleBook ∉ downloadingAsins s'.
Proof.
  apply (refresh_failure_ends exampleBuiltins exampleScreen startedRefresh refreshing
           0%nat exampleBook (suspended refreshing 0) (RefreshToken exampleAccount)
           (ErrorObject (Some "Network request failed")) 1999999999500).
  - reflexivity.
  - reflexivity.
  - reflexivity.
  - reflexivity.
  - left. by eexists.
Defined.

Lemma saved_account_is_used_witness :
  "audible_account" = "audible_account"
  ∧ ∃ s1 p1,
      step exampleBuiltins (Settle 1999999999600 0 AVoid) savingAccount = Some s1
      ∧ invocations s1 !! 0%nat = Some (exampleBook, p1)
      ∧ awaited p1 = Some (GetItemAsync DOWNLOAD_PATH_KEY)
      ∧ secureStore s1 = <["audible_account" := "{}"]> (secureStore savingAccount)
      ∧ ∀ dir now',
          secureStore s1 !! DOWNLOAD_PATH_KEY = Some dir → dir ≠ "" →
          ∃ s2 p2 account,
            step exampleBuiltins (Settle now' 0 (AItem (Some dir))) s1 = Some s2
            ∧ invocations s2 !! 0%nat = Some (exampleBook, p2)
            ∧ awaited p2 = Some (DownloadAndDecryptBook account
                                   (audible_product_id exampleBook) dir "High")
            ∧ JSON_stringify exampleBuiltins account = "{}"
            ∧ audible_product_id exampleBook ∈ downloadingAsins s2
            ∧ alerts s2 = alerts savingAccount.
Proof.
  apply (saved_account_is_used exampleBuiltins exampleScreen grantedRefresh
           savingAccount 0%nat exampleBook (suspended savingAccount 0)
           "audible_account" "{}" 1999999999600).
  - reflexivity.
  - reflexivity.
  - reflexivity.
  - reflexivity.
Defined.

Lemma no_directory_no_transfer_witness :
  ∃ s', step exampleBuiltins
          (Settle 1760000000400 0
             (AItem (secureStore missingDirectory !! DOWNLOAD_PATH_KEY)))
          missingDirectory = Some s'
    ∧ invocations s' !! 0%nat = None
    ∧ issued s' = issued missingDirectory
    ∧ alerts s' = alerts missingDirectory ++ [directoryAlert]
    ∧ audible_product_id exampleBook ∉ downloadingAsins s'.
Proof.
  apply (no_directory_no_transfer exampleBuiltins noDirectoryScreen startedDownload
           missingDirectory 0%nat exampleBook (suspended missingDirectory 0)
           1760000000400).
  - reflexivity.
  - reflexivity.
  - reflexivity.
  - reflexivity.
  - reflexivity.
Defined.

Lemma completed_download_is_downloaded_witness :
  ∃ s', step exampleBuiltins
          (Settle 1760000030000 0
             (AResult {| outputPath := "/storage/books/B07T2F8VJM.m4b";
                         duration := 9783 |}))
          transferringBook = Some s'
    ∧ invocations s' !! 0%nat = None
    ∧ audiobooks s'
      = withFile (audible_product_id exampleBook) "/storage/books/B07T2F8VJM.m4b"
          <$> audiobooks transferringBook
    ∧ (∃ m, alerts s' = alerts transferringBook ++ [("Download Complete", m)])
    ∧ ∀ b, b ∈ audiobooks s' →
        audible_product_id b = audible_product_id exampleBook →
        "/storage/books/B07T2F8VJM.m4b" ≠ "" →
        getStatus s' b = StatusDownloaded ∧ downloadButtonShown s' b = false.
Proof.
  apply (completed_download_is_downloaded exampleBuiltins exampleScreen
           startedTransfer transferringBook 0%nat exampleBook
           (suspended transferringBook 0)
           (DownloadAndDecryptBook exampleAccount "B07T2F8VJM" "/storage/books" "High")
           {| outputPath := "/storage/books/B07T2F8VJM.m4b"; duration := 9783 |}
           1760000030000).
  - reflexivity.
  - reflexivity.
  - reflexivity.
  - reflexivity.
  - reflexivity.
Defined.

Lemma failed_download_can_be_retried_witness :
  ∃ s', step exampleBuiltins
          (Settle 1760000030000 0 (ARejected (ErrorObject None))) transferringBook
        = Some s'
    ∧ invocations s' !! 0%nat = None
    ∧ issued s' = issued transferringBook
    ∧ audiobooks s' = audiobooks transferringBook
    ∧ alerts s' = alerts transferringBook ++ [("Download Failed", orElse None "Unknown error")]
    ∧ ∀ b, b ∈ audiobooks s' →
        audible_product_id b = audible_product_id exampleBook →
        truthy (file_path b) = false →
        getStatus s' b = StatusAvailable ∧ downloadButtonShown s' b = true.
Proof.
  apply (failed_download_can_be_retried exampleBuiltins exampleScreen
           startedTransfer transferringBook 0%nat exampleBook
           (suspended transferringBook 0)
           (DownloadAndDecryptBook exampleAccount "B07T2F8VJM" "/storage/books" "High")
           None 1760000030000).
  - reflexivity.
  - reflexivity.
  - reflexivity.
  - reflexivity.
  - right. reflexivity.
Defined.

Lemma one_alert_per_invocation_witness :
  if invocations failedRead !! 0%nat is Some _
  then alerts failedRead = alerts readingDirectory
  else ∃ t m, t ∈ alertTitles ∧ alerts failedRead = alerts readingDirectory ++ [(t, m)].
Proof.
  apply (one_alert_per_invocation exampleBuiltins exampleScreen startedDownload
           readingDirectory 1760000000400 0%nat
           (ARejected (ErrorObject (Some "Could not decrypt the value")))).
  - intros text. discriminate.
  - reflexivity.
  - reflexivity.
  - discriminate.
  - reflexivity.
Defined.

Lemma marker_means_transfer_witness :
  (0 < activeTransfers transferringBook "B07T2F8VJM")%nat.
Proof.
  apply (marker_means_transfer exampleBuiltins exampleScreen startedTransfer).
  - reflexivity.
  - reflexivity.
  - reflexivity.
  - reflexivity.
Defined.


End LibraryScreenFacts.

Module ListingFacts.
Import Js LibraryScreen LibraryScreen.Listing.
Import Stdlib.Strings.Ascii.

Lemma stripTrailingSlash_app s : stripTrailingSlash (s +:+ "/") = s.
Proof.
  induction s as [|c s IH]; [done|].
  change (String c s +:+ "/") with (String c (s +:+ "/")).
  cbn [stripTrailingSlash]. rewrite IH.
  replace (String.eqb (String c (s +:+ "/")) "/") with false; [done|].
  symmetry. apply String.eqb_neq. by destruct s.
Qed.

Lemma stripTrailingSlash_id s :
  (∀ s', s ≠ s' +:+ "/") → stripTrailingSlash s = s.
Proof.
  induction s as [|c s IH]; [done|]. intros H. cbn [stripTrailingSlash].
  destruct (String.eqb (String c s) "/") eqn:Hc.
  - apply String.eqb_eq in Hc. by destruct (H "").
  - f_equal. apply IH. intros s' ->. by apply (H (String c s')).
Qed.

Lemma substring_all s : String.substring 0 (String.length s) s = s.
Proof. induction s as [|c s IH]; [done|]. simpl. by rewrite IH. Qed.

Lemma replaceFirst_scheme dir : replaceFirst "file://" "" ("file://" +:+ dir) = dir.
Proof.
  cbn -[String.substring String.length Nat.sub].
  destruct dir; simpl; [done|]. by rewrite substring_all.
Qed.

(** X20.  The database path is [audible.db] in the cache directory,
    whether or not the URI of the directory ends with a slash. *)
Theorem dbPath_of_cache_directory dir :
  dbPathOf ("file://" +:+ dir +:+ "/") = dir +:+ "/audible.db"
  ∧ ((∀ s', dir ≠ s' +:+ "/") → dbPathOf ("file://" +:+ dir) = dir +:+ "/audible.db").
Proof.
  unfold dbPathOf. split.
  - replace ("file://" +:+ dir +:+ "/") with ("file://" +:+ (dir +:+ "/")) by done.
    by rewrite replaceFirst_scheme, stripTrailingSlash_app.
  - intros H. by rewrite replaceFirst_scheme, stripTrailingSlash_id.
Qed.

Section Loading.
Context (cacheUri : string)
        (initializeDatabase : string → Thrown + unit)
        (getBooks : string → nat → nat → Thrown + BooksResponse).

(** X15.  The [finally] block: however a load ends (the database not
    initialised, [getBooks] failing, or books loaded), no loading flag is
    left set; so it is after a refresh, and a request for more either
    changes nothing or leaves no flag set.  This holds from whatever
    render the callback was taken. *)
Theorem loading_flags_cleared rendered reset s :
  (isLoading (loadBooks cacheUri initializeDatabase getBooks rendered reset s) = false
   ∧ isRefreshing (loadBooks cacheUri initializeDatabase getBooks rendered reset s)
     = false
   ∧ isLoadingMore (loadBooks cacheUri initializeDatabase getBooks rendered reset s)
     = false)
  ∧ (isLoading (handleRefresh cacheUri initializeDatabase getBooks rendered s) = false
     ∧ isRefreshing (handleRefresh cacheUri initializeDatabase getBooks rendered s)
       = false
     ∧ isLoadingMore (handleRefresh cacheUri initializeDatabase getBooks rendered s)
       = false)
  ∧ (handleLoadMore cacheUri initializeDatabase getBooks rendered s = s
     ∨ (isLoading (handleLoadMore cacheUri initializeDatabase getBooks rendered s)
        = false
        ∧ isRefreshing (handleLoadMore cacheUri initializeDatabase getBooks rendered s)
          = false
        ∧ isLoadingMore (handleLoadMore cacheUri initializeDatabase getBooks rendered s)
          = false)).
Proof.
  split_and!; try done.
  unfold handleLoadMore. destruct (_ && hasMore rendered); [by right|by left].
Qed.

(** X17.  [hasMore] is left set only by a load that succeeded and whose
    response counts more books than the offset of the request, which is
    taken from the render, and the books of the response together; these
    are the books the list then shows when the load resets the list, or
    when the render shows as many books as the state at hand holds. *)
Theorem hasMore_only_after_success rendered reset s :
  hasMore (loadBooks cacheUri initializeDatabase getBooks rendered reset s) = true →
  initializeDatabase (dbPathOf cacheUri) = inr tt
  ∧ ∃ response,
      getBooks (dbPathOf cacheUri)
        (if reset then 0%nat else length (audiobooks rendered)) 100%nat
      = inr response
      ∧ Z.of_nat (if reset then 0%nat else length (audiobooks rendered))
        + Z.of_nat (length (books response)) < total_count response
      ∧ totalCount (loadBooks cacheUri initializeDatabase getBooks rendered reset s)
        = total_count response
      ∧ (reset = true ∨ length (audiobooks rendered) = length (audiobooks s) →
         Z.of_nat (length (audiobooks (loadBooks cacheUri initializeDatabase getBooks
                                         rendered reset s)))
         < total_count response).
Proof.
  unfold loadBooks.
  destruct (initializeDatabase _) as [e|[]]; [done|].
  destruct (getBooks _ _ _) as [e|response]; [done|]. simpl.
  intros H%bool_decide_eq_true_1. split; [done|]. exists response.
  split_and!; try done.
  intros Hfresh. destruct reset; simpl in *; rewrite ?length_app; [lia|].
  destruct Hfresh as [?|Hlen]; [done|]. lia.
Qed.

(** X18.  As long as the database opens, a request for more never drops
    or reorders what the list holds, from whatever render it is made: the
    books held before are a prefix of the books held after. *)
Theorem load_more_extends rendered s :
  initializeDatabase (dbPathOf cacheUri) = inr tt →
  audiobooks s
  `prefix_of` audiobooks (handleLoadMore cacheUri initializeDatabase getBooks
                            rendered s).
Proof.
  intros Hdb. unfold handleLoadMore, loadBooks.
  destruct (_ && _); [|done]. rewrite Hdb. simpl.
  destruct (getBooks _ _ _) as [e|response]; simpl; [done|].
  by apply prefix_app_r.
Qed.

(** X19.  A load that fails clears [hasMore], so that a request for more
    made from a render that shows the failed load changes nothing,
    whatever the state then at hand; when it is [getBooks] that fails on
    a request for more, the books and the count stay. *)
Theorem failed_load_stops_paging rendered (reset : bool) s e :
  initializeDatabase (dbPathOf cacheUri) = inl e
  ∨ getBooks (dbPathOf cacheUri)
      (if reset then 0%nat else length (audiobooks rendered)) 100%nat = inl e →
  hasMore (loadBooks cacheUri initializeDatabase getBooks rendered reset s) = false
  ∧ (∀ current,
       handleLoadMore cacheUri initializeDatabase getBooks
         (loadBooks cacheUri initializeDatabase getBooks rendered reset s) current
       = current)
  ∧ (initializeDatabase (dbPathOf cacheUri) = inr tt → reset = false →
     audiobooks (loadBooks cacheUri initializeDatabase getBooks rendered reset s)
     = audiobooks s
     ∧ totalCount (loadBooks cacheUri initializeDatabase getBooks rendered reset s)
       = totalCount s).
Proof.
  intros H.
  assert (hasMore (loadBooks cacheUri initializeDatabase getBooks rendered reset s)
          = false) as Hm.
  { unfold loadBooks. destruct H as [-> | H]; [done|].
    destruct (initializeDatabase _); [done|]. by rewrite H. }
  split_and!; [done| |].
  - intros current. unfold handleLoadMore. by rewrite Hm, andb_false_r.
  - intros Hdb ->. unfold loadBooks. rewrite Hdb.
    destruct H as [H|H]; [congruence|]. by rewrite H.
Qed.

Lemma take_take_drop {A} (l : list A) n m :
  take n l ++ take m (drop n l) = take (n + m) l.
Proof.
  revert l. induction n as [|n IH]; intros [|x l]; simpl; try done.
  - by rewrite take_nil.
  - by rewrite IH.
Qed.

(** X16.  Against a database that opens and answers every request for a
    page of a library, the first load followed by [n] requests for more,
    each made from the render of the list as the request before left it,
    shows the first [100 * (n + 1)] books of the library, in order;
    [hasMore] tells whether books are left, and once none is left the
    list is the library. *)
Theorem paging_shows_prefix library rendered s n :
  initializeDatabase (dbPathOf cacheUri) = inr tt →
  (∀ offset,
     getBooks (dbPathOf cacheUri) offset 100%nat
     = inr {| books := take 100 (drop offset library);
              total_count := Z.of_nat (length library) |}) →
  ∃ s', s' = Nat.iter n (loadMoreRendered cacheUri initializeDatabase getBooks)
               (loadBooks cacheUri initializeDatabase getBooks rendered true s)
    ∧ audiobooks s' = take (100 * S n) library
    ∧ hasMore s' = bool_decide (100 * S n < length library)%nat
    ∧ totalCount s' = Z.of_nat (length library)
    ∧ ((length library ≤ 100 * S n)%nat → audiobooks s' = library).
Proof.
  intros Hdb Hpages. eexists. split; [reflexivity|].
  set (more := loadMoreRendered cacheUri initializeDatabase getBooks).
  set (first := loadBooks cacheUri initializeDatabase getBooks rendered true s).
  assert (audiobooks (Nat.iter n more first) = take (100 * S n) library
          ∧ hasMore (Nat.iter n more first)
            = bool_decide (100 * S n < length library)%nat
          ∧ totalCount (Nat.iter n more first) = Z.of_nat (length library)
          ∧ isLoading (Nat.iter n more first) = false
          ∧ isLoadingMore (Nat.iter n more first) = false)
    as (Hb & Hm & Ht & Hl & Hlm).
  { induction n as [|n (Hb & Hm & Ht & Hl & Hlm)].
    - subst first. unfold loadBooks. rewrite Hdb, Hpages. cbn -[take Nat.mul].
      split_and!; try done.
      apply bool_decide_ext. rewrite length_take, drop_0. lia.
    - rewrite Nat.iter_succ.
      set (s1 := Nat.iter n more first) in *.
      assert (more s1
              = if bool_decide (100 * S n < length library)%nat
                then loadBooks cacheUri initializeDatabase getBooks s1 false
                       (setIsLoadingMore true s1)
                else s1) as ->.
      { subst more. unfold loadMoreRendered, handleLoadMore.
        by rewrite Hl, Hlm, Hm. }
      case_bool_decide as Hlt.
      + unfold loadBooks. rewrite Hdb, Hpages. cbn -[take drop Nat.mul].
        rewrite Hb. rewrite !length_take.
        rewrite !(Nat.min_l (100 * S n) (length library)) by lia.
        rewrite take_take_drop. split_and!; try done.
        * f_equal. lia.
        * apply bool_decide_ext. rewrite length_drop. lia.
      + split_and!; try done.
        * rewrite Hb. rewrite !take_ge by lia. done.
        * rewrite Hm. symmetry. apply bool_decide_eq_false_2. lia. }
  split_and!; try done.
  intros Hall. rewrite Hb. by apply take_ge.
Qed.

End Loading.

(** Two requests for more made from one render, before the list is
    rendered anew: both pass the guard and both ask for the page at the
    offset of that render, so that the list holds books 100 to 199 twice,
    300 books of a library of 250, and [hasMore] stays set. *)
Example stale_render_repeats_page :
  let more := handleLoadMore exampleCacheUri (λ _, inr tt) (pagesOf exampleLibrary)
                firstPage in
  audiobooks firstPage = take 100 exampleLibrary
  ∧ audiobooks (more (more firstPage))
    = take 200 exampleLibrary ++ take 100 (drop 100 exampleLibrary)
  ∧ totalCount (more (more firstPage)) = 250
  ∧ hasMore (more (more firstPage)) = true.
Proof. vm_compute. by split_and!. Qed.

(** X21.  For a duration of whole seconds that is not negative and not
    above [Number.MAX_SAFE_INTEGER], the hours and minutes
    [formatDuration] shows are the whole hours in it and the whole
    minutes left over, the latter below 60. *)
Theorem formatDuration_parts seconds :
  0 ≤ seconds ≤ MAX_SAFE_INTEGER →
  ∃ hours minutes,
    formatDuration seconds = pretty hours +:+ "h " +:+ pretty minutes +:+ "m"
    ∧ 0 ≤ hours ∧ 0 ≤ minutes < 60
    ∧ hours * 3600 + minutes * 60 ≤ seconds < hours * 3600 + minutes * 60 + 60.
Proof.
  intros [Hs _]. eexists _, _. split; [reflexivity|].
  rewrite Z.rem_mod_nonneg by lia.
  pose proof (Z.div_mod seconds 3600 ltac:(lia)).
  pose proof (Z.mod_pos_bound seconds 3600 ltac:(lia)).
  pose proof (Z.div_mod (seconds `mod` 3600) 60 ltac:(lia)).
  pose proof (Z.mod_pos_bound (seconds `mod` 3600) 60 ltac:(lia)).
  assert (0 ≤ seconds `div` 3600) by (apply Z.div_pos; lia).
  assert (0 ≤ (seconds `mod` 3600) `div` 60) by (apply Z.div_pos; lia).
  assert ((seconds `mod` 3600) `div` 60 < 60)
    by (apply Z.div_lt_upper_bound; lia).
  lia.
Qed.

Lemma matchFrom_replaceSize stage s :
  is_Some (matchFrom stage (replaceSize s)) ↔ is_Some (matchFrom stage s).
Proof.
  revert stage. induction s as [|c s IH]; intros stage; [done|].
  cbn [replaceSize]. destruct (matchHere (String c s)) as [rest|] eqn:Hm.
  - simpl in Hm. destruct (Ascii.eqb c "_") eqn:Hc; [|done].
    apply Ascii.eqb_eq in Hc as ->. by destruct stage.
  - cbn [matchFrom].
    destruct stage; repeat case_match; rewrite ?IH; try done.
Qed.

Lemma matchHere_replaceSize c s :
  matchHere (String c s) = None → matchHere (String c (replaceSize s)) = None.
Proof.
  cbn [matchHere]. destruct (Ascii.eqb c "_"); [|done].
  intros H. apply eq_None_not_Some. rewrite matchFrom_replaceSize.
  by rewrite H; intros [? ?].
Qed.

Lemma replaceSize_idempotent s : replaceSize (replaceSize s) = replaceSize s.
Proof.
  induction s as [|c s IH]; [done|].
  cbn [replaceSize]. destruct (matchHere (String c s)) as [rest|] eqn:Hm.
  - done.
  - cbn [replaceSize]. rewrite (matchHere_replaceSize c s Hm). by rewrite IH.
Qed.

Lemma replaceSize_empty s : replaceSize s = "" → s = "".
Proof.
  destruct s as [|c s]; [done|]. cbn [replaceSize].
  by destruct (matchHere _).
Qed.

(** X22.  Rewriting the cover size of a URL twice is rewriting it once
    (the rewritten marker [_SL150_] is again the leftmost match), and
    [getCoverUrl] gives no URL exactly for a book without one. *)
Theorem getCoverUrl_idempotent cover_url :
  getCoverUrl (getCoverUrl cover_url) = getCoverUrl cover_url
  ∧ (getCoverUrl cover_url = None ↔ truthy cover_url = false).
Proof.
  unfold getCoverUrl. destruct (truthy cover_url) eqn:Ht; simpl.
  - split; [|done].
    destruct cover_url as [s|]; [|done]. simpl in *.
    destruct (String.eqb (replaceSize s) "") eqn:He.
    + apply String.eqb_eq, replaceSize_empty in He. by subst.
    + simpl. by rewrite replaceSize_idempotent.
  - done.
Qed.

(** The documented case: the size marker [_SL500_] becomes [_SL150_]. *)
Example getCoverUrl_SL500 :
  getCoverUrl (Some "https://m.media-amazon.com/images/I/51abc._SL500_.jpg")
  = Some "https://m.media-amazon.com/images/I/51abc._SL150_.jpg".
Proof. reflexivity. Qed.

Lemma hasMore_only_after_success_witness :
  (λ _ : string, inr tt : Thrown + unit) (dbPathOf exampleCacheUri) = inr tt
  ∧ ∃ response,
      pagesOf exampleLibrary (dbPathOf exampleCacheUri) 100%nat 100%nat
      = inr response
      ∧ Z.of_nat 100 + Z.of_nat (length (books response)) < total_count response
      ∧ totalCount (loadBooks exampleCacheUri (λ _, inr tt) (pagesOf exampleLibrary)
                      firstPage false firstPage)
        = total_count response
      ∧ (false = true ∨ length (audiobooks firstPage) = length (audiobooks firstPage) →
         Z.of_nat (length (audiobooks
                             (loadBooks exampleCacheUri (λ _, inr tt)
                                (pagesOf exampleLibrary) firstPage false firstPage)))
         < total_count response).
Proof.
  apply (hasMore_only_after_success exampleCacheUri (λ _, inr tt)
           (pagesOf exampleLibrary) firstPage false firstPage).
  vm_compute; reflexivity.
Defined.

Lemma load_more_extends_witness :
  length (audiobooks firstPage) = 100%nat
  ∧ length (audiobooks (handleLoadMore exampleCacheUri (λ _, inr tt)
                          (pagesOf exampleLibrary) firstPage firstPage)) = 200%nat
  ∧ audiobooks firstPage
    `prefix_of` audiobooks (handleLoadMore exampleCacheUri (λ _, inr tt)
                              (pagesOf exampleLibrary) firstPage firstPage).
Proof.
  split_and!; [reflexivity | reflexivity |].
  apply (load_more_extends exampleCacheUri (λ _, inr tt) (pagesOf exampleLibrary)
           firstPage firstPage).
  reflexivity.
Defined.

Lemma failed_load_stops_paging_witness :
  (length (audiobooks firstPage) = 100%nat ∧ totalCount firstPage = 250
   ∧ hasMore firstPage = true)
  ∧ hasMore (loadBooks exampleCacheUri (λ _, inr tt) lockedDatabase firstPage false
               firstPage) = false
  ∧ (∀ current,
       handleLoadMore exampleCacheUri (λ _, inr tt) lockedDatabase
         (loadBooks exampleCacheUri (λ _, inr tt) lockedDatabase firstPage false
            firstPage) current
       = current)
  ∧ ((λ _ : string, inr tt : Thrown + unit) (dbPathOf exampleCacheUri) = inr tt →
     false = false →
     audiobooks (loadBooks exampleCacheUri (λ _, inr tt) lockedDatabase firstPage
                   false firstPage)
     = audiobooks firstPage
     ∧ totalCount (loadBooks exampleCacheUri (λ _, inr tt) lockedDatabase firstPage
                     false firstPage)
       = totalCount firstPage).
Proof.
  split; [by split_and!|].
  apply (failed_load_stops_paging exampleCacheUri (λ _, inr tt) lockedDatabase
           firstPage false firstPage (ErrorObject (Some "database is locked"))).
  right. reflexivity.
Defined.

Lemma paging_shows_prefix_witness :
  ∃ s', s' = Nat.iter 2 (loadMoreRendered exampleCacheUri (λ _, inr tt)
                           (pagesOf exampleLibrary))
               (loadBooks exampleCacheUri (λ _, inr tt)
                  (pagesOf exampleLibrary) initial true initial)
    ∧ audiobooks s' = take (100 * 3) exampleLibrary
    ∧ hasMore s' = bool_decide (100 * 3 < length exampleLibrary)%nat
    ∧ totalCount s' = Z.of_nat (length exampleLibrary)
    ∧ ((length exampleLibrary ≤ 100 * 3)%nat → audiobooks s' = exampleLibrary).
Proof.
  apply (paging_shows_prefix exampleCacheUri (λ _, inr tt)
           (pagesOf exampleLibrary) exampleLibrary initial initial 2).
  - reflexivity.
  - intros offset. reflexivity.
Defined.

Lemma formatDuration_parts_witness :
  ∃ hours minutes,
    formatDuration 9783 = pretty hours +:+ "h " +:+ pretty minutes +:+ "m"
    ∧ 0 ≤ hours ∧ 0 ≤ minutes < 60
    ∧ hours * 3600 + minutes * 60 ≤ 9783 < hours * 3600 + minutes * 60 + 60.
Proof. apply formatDuration_parts. unfold MAX_SAFE_INTEGER. lia. Defined.

End ListingFacts.

Module UseAuthenticationFacts.
Import Js UseAuthentication UseAuthentication.STORAGE_KEYS.

Lemma truthy_Some s : s ≠ "" → truthy (Some s) = true.
Proof.
  intros Hs. simpl. apply negb_true_iff. by apply String.eqb_neq.
Qed.

(** C9.  With an access and a refresh token in the store and no expiry
    entry, [checkAuthentication] classifies the token as neither expired
    nor expiring: it returns [true], reports the user authenticated with
    [expires_in] 3600, and issues nothing but its four reads, so no
    refresh is attempted. *)
Theorem no_expiry_is_valid Date_getTime toISOString rangeError clock w a r :
  secureStore w !! ACCESS_TOKEN = Some a → a ≠ "" →
  secureStore w !! REFRESH_TOKEN = Some r → r ≠ "" →
  secureStore w !! TOKEN_EXPIRES_AT = None →
  ∃ w', exec answer perform clock (checkAuthentication Date_getTime toISOString rangeError) w
        = (w', ReturnV true)
    ∧ state w' = {| isAuthenticated := true;
                    isLoading := false;
                    error := None;
                    tokens := Some {| access_token := a;
                                      refresh_token := r;
                                      expires_in := Some 3600;
                                      token_type := "Bearer" |};
                    localeCode := secureStore w !! LOCALE_CODE |}
    ∧ issued w' = (issued w ++ [GetItemAsync ACCESS_TOKEN;
                                GetItemAsync REFRESH_TOKEN;
                                GetItemAsync TOKEN_EXPIRES_AT;
                                GetItemAsync LOCALE_CODE])%list
    ∧ secureStore w' = secureStore w.
Proof.
  intros Ha Hane Hr Hrne He.
  eexists. split.
  - unfold checkAuthentication. simpl.
    rewrite Ha, Hr, He. rewrite (truthy_Some a Hane), (truthy_Some r Hrne).
    simpl. reflexivity.
  - simpl. split_and!; try done.
    by rewrite <- !app_assoc.
Qed.

Lemma no_expiry_is_valid_witness :
  ∃ w', exec answer perform (λ _, 1760000000000)
          (checkAuthentication (λ _, None) (λ _, None) exampleRangeError) exampleWorld
        = (w', ReturnV true)
    ∧ state w' = {| isAuthenticated := true;
                    isLoading := false;
                    error := None;
                    tokens := Some {| access_token := "Atna|token";
                                      refresh_token := "Atnr|token";
                                      expires_in := Some 3600;
                                      token_type := "Bearer" |};
                    localeCode := secureStore exampleWorld !! LOCALE_CODE |}
    ∧ issued w' = (issued exampleWorld ++ [GetItemAsync ACCESS_TOKEN;
                                           GetItemAsync REFRESH_TOKEN;
                                           GetItemAsync TOKEN_EXPIRES_AT;
                                           GetItemAsync LOCALE_CODE])%list
    ∧ secureStore w' = secureStore exampleWorld.
Proof.
  apply (no_expiry_is_valid (λ _, None) (λ _, None) exampleRangeError
           (λ _, 1760000000000) exampleWorld
           "Atna|token" "Atnr|token"); done.
Defined.

Example expired_token_is_refreshed :
  (λ r, (r.2, isAuthenticated (state r.1), length (issued r.1),
         secureStore r.1 !! ACCESS_TOKEN))
    (exec answer perform (λ _, 1760000000000)
       (checkAuthentication exampleDates exampleISO exampleRangeError) expiredWorld)
  = (ReturnV true, true, 12%nat, Some "Atna|new").
Proof. vm_compute. reflexivity. Qed.


Section Session.
Context (D : string → option Z) (T : Z → option string) (E : Thrown).

(** X23.  Without an access token or without a refresh token in the
    store (no entry, or an empty one), [checkAuthentication] returns
    [false] and reports the user signed out, without error; it issues
    nothing but its four reads, so no refresh is attempted. *)
Theorem missing_token_signed_out clock w :
  truthy (secureStore w !! ACCESS_TOKEN) = false
  ∨ truthy (secureStore w !! REFRESH_TOKEN) = false →
  ∃ w', exec answer perform clock (checkAuthentication D T E) w = (w', ReturnV false)
    ∧ state w' = signedOut None
    ∧ issued w' = (issued w ++ checkReads)%list
    ∧ secureStore w' = secureStore w.
Proof.
  intros H. eexists. split.
  - unfold checkAuthentication. simpl.
    destruct H as [-> | ->]; simpl; rewrite ?orb_true_r; simpl; reflexivity.
  - simpl. split_and!; try done. by rewrite <- !app_assoc.
Qed.

(** X24.  With both tokens in the store and no expiry date that lies
    less than five minutes after the reading of the clock that
    [checkAuthentication] tests it against, the check returns [true]
    after its four reads alone and reports the stored tokens, as [Bearer]
    tokens.  The [expires_in] it reports is computed from the next
    reading of the clock: the whole seconds from that reading to the
    stored date, 3600 without a stored date, and no number for a date
    that cannot be read.  It is at least 300 when the second reading is
    not later than the first, at least 299 when it is later by a second
    at most, and can be less when more time passes between the two. *)
Theorem valid_token_seconds_left clock w a r :
  secureStore w !! ACCESS_TOKEN = Some a → a ≠ "" →
  secureStore w !! REFRESH_TOKEN = Some r → r ≠ "" →
  (∀ e t, secureStore w !! TOKEN_EXPIRES_AT = Some e → e ≠ "" → D e = Some t →
          clock 0%nat + 300000 ≤ t) →
  ∃ w' tk, exec answer perform clock (checkAuthentication D T E) w = (w', ReturnV true)
    ∧ state w' = {| isAuthenticated := true; isLoading := false; error := None;
                    tokens := Some tk;
                    localeCode := secureStore w !! LOCALE_CODE |}
    ∧ access_token tk = a ∧ refresh_token tk = r ∧ token_type tk = "Bearer"
    ∧ (∀ e, secureStore w !! TOKEN_EXPIRES_AT = Some e → e ≠ "" →
            expires_in tk = (λ t, (t - clock 1%nat) `div` 1000) <$> D e)
    ∧ (truthy (secureStore w !! TOKEN_EXPIRES_AT) = false → expires_in tk = Some 3600)
    ∧ (∀ n, expires_in tk = Some n →
            (clock 1%nat ≤ clock 0%nat → 300 ≤ n)
            ∧ (clock 1%nat ≤ clock 0%nat + 1000 → 299 ≤ n))
    ∧ issued w' = (issued w ++ checkReads)%list
    ∧ secureStore w' = secureStore w.
Proof.
  intros Ha Hane Hr Hrne He.
  set (expiresAt := secureStore w !! TOKEN_EXPIRES_AT) in *.
  set (reported := if truthy expiresAt
                   then (λ t, (t - clock 1%nat) `div` 1000) <$> D (default "" expiresAt)
                   else Some 3600).
  assert (before (if truthy expiresAt then Some (D (default "" expiresAt)) else None)
            (clock 0%nat) = false
          ∧ before (if truthy expiresAt then Some (D (default "" expiresAt)) else None)
              (clock 0%nat + 5 * 60 * 1000) = false
          ∧ (∀ e, expiresAt = Some e → e ≠ "" →
                  reported = (λ t, (t - clock 1%nat) `div` 1000) <$> D e)
          ∧ (truthy expiresAt = false → reported = Some 3600)
          ∧ ∀ n, reported = Some n →
                 (clock 1%nat ≤ clock 0%nat → 300 ≤ n)
                 ∧ (clock 1%nat ≤ clock 0%nat + 1000 → 299 ≤ n))
    as (Hb1 & Hb2 & Hexact & Hnone & Hn).
  { subst reported. destruct expiresAt as [e|] eqn:Hst; simpl.
    - destruct (String.eqb e "") eqn:Hempty; simpl.
      + apply String.eqb_eq in Hempty.
        split_and!; try done.
        * by intros ? [= <-] ?.
        * intros n [= <-]. lia.
      + apply String.eqb_neq in Hempty.
        split_and!.
        * destruct (D e) as [t|] eqn:Ht; simpl; [|done].
          pose proof (He e t eq_refl Hempty Ht).
          apply bool_decide_eq_false_2. lia.
        * destruct (D e) as [t|] eqn:Ht; simpl; [|done].
          pose proof (He e t eq_refl Hempty Ht).
          apply bool_decide_eq_false_2. lia.
        * by intros ? [= <-] _.
        * done.
        * destruct (D e) as [t|] eqn:Ht; simpl; [|done].
          pose proof (He e t eq_refl Hempty Ht).
          intros n [= <-].
          split; intros Hclock; apply Z.div_le_lower_bound; lia.
    - split_and!; try done. intros n [= <-]. lia. }
  exists {| state := {| isAuthenticated := true; isLoading := false; error := None;
                        tokens := Some {| access_token := a; refresh_token := r;
                                          expires_in := reported;
                                          token_type := "Bearer" |};
                        localeCode := secureStore w !! LOCALE_CODE |};
            secureStore := secureStore w;
            issued := (issued w ++ checkReads)%list;
            bridge := bridge w |}.
  eexists. split.
  - unfold checkAuthentication. simpl. fold expiresAt.
    rewrite Ha, Hr, (truthy_Some a Hane), (truthy_Some r Hrne). simpl.
    rewrite Hb1, Hb2. simpl. by rewrite <- !app_assoc.
  - simpl. by split_and!.
Qed.

Lemma logout_exec clock w :
  exec answer perform clock logout w
  = ({| state := signedOut None;
        secureStore := delete LOCALE_CODE (delete DEVICE_SERIAL
                         (delete TOKEN_EXPIRES_AT (delete REFRESH_TOKEN
                            (delete ACCESS_TOKEN (secureStore w)))));
        issued := (issued w ++ (DeleteItemAsync <$> sessionKeys))%list;
        bridge := bridge w |}, Ret tt).
Proof. unfold logout. simpl. by rewrite <- !app_assoc. Qed.

Lemma session_deleted (store : gmap string string) :
  (∀ key, key ∈ sessionKeys →
     delete LOCALE_CODE (delete DEVICE_SERIAL (delete TOKEN_EXPIRES_AT
       (delete REFRESH_TOKEN (delete ACCESS_TOKEN store)))) !! key = None)
  ∧ (∀ key, key ∉ sessionKeys →
     delete LOCALE_CODE (delete DEVICE_SERIAL (delete TOKEN_EXPIRES_AT
       (delete REFRESH_TOKEN (delete ACCESS_TOKEN store)))) !! key
     = store !! key).
Proof.
  split; intros key Hkey; unfold sessionKeys in Hkey.
  - repeat (apply elem_of_cons in Hkey as [->|Hkey]); try (by simplify_map_eq).
    by apply elem_of_nil in Hkey.
  - rewrite !lookup_delete_ne; [done|..]; intros <-; apply Hkey;
      repeat first [by apply list_elem_of_here | apply list_elem_of_further].
Qed.

Lemma checkAuthentication_no_access_token clock w :
  secureStore w !! ACCESS_TOKEN = None →
  exec answer perform clock (checkAuthentication D T E) w
  = ({| state := signedOut None; secureStore := secureStore w;
        issued := (issued w ++ checkReads)%list; bridge := bridge w |},
     ReturnV false).
Proof.
  intros H. unfold checkAuthentication. simpl. rewrite H. simpl.
  by rewrite <- !app_assoc.
Qed.

(** X25.  [logout] reports the user signed out and deletes the five
    entries of the session, leaving every other entry of the store as it
    was; a [checkAuthentication] that follows returns [false] and leaves
    the user signed out. *)
Theorem logout_then_signed_out clock clock' w :
  state (exec answer perform clock logout w).1 = signedOut None
  ∧ (∀ key, key ∈ sessionKeys →
       secureStore (exec answer perform clock logout w).1 !! key = None)
  ∧ (∀ key, key ∉ sessionKeys →
       secureStore (exec answer perform clock logout w).1 !! key = secureStore w !! key)
  ∧ ∃ w2, exec answer perform clock' (checkAuthentication D T E)
            (exec answer perform clock logout w).1 = (w2, ReturnV false)
      ∧ state w2 = signedOut None
      ∧ secureStore w2 = secureStore (exec answer perform clock logout w).1.
Proof.
  rewrite logout_exec. cbn [fst]. cbn [state secureStore].
  split_and!; [done|apply session_deleted..|].
  rewrite checkAuthentication_no_access_token.
  - eexists. by split_and!.
  - simpl. apply session_deleted. apply list_elem_of_here.
Qed.

(** X26.  Without a refresh token, a locale code or a device serial in
    the store, [refreshAccessToken] returns [false] after its three reads:
    the bridge is not called, the store is left as it was, and the error
    is reported in the state. *)
Theorem refresh_needs_stored_credentials clock w :
  truthy (secureStore w !! REFRESH_TOKEN) = false
  ∨ truthy (secureStore w !! LOCALE_CODE) = false
  ∨ truthy (secureStore w !! DEVICE_SERIAL) = false →
  ∃ w', exec answer perform clock (refreshAccessToken T E) w = (w', ReturnV false)
    ∧ state w' = withError false
                   (ErrorObject
                      (Some "Missing refresh token, locale code, or device serial"))
                   (state w)
    ∧ issued w' = (issued w ++ [GetItemAsync REFRESH_TOKEN; GetItemAsync LOCALE_CODE;
                                GetItemAsync DEVICE_SERIAL])%list
    ∧ secureStore w' = secureStore w.
Proof.
  intros H. eexists. split.
  - unfold refreshAccessToken. simpl.
    destruct H as [-> | [-> | ->]]; simpl; rewrite ?orb_true_r; simpl; reflexivity.
  - simpl. split_and!; try done. by rewrite <- !app_assoc.
Qed.

Lemma handleOAuthSuccess_exec clock w tk locale serial n iso :
  expires_in tk = Some n →
  T (clock 0%nat + n * 1000) = Some iso →
  ∃ w', exec answer perform clock (handleOAuthSuccess T E tk locale serial) w = (w', Ret tt)
    ∧ state w' = {| isAuthenticated := true; isLoading := false; error := None;
                    tokens := Some tk; localeCode := Some locale |}
    ∧ secureStore w' = signedIn tk iso locale serial (secureStore w).
Proof.
  intros Hn Hiso. unfold handleOAuthSuccess, signedIn. simpl.
  rewrite Hn. simpl. rewrite Hiso. simpl.
  destruct (truthy serial); simpl; eexists; (split; [reflexivity|]); by simpl.
Qed.

(** X27.  A session written by [handleOAuthSuccess] is found again by
    [checkAuthentication]: as long as five minutes or more are left of it
    at the reading of the clock that the check tests it against, the
    check returns [true] without a refresh and reports the same access
    and refresh token and the same locale, [Bearer] as the token type
    whatever it was, and as [expires_in] the whole seconds from its next
    reading of the clock to the end of the session. *)
Theorem sign_in_round_trip clock clock' w tk locale serial n iso :
  access_token tk ≠ "" → refresh_token tk ≠ "" →
  expires_in tk = Some n →
  T (clock 0%nat + n * 1000) = Some iso → iso ≠ "" →
  D iso = Some (clock 0%nat + n * 1000) →
  clock' 0%nat + 300000 ≤ clock 0%nat + n * 1000 →
  ∃ w2, exec answer perform clock' (checkAuthentication D T E)
          (exec answer perform clock (handleOAuthSuccess T E tk locale serial) w).1
        = (w2, ReturnV true)
    ∧ state w2 = {| isAuthenticated := true; isLoading := false; error := None;
                    tokens := Some {| access_token := access_token tk;
                                      refresh_token := refresh_token tk;
                                      expires_in :=
                                        Some ((clock 0%nat + n * 1000 - clock' 1%nat)
                                              `div` 1000);
                                      token_type := "Bearer" |};
                    localeCode := Some locale |}
    ∧ issued w2
      = (issued (exec answer perform clock (handleOAuthSuccess T E tk locale serial) w).1
         ++ checkReads)%list
    ∧ secureStore w2
      = signedIn tk iso locale serial (secureStore w).
Proof.
  intros Ha Hr Hn Hiso Hne HD Hlate.
  destruct (handleOAuthSuccess_exec clock w tk locale serial n iso Hn Hiso)
    as (w1 & Hex & _ & Hstore).
  rewrite Hex. cbn [fst].
  assert (secureStore w1 !! ACCESS_TOKEN = Some (access_token tk)
          ∧ secureStore w1 !! REFRESH_TOKEN = Some (refresh_token tk)
          ∧ secureStore w1 !! TOKEN_EXPIRES_AT = Some iso
          ∧ secureStore w1 !! LOCALE_CODE = Some locale) as (H1 & H2 & H3 & H4).
  { rewrite Hstore. unfold signedIn. destruct (truthy serial); by simplify_map_eq. }
  eexists. split.
  - unfold checkAuthentication. simpl.
    rewrite H1, H2, H3, H4.
    rewrite (truthy_Some _ Ha), (truthy_Some _ Hr), (truthy_Some _ Hne). simpl.
    rewrite HD. simpl.
    rewrite !bool_decide_eq_false_2 by lia. simpl. reflexivity.
  - simpl. split_and!; try done. by rewrite <- !app_assoc.
Qed.

(** X28.  When the stored token expires within five minutes and the
    refresh does not succeed (credentials missing from the store, the
    bridge rejecting, or its result without [success] or [data]),
    [checkAuthentication] logs out: it returns [false], the five entries of
    the session are deleted and the state is the signed-out one, the
    error of the refresh not kept. *)
Theorem failed_refresh_logs_out clock w a r e t :
  secureStore w !! ACCESS_TOKEN = Some a → a ≠ "" →
  secureStore w !! REFRESH_TOKEN = Some r → r ≠ "" →
  secureStore w !! TOKEN_EXPIRES_AT = Some e → e ≠ "" →
  D e = Some t → t < clock 0%nat + 300000 →
  (∀ l r d, refused (bridge w l r d)) →
  ∃ w', exec answer perform clock (checkAuthentication D T E) w = (w', ReturnV false)
    ∧ state w' = signedOut None
    ∧ (∀ key, key ∈ sessionKeys → secureStore w' !! key = None)
    ∧ (∀ key, key ∉ sessionKeys → secureStore w' !! key = secureStore w !! key).
Proof.
  intros Ha Hane Hr Hrne He Hene HD Hsoon Hbridge.
  pose proof (session_deleted (secureStore w)) as Hdel.
  assert (bool_decide (t < clock 0%nat)
          || bool_decide (t < clock 0%nat + 5 * 60 * 1000) = true) as Hexp.
  { apply orb_true_iff. right. apply bool_decide_eq_true_2. lia. }
  unfold checkAuthentication. simpl.
  rewrite Ha, Hr, He, (truthy_Some a Hane), (truthy_Some r Hrne), (truthy_Some e Hene).
  simpl. rewrite HD. simpl. rewrite Hexp.
  unfold refreshAccessToken. simpl. rewrite Hr, (truthy_Some r Hrne). simpl.
  destruct (truthy (secureStore w !! LOCALE_CODE)) eqn:Hl; simpl.
  2: { eexists. split; [reflexivity|]. simpl. split_and!; [done|apply Hdel..]. }
  destruct (truthy (secureStore w !! DEVICE_SERIAL)) eqn:Hd; simpl.
  2: { eexists. split; [reflexivity|]. simpl. split_and!; [done|apply Hdel..]. }
  pose proof (Hbridge (default "" (secureStore w !! LOCALE_CODE)) r
                (default "" (secureStore w !! DEVICE_SERIAL))) as Href.
  destruct (bridge w _ r _) as [v| |res|err]; simpl;
    try (eexists; split; [reflexivity|]; simpl; split_and!; [done|apply Hdel..]).
  simpl in Href.
  destruct (success res) eqn:Hs, (data res) eqn:Hdata; simpl;
    try (eexists; split; [reflexivity|]; simpl; split_and!; [done|apply Hdel..]).
  by destruct Href.
Qed.

(** X29.  When the bridge grants the refresh, [refreshAccessToken] calls
    it once and returns [true]; the new access token is stored, the stored
    refresh token is replaced only by a new one that is not empty, and
    locale and device serial stay.  It returns [true] also when the
    expiry date cannot be computed from the result: then the stored
    expiry date is the old one, and the state holds the [RangeError] that
    [toISOString] threw instead of the session. *)
Theorem refresh_keeps_credentials clock w r l d dat res :
  secureStore w !! REFRESH_TOKEN = Some r → r ≠ "" →
  secureStore w !! LOCALE_CODE = Some l → l ≠ "" →
  secureStore w !! DEVICE_SERIAL = Some d → d ≠ "" →
  bridge w l r d = ABridge res → success res = true → data res = Some dat →
  ∃ w', exec answer perform clock (refreshAccessToken T E) w = (w', ReturnV true)
    ∧ secureStore w' !! ACCESS_TOKEN = Some (data_access_token dat)
    ∧ secureStore w' !! REFRESH_TOKEN = Some (orElse (data_refresh_token dat) r)
    ∧ secureStore w' !! LOCALE_CODE = Some l
    ∧ secureStore w' !! DEVICE_SERIAL = Some d
    ∧ length (filter (λ op, isBridgeCall op = true) (issued w'))
      = S (length (filter (λ op, isBridgeCall op = true) (issued w)))
    ∧ ((data_expires_in dat ≫= λ s, T (clock 0%nat + s * 1000)) = None →
       secureStore w' !! TOKEN_EXPIRES_AT = secureStore w !! TOKEN_EXPIRES_AT
       ∧ isAuthenticated (state w') = isAuthenticated (state w)
       ∧ tokens (state w') = tokens (state w)
       ∧ error (state w') = Some E).
Proof.
  intros Hr Hrne Hl Hlne Hd Hdne Hb Hs Hdat.
  unfold refreshAccessToken. simpl.
  rewrite Hr, Hl, Hd, (truthy_Some r Hrne), (truthy_Some l Hlne), (truthy_Some d Hdne).
  simpl. rewrite Hb. simpl. rewrite Hs, Hdat. simpl.
  destruct (data_expires_in dat) as [secs|] eqn:Hsecs; simpl;
    [destruct (T (clock 0%nat + secs * 1000)) as [iso|] eqn:Hiso; simpl|];
    (eexists; split; [reflexivity|]); simpl; split_and!; try done;
    try (by simplify_map_eq);
    rewrite ?filter_app; simpl; rewrite ?filter_cons_False, ?filter_cons_True by done;
    rewrite ?filter_nil, ?length_app; simpl; lia.
Qed.

(** X30.  [getTimeUntilExpiry] never throws and changes nothing; it
    gives [null] exactly when no expiry date is stored, never a negative
    number, and at least 300 for a date that [checkAuthentication] does
    not take for expiring. *)
Theorem time_until_expiry_not_negative clock w :
  ∃ w' r, exec answer perform clock (getTimeUntilExpiry D) w = (w', ReturnV r)
    ∧ state w' = state w
    ∧ secureStore w' = secureStore w
    ∧ (r = None ↔ truthy (secureStore w !! TOKEN_EXPIRES_AT) = false)
    ∧ (∀ n, r = Some (Some n) → 0 ≤ n)
    ∧ (∀ e t, secureStore w !! TOKEN_EXPIRES_AT = Some e → e ≠ "" → D e = Some t →
              clock 0%nat + 300000 ≤ t → ∃ n, r = Some (Some n) ∧ 300 ≤ n).
Proof.
  unfold getTimeUntilExpiry, getTokenExpiryDate. simpl.
  destruct (truthy (secureStore w !! TOKEN_EXPIRES_AT)) eqn:Htr; simpl.
  - eexists _, _. split; [reflexivity|]. simpl. split_and!; try done.
    + intros n [= Hn].
      destruct (D _); simpl in *; simplify_eq. lia.
    + intros e t He _ Ht Hlate. rewrite He. simpl. rewrite Ht. simpl.
      eexists. split; [reflexivity|].
      assert (300 ≤ (t - clock 0%nat) `div` 1000)
        by (apply Z.div_le_lower_bound; lia).
      lia.
  - eexists _, _. split; [reflexivity|]. simpl. split_and!; try done.
    intros e t He Hne. rewrite He in Htr. by rewrite truthy_Some in Htr.
Qed.

End Session.

Lemma missing_token_signed_out_witness :
  ∃ w', exec answer perform (λ _, 1760000000000)
          (checkAuthentication (λ _, None) (λ _, None) exampleRangeError)
          signedOutWorld
        = (w', ReturnV false)
    ∧ state w' = signedOut None
    ∧ issued w' = (issued signedOutWorld ++ checkReads)%list
    ∧ secureStore w' = secureStore signedOutWorld.
Proof.
  apply (missing_token_signed_out (λ _, None) (λ _, None) exampleRangeError
           (λ _, 1760000000000) signedOutWorld).
  left. reflexivity.
Defined.

Lemma valid_token_seconds_left_witness :
  ∃ w' tk, exec answer perform (exampleClock 1760000000000)
             (checkAuthentication exampleDates exampleISO exampleRangeError)
             validWorld
           = (w', ReturnV true)
    ∧ state w' = {| isAuthenticated := true; isLoading := false; error := None;
                    tokens := Some tk;
                    localeCode := secureStore validWorld !! LOCALE_CODE |}
    ∧ access_token tk = "Atna|token" ∧ refresh_token tk = "Atnr|token"
    ∧ token_type tk = "Bearer"
    ∧ (∀ e, secureStore validWorld !! TOKEN_EXPIRES_AT = Some e → e ≠ "" →
            expires_in tk
            = (λ t, (t - exampleClock 1760000000000 1) `div` 1000) <$> exampleDates e)
    ∧ (truthy (secureStore validWorld !! TOKEN_EXPIRES_AT) = false →
       expires_in tk = Some 3600)
    ∧ (∀ n, expires_in tk = Some n →
            (exampleClock 1760000000000 1 ≤ exampleClock 1760000000000 0 → 300 ≤ n)
            ∧ (exampleClock 1760000000000 1 ≤ exampleClock 1760000000000 0 + 1000 →
               299 ≤ n))
    ∧ issued w' = (issued validWorld ++ checkReads)%list
    ∧ secureStore w' = secureStore validWorld.
Proof.
  apply (valid_token_seconds_left exampleDates exampleISO exampleRangeError
           (exampleClock 1760000000000) validWorld "Atna|token" "Atnr|token").
  - reflexivity.
  - discriminate.
  - reflexivity.
  - discriminate.
  - intros e t [= <-] _ [= <-]. vm_compute. discriminate.
Defined.

(** The session of [validWorld] checked at 08:53:20: 3599 seconds are
    reported, the second reading of the clock being a millisecond after
    the first. *)
Example valid_token_3599_seconds :
  (λ r, (r.2, expires_in <$> tokens (state r.1)))
    (exec answer perform (exampleClock 1760000000000)
       (checkAuthentication exampleDates exampleISO exampleRangeError) validWorld)
  = (ReturnV true, Some (Some 3599)).
Proof. vm_compute. reflexivity. Qed.

(** A session with five minutes to go at the first reading of the clock
    and a millisecond less at the second: 299 seconds are reported. *)
Example five_minutes_left_299_seconds :
  (λ r, (r.2, expires_in <$> tokens (state r.1)))
    (exec answer perform (exampleClock (1760003600000 - 300000))
       (checkAuthentication exampleDates exampleISO exampleRangeError) validWorld)
  = (ReturnV true, Some (Some 299)).
Proof. vm_compute. reflexivity. Qed.

Lemma refresh_needs_stored_credentials_witness :
  ∃ w', exec answer perform (λ _, 1760000000000)
          (refreshAccessToken (λ _, None) exampleRangeError) exampleWorld
        = (w', ReturnV false)
    ∧ state w' = withError false
                   (ErrorObject
                      (Some "Missing refresh token, locale code, or device serial"))
                   (state exampleWorld)
    ∧ issued w' = (issued exampleWorld
                   ++ [GetItemAsync REFRESH_TOKEN; GetItemAsync LOCALE_CODE;
                       GetItemAsync DEVICE_SERIAL])%list
    ∧ secureStore w' = secureStore exampleWorld.
Proof.
  apply (refresh_needs_stored_credentials (λ _, None) exampleRangeError
           (λ _, 1760000000000) exampleWorld).
  right. right. reflexivity.
Defined.

Lemma sign_in_round_trip_witness :
  ∃ w2, exec answer perform (exampleClock 1760000060000)
          (checkAuthentication exampleDates exampleISO exampleRangeError)
          (exec answer perform (exampleClock 1760000000000)
             (handleOAuthSuccess exampleISO exampleRangeError
                exampleTokens "us" (Some "0123")) signedOutWorld).1
        = (w2, ReturnV true)
    ∧ state w2 = {| isAuthenticated := true; isLoading := false; error := None;
                    tokens := Some {| access_token := access_token exampleTokens;
                                      refresh_token := refresh_token exampleTokens;
                                      expires_in :=
                                        Some ((exampleClock 1760000000000 0
                                               + 3600 * 1000
                                               - exampleClock 1760000060000 1)
                                              `div` 1000);
                                      token_type := "Bearer" |};
                    localeCode := Some "us" |}
    ∧ issued w2
      = (issued (exec answer perform (exampleClock 1760000000000)
                   (handleOAuthSuccess exampleISO exampleRangeError
                      exampleTokens "us" (Some "0123")) signedOutWorld).1
         ++ checkReads)%list
    ∧ secureStore w2
      = signedIn exampleTokens "2025-10-09T09:53:20.000Z" "us" (Some "0123")
          (secureStore signedOutWorld).
Proof.
  apply (sign_in_round_trip exampleDates exampleISO exampleRangeError
           (exampleClock 1760000000000) (exampleClock 1760000060000)
           signedOutWorld exampleTokens "us" (Some "0123") 3600
           "2025-10-09T09:53:20.000Z").
  - discriminate.
  - discriminate.
  - reflexivity.
  - reflexivity.
  - discriminate.
  - reflexivity.
  - vm_compute. discriminate.
Defined.

Lemma failed_refresh_logs_out_witness :
  ∃ w', exec answer perform (λ _, 1760000000000)
          (checkAuthentication (λ _, Some 1759968000000) (λ _, None) exampleRangeError)
          offlineWorld
        = (w', ReturnV false)
    ∧ state w' = signedOut None
    ∧ (∀ key, key ∈ sessionKeys → secureStore w' !! key = None)
    ∧ (∀ key, key ∉ sessionKeys →
         secureStore w' !! key = secureStore offlineWorld !! key).
Proof.
  apply (failed_refresh_logs_out (λ _, Some 1759968000000) (λ _, None)
           exampleRangeError (λ _, 1760000000000)
           offlineWorld "Atna|token" "Atnr|token" "2025-10-09T00:00:00.000Z"
           1759968000000).
  - reflexivity.
  - discriminate.
  - reflexivity.
  - discriminate.
  - reflexivity.
  - discriminate.
  - reflexivity.
  - lia.
  - intros l r d. exact I.
Defined.

Lemma refresh_keeps_credentials_witness :
  ∃ w', exec answer perform (λ _, 1760000000000)
          (refreshAccessToken exampleISO exampleRangeError) expiredWorld
        = (w', ReturnV true)
    ∧ secureStore w' !! ACCESS_TOKEN = Some "Atna|new"
    ∧ secureStore w' !! REFRESH_TOKEN = Some (orElse None "Atnr|token")
    ∧ secureStore w' !! LOCALE_CODE = Some "us"
    ∧ secureStore w' !! DEVICE_SERIAL = Some "0123"
    ∧ length (filter (λ op, isBridgeCall op = true) (issued w'))
      = S (length (filter (λ op, isBridgeCall op = true) (issued expiredWorld)))
    ∧ ((Some 3600 ≫= λ s, exampleISO (1760000000000 + s * 1000)) = None →
       secureStore w' !! TOKEN_EXPIRES_AT = secureStore expiredWorld !! TOKEN_EXPIRES_AT
       ∧ isAuthenticated (state w') = isAuthenticated (state expiredWorld)
       ∧ tokens (state w') = tokens (state expiredWorld)
       ∧ error (state w') = Some exampleRangeError).
Proof.
  apply (refresh_keeps_credentials exampleISO exampleRangeError
           (λ _, 1760000000000) expiredWorld "Atnr|token" "us" "0123"
           {| data_access_token := "Atna|new"; data_refresh_token := None;
              data_expires_in := Some 3600; data_token_type := None |}
           {| success := true;
              data := Some {| data_access_token := "Atna|new";
                              data_refresh_token := None;
                              data_expires_in := Some 3600;
                              data_token_type := None |};
              bridge_error := None |}).
  - reflexivity.
  - discriminate.
  - reflexivity.
  - discriminate.
  - reflexivity.
  - discriminate.
  - reflexivity.
  - reflexivity.
  - reflexivity.
Defined.

(** A refresh whose result carries no [expires_in]: the new tokens are
    stored, the expiry date is not, and the state holds the [RangeError]. *)
Example refresh_without_expiry :
  (λ r, (r.2, secureStore r.1 !! ACCESS_TOKEN, secureStore r.1 !! TOKEN_EXPIRES_AT,
         error (state r.1)))
    (exec answer perform (λ _, 1760000000000)
       (refreshAccessToken exampleISO exampleRangeError) undatedWorld)
  = (ReturnV true, Some "Atna|new", Some "2025-10-09T00:00:00.000Z",
     Some exampleRangeError).
Proof. vm_compute. reflexivity. Qed.

End UseAuthenticationFacts.

Module CoreFacts.
Import Core.
Local Open Scope N_scope.

Section License.
Import LicenseDecryptor.

Lemma hex_decode_cons2 h l rest bs :
  hex_decode (String h (String l rest)) = Some bs →
  ∃ b bs', bs = b :: bs' ∧ hex_decode rest = Some bs'.
Proof.
  simpl. destruct (hex_digit h); simpl; [|done].
  destruct (hex_digit l); simpl; [|done].
  destruct (Byte.of_N _) as [b|]; simpl; [|done].
  destruct (hex_decode rest) as [bs'|]; simpl; [|done].
  intros [= <-]. by exists b, bs'.
Qed.

(** Two hex digits per byte: the 8 characters of an activation key are 4
    bytes, the 32 of an AAXC key or IV are 16. *)
Lemma hex_decode_length s bs :
  hex_decode s = Some bs → String.length s = (2 * length bs)%nat.
Proof.
  revert bs.
  enough (H : (∀ bs, hex_decode s = Some bs → String.length s = (2 * length bs)%nat)
              ∧ ∀ c bs, hex_decode (String c s) = Some bs →
                        String.length (String c s) = (2 * length bs)%nat)
    by apply H.
  induction s as [|c' s [IH1 IH2]]; split.
  - by intros bs [= <-].
  - intros c bs. discriminate.
  - exact (IH2 c').
  - intros c bs (b & bs' & -> & Hrest)%hex_decode_cons2.
    simpl. rewrite (IH1 _ Hrest). simpl. lia.
Qed.

(** C7.  [parse_key_material] classifies by the byte lengths of the
    fields: a 4-byte key without IV is TypeA, a 16-byte key with a 16-byte
    IV is TypeB, and every other combination of lengths fails with
    [MalformedVoucherError]. *)
Theorem key_classification p :
  (key_bytes p = Some 4%nat → iv_bytes p = None →
     ∃ k, parse_key_material p
          = inr {| drm_kind := TypeA; key_material := k;
                   content_url := offline_url p |}
          ∧ length k = 4%nat)
  ∧ (key_bytes p = Some 16%nat → iv_bytes p = Some (Some 16%nat) →
     ∃ km, parse_key_material p
           = inr {| drm_kind := TypeB; key_material := km;
                    content_url := offline_url p |}
           ∧ length km = 32%nat)
  ∧ (¬ (key_bytes p = Some 4%nat ∧ iv_bytes p = None) →
     ¬ (key_bytes p = Some 16%nat ∧ iv_bytes p = Some (Some 16%nat)) →
     parse_key_material p = inl MalformedVoucherError).
Proof.
  unfold key_bytes, iv_bytes, parse_key_material.
  destruct (hex_decode (key p)) as [k|]; simpl;
    [|by destruct (hex_decode <$> iv p)].
  destruct (iv p) as [v|]; simpl; [destruct (hex_decode v) as [vb|]; simpl|].
  - split_and!; [done| |].
    + intros [= Hk] [= Hv]. rewrite decide_True by done.
      eexists. split; [done|]. rewrite length_app. lia.
    + intros _ H16. rewrite decide_False; [done|].
      intros [Hk Hv]. apply H16. by rewrite Hk, Hv.
  - by split_and!.
  - split_and!; [|done|].
    + intros [= Hk] _. rewrite decide_True by done. eauto.
    + intros H4 _. rewrite decide_False; [done|].
      intros Hk. apply H4. by rewrite Hk.
Qed.

Lemma file_type_cases key_len iv_len :
  file_type key_len iv_len =
    if decide (key_len = 4%nat ∧ iv_len = None) then AAX
    else if decide (key_len = 16%nat ∧ iv_len = Some 16%nat) then AAXC
    else Unknown.
Proof.
  destruct (decide (key_len = 4%nat ∧ iv_len = None)) as [[-> ->]|H4]; [done|].
  destruct (decide (key_len = 16%nat ∧ iv_len = Some 16%nat)) as [[-> ->]|H16];
    [done|].
  destruct iv_len as [iv_len|].
  - do 16 (destruct key_len as [|key_len]; [done|]).
    destruct key_len as [|key_len]; [|done].
    do 16 (destruct iv_len as [|iv_len]; [done|]).
    destruct iv_len as [|iv_len]; [|done].
    by destruct H16.
  - do 4 (destruct key_len as [|key_len]; [done|]).
    destruct key_len as [|key_len]; [by destruct H4|].
    by do 12 (destruct key_len as [|key_len]; [done|]).
Qed.

(** The classification agrees with the file-format detection: a voucher
    is accepted exactly where the detection knows the format. *)
Lemma parse_follows_file_type p k :
  hex_decode (key p) = Some k →
  iv_bytes p ≠ Some None →
  sum_map id drm_kind (parse_key_material p)
  = match file_type (length k) (mjoin (iv_bytes p)) with
    | AAX => inr TypeA
    | AAXC => inr TypeB
    | Unknown => inl MalformedVoucherError
    end.
Proof.
  intros Hk Hiv. rewrite file_type_cases.
  unfold iv_bytes, parse_key_material in *. rewrite Hk.
  destruct (iv p) as [v|];
    cbn [fmap option_fmap option_map mjoin option_join] in *;
    [destruct (hex_decode v) as [vb|];
     cbn [fmap option_fmap option_map mjoin option_join] in *; [|done]|];
    repeat case_decide; destruct_and?; simplify_eq; try done;
    exfalso; eauto.
Qed.

Lemma key_classification_witness :
  (∃ k, parse_key_material {| key := "1CEB00DA"; iv := None; offline_url := "u" |}
        = inr {| drm_kind := TypeA; key_material := k; content_url := "u" |}
        ∧ length k = 4%nat)
  ∧ (∃ km, parse_key_material
             {| key := "7ed05bd5f2e7babd20d984de15862181";
                iv := Some "d957c0f275895759e0da5aea7aecaa04";
                offline_url := "u" |}
           = inr {| drm_kind := TypeB; key_material := km; content_url := "u" |}
           ∧ length km = 32%nat)
  ∧ parse_key_material {| key := "1CEB00"; iv := None; offline_url := "u" |}
    = inl MalformedVoucherError.
Proof.
  split_and!.
  - apply (key_classification {| key := "1CEB00DA"; iv := None; offline_url := "u" |});
      reflexivity.
  - apply (key_classification
             {| key := "7ed05bd5f2e7babd20d984de15862181";
                iv := Some "d957c0f275895759e0da5aea7aecaa04";
                offline_url := "u" |}); reflexivity.
  - apply (key_classification {| key := "1CEB00"; iv := None; offline_url := "u" |});
      intros [H _]; vm_compute in H; discriminate.
Defined.

End License.

Section Stream.
Import ResumableStream.




Lemma load_durable len st : durable (load len st).
Proof.
  unfold load, durable. destruct (N.ltb_spec len (bytes_written st)); simpl; lia.
Qed.

Lemma act_durable a t : durable t → durable (act a t).
Proof.
  intros (H1 & H2 & H3). destruct a as [chunk|[]| |survived|]; simpl;
    try apply load_durable; unfold durable; simpl; lia.
Qed.

Lemma transfer_durable acts t : durable t → durable (transfer acts t).
Proof.
  unfold transfer. revert t. induction acts as [|a acts IH]; intros t Ht; simpl.
  - done.
  - apply IH. by apply act_durable.
Qed.

(** An interruption loses no resume point: what was persisted is found
    again, and the transfer goes on from there. *)
Lemma interrupt_keeps_resume_point survived t :
  durable t →
  persisted (act (Interrupt survived) t) = persisted t
  ∧ position (act (Interrupt survived) t) = bytes_written (persisted t).
Proof.
  intros (H1 & H2 & H3). simpl. unfold load.
  destruct (N.ltb_spec
              (N.max (file_length t) (N.min (position t) (flushed t + survived)))
              (bytes_written (persisted t))); [lia|done].
Qed.

(** C5.  Whatever the file and the state file hold when the transfer is
    loaded, and whatever happens afterwards (chunks, flushes, failed
    flushes, persisting, interruptions, a server that ignores the range),
    the persisted [bytes_written] never exceeds the length of the
    destination file; and loading a state whose [bytes_written] exceeds
    the file length restarts from byte zero. *)
Theorem bytes_written_durable len st acts :
  bytes_written (persisted (transfer acts (load len st)))
    ≤ file_length (transfer acts (load len st))
  ∧ bytes_written (persisted (load len st))
    = (if len <? bytes_written st then 0 else bytes_written st)
  ∧ position (load len st)
    = (if len <? bytes_written st then 0 else bytes_written st).
Proof.
  split.
  - destruct (transfer_durable acts (load len st) (load_durable len st)) as (H1 & H2 & _).
    lia.
  - unfold load. by destruct (len <? bytes_written st).
Qed.

Example resume_request_of_saved_state :
  resume_request savedState
  = [("User-Agent", "Audible/671 CFNetwork/1240.0.4 Darwin/20.6.0");
     ("Range", "bytes=47293814-")].
Proof. reflexivity. Qed.

Example interrupted_mid_chunk :
  let t := transfer [Append 8192; Append 8192; Flush true; Persist;
                     Append 8192; Interrupt 100]
             (load 0 (set_bytes_written 0 savedState)) in
  (bytes_written (persisted t), file_length t, position t) = (16384, 16484, 16384).
Proof. reflexivity. Qed.

Example corrupt_state_restarts :
  let t := load 1000 savedState in
  (bytes_written (persisted t), position t) = (0, 0).
Proof. reflexivity. Qed.

End Stream.

Section Progress.
Import ProgressTracker.

Lemma record_done bytes_delta now t : done t ≤ done (record bytes_delta now t).
Proof. unfold record. destruct (WINDOW <=? _); simpl; lia. Qed.

Lemma report_ordered r acc : ordered acc → ordered (report r acc).
Proof.
  destruct r as [bytes_delta now], acc as [t out]. intros [Hs Hb]. simpl in *.
  pose proof (record_done bytes_delta now t) as Hd.
  assert (Forall (λ s, bytes_done s ≤ done (record bytes_delta now t)) out) as Hb'.
  { eapply Forall_impl; [exact Hb|]. simpl. intros s Hle. lia. }
  unfold report. destruct (should_emit now _); split; simpl; try done.
  - rewrite fmap_app. apply StronglySorted_app. split_and!; [|done|].
    + intros x1 x2 Hx1 Hx2. simpl in Hx2. apply list_elem_of_singleton in Hx2 as ->.
      apply list_elem_of_fmap in Hx1 as (s & -> & Hin).
      by apply (proj1 (Forall_forall _ _) Hb').
    + repeat constructor.
  - apply Forall_app. split; [done|]. by repeat constructor.
Qed.

Lemma reports_ordered reports acc :
  ordered acc → ordered (foldl (λ acc r, report r acc) acc reports).
Proof.
  revert acc. induction reports as [|r reports IH]; intros acc Hacc; simpl.
  - done.
  - apply IH. by apply report_ordered.
Qed.

(** C8.  The [bytes_done] values of the snapshots one tracker emits, in
    the order of emission, never decrease. *)
Theorem progress_monotone t reports :
  StronglySorted N.le (bytes_done <$> emissions t reports).
Proof.
  unfold emissions.
  apply (reports_ordered reports (t, [])).
  split; simpl; constructor.
Qed.

Example emissions_of_a_download :
  bytes_done <$> emissions (ProgressTracker.new 0 24576 0)
                   [(8192, 50); (8192, 100); (8192, 300)]
  = [8192; 24576].
Proof. reflexivity. Qed.

End Progress.

End CoreFacts.
